(** * Named locks (pkg/locks/locks.go): an interleaving model

    The Go package keeps a map from lock names to reference-counted
    [sync.RWMutex] entries behind one [sync.Mutex].  Every statement of
    [Acquire], [RAcquire], [Release], [RRelease] and [Upgrade] that touches
    shared memory is one atomic step of the model below; goroutines are
    interleaved by an explicit schedule.  Go's atomics are sequentially
    consistent and every other shared access of the package happens under a
    mutex, so interleaving the statements is the semantics of the code. *)

From stdpp Require Import base option list functions gmap strings.
From Stdlib Require Import ZArith Lia.

Local Open Scope Z_scope.
Local Open Scope string_scope.

(** ** Data *)

Abbreviation addr := nat (only parsing).
Abbreviation tid := nat (only parsing).

(** [int32] and [int] (64 bit) arithmetic wraps around. *)
Definition wrap32 (z : Z) : Z := (z + 2147483648) mod 4294967296 - 2147483648.
Definition wrap64 (z : Z) : Z :=
  (z + 9223372036854775808) mod 18446744073709551616 - 9223372036854775808.

(** [sync.RWMutex], by its contract: one writer or any number of readers.
    Which waiting goroutine is served is left to the schedule; Go also keeps
    a new reader behind a waiting writer, so Go allows no grant that the
    model does not allow.  Go's mutexes have no owner; [rw_writer] records
    the goroutine whose [Lock] was granted for the proofs only, no step
    reads more of it than whether it is [None]. *)
Record RWMutex := mkRW { rw_writer : option tid; rw_readers : nat }.

(** [type namedLock struct].  The [locker] field always points to the one
    registry of the state, which is why it is not a field here. *)
Record namedLock := mkNL {
  name : string;
  queueSize : Z;
  writeLockMode : Z;
  writeLockCount : Z;
  rwmutex : RWMutex
}.

(** [newNamedLock(name, locker)] *)
Definition newNamedLock (n : string) : namedLock :=
  mkNL n 0 0 0 (mkRW None 0).

Definition set_queueSize (q : Z) (e : namedLock) : namedLock :=
  mkNL (name e) q (writeLockMode e) (writeLockCount e) (rwmutex e).
Definition set_writeLockMode (v : Z) (e : namedLock) : namedLock :=
  mkNL (name e) (queueSize e) v (writeLockCount e) (rwmutex e).
Definition set_writeLockCount (v : Z) (e : namedLock) : namedLock :=
  mkNL (name e) (queueSize e) (writeLockMode e) v (rwmutex e).
Definition set_rwmutex (r : RWMutex) (e : namedLock) : namedLock :=
  mkNL (name e) (queueSize e) (writeLockMode e) (writeLockCount e) r.

(** Shared memory: the allocated [namedLock]s (a pointer is an index; entries
    are never freed while referenced, so the store only grows), and the
    [namedLocker]: its [locks] map and its [mapLock] (owner recorded as for
    [rw_writer]). *)
Record mem := mkMem {
  heap : list namedLock;
  locks : gmap string addr;
  mapLock : option tid
}.

Definition set_heap (h : list namedLock) (m : mem) : mem :=
  mkMem h (locks m) (mapLock m).
Definition set_locks (l : gmap string addr) (m : mem) : mem :=
  mkMem (heap m) l (mapLock m).
Definition set_mapLock (o : option tid) (m : mem) : mem :=
  mkMem (heap m) (locks m) o.

(** Update of the entry behind pointer [a]. *)
Definition upd (a : addr) (f : namedLock → namedLock) (m : mem) : mem :=
  set_heap (alter f a (heap m)) m.

(** [errInvalidLockName(name)] *)
Inductive error := InvalidLockName (n : string).
Definition Error (e : error) : string :=
  match e with InvalidLockName n => "invalid lock name: " ++ n end.

(** What a call returns: a lock handle, [nil], or an error. *)
Inductive result := ROk (a : addr) | RNil | RErr (e : error).

Inductive call :=
| CAcquire (n : string)
| CRAcquire (n : string)
| CRelease
| CRRelease
| CUpgrade.

(** One event per executed statement, with the values it saw. *)
Inductive event :=
| ECall (c : call)
| EMapLock
| EMapUnlock
| ELookup (n : string) (r : option addr)
| ENew (n : string) (a : addr)
| EDelete (n : string)
| EAdd (a : addr) (d : Z) (qs : Z)
| EStore (a : addr) (v : Z)
| ELock (a : addr)
| EUnlock (a : addr)
| ERLock (a : addr)
| ERUnlock (a : addr)
| ECountRd (a : addr) (v : Z)
| ECountWr (a : addr) (v : Z)
| ESpawn
| ESend
| ERecv
| EClose
| EDone
| EWait
| ERet (r : result).

(** ** Program points *)

Inductive acq_pc :=
| AcqCheck | AcqMapLock | AcqLookup | AcqNew
| AcqAdd (a : addr) | AcqMapUnlock (a : addr) | AcqStore (a : addr)
| AcqLock (a : addr) | AcqCountRd (a : addr) | AcqCountWr (a : addr) (v : Z).

Inductive racq_pc :=
| RAcqCheck | RAcqMapLock | RAcqLookup | RAcqNew
| RAcqAdd (a : addr) | RAcqMapUnlock (a : addr) | RAcqStore (a : addr)
| RAcqRLock (a : addr).

Inductive rel_pc :=
| RelCheck | RelStore | RelAdd | RelMapLock | RelDelete | RelMapUnlock
| RelUnlock.

Inductive rrel_pc :=
| RRelCheck | RRelAdd | RRelMapLock | RRelDelete | RRelMapUnlock
| RRelRUnlock.

(** [Upgrade]: the calling goroutine and the goroutine it starts. *)
Inductive upg_pc := UpgRecv | UpgClose | UpgRRelease (r : rrel_pc) | UpgWait.

Inductive helper_pc :=
| HAdd | HSend | HStore | HLock | HCountRd | HCountWr (v : Z) | HDone | HExit.

(** [make(chan bool, 1)] *)
Inductive chan := ChEmpty | ChFull | ChClosed.

Inductive pc :=
| PIdle
| PHoldW (a : addr)
| PHoldR (a : addr)
| PAcquire (n : string) (p : acq_pc)
| PRAcquire (n : string) (p : racq_pc)
| PRelease (a : addr) (p : rel_pc)
| PRRelease (a : addr) (p : rrel_pc)
| PUpgStart (a : addr)
| PUpgrade (a : addr) (c : upg_pc) (h : helper_pc) (ch : chan) (wg : nat).

Record thread := mkThread { th_pc : pc; th_log : list event }.

Record state := mkState { st_mem : mem; st_threads : tid → thread }.

(** ** Primitives *)

(** [sync.Mutex]: [Lock] blocks while locked ([None]: no step), [Unlock] of
    an unlocked mutex is a fatal error (no step either). *)
Definition mutex_Lock (t : tid) (m : mem) : option mem :=
  match mapLock m with
  | None => Some (set_mapLock (Some t) m)
  | Some _ => None
  end.

Definition mutex_Unlock (m : mem) : option mem :=
  match mapLock m with
  | Some _ => Some (set_mapLock None m)
  | None => None
  end.

Definition rw_Lock (t : tid) (a : addr) (m : mem) : option mem :=
  e ← heap m !! a;
  match rw_writer (rwmutex e), rw_readers (rwmutex e) with
  | None, O => Some (upd a (set_rwmutex (mkRW (Some t) O)) m)
  | _, _ => None
  end.

Definition rw_Unlock (a : addr) (m : mem) : option mem :=
  e ← heap m !! a;
  match rw_writer (rwmutex e) with
  | Some _ => Some (upd a (set_rwmutex (mkRW None (rw_readers (rwmutex e)))) m)
  | None => None
  end.

Definition rw_RLock (a : addr) (m : mem) : option mem :=
  e ← heap m !! a;
  match rw_writer (rwmutex e) with
  | None => Some (upd a (set_rwmutex (mkRW None (S (rw_readers (rwmutex e))))) m)
  | Some _ => None
  end.

Definition rw_RUnlock (a : addr) (m : mem) : option mem :=
  e ← heap m !! a;
  match rw_readers (rwmutex e) with
  | S k => Some (upd a (set_rwmutex (mkRW (rw_writer (rwmutex e)) k)) m)
  | O => None
  end.

(** [atomic.AddInt32(&nl.queueSize, d)]: the new value and the memory. *)
Definition atomic_AddInt32 (a : addr) (d : Z) (m : mem) : option (Z * mem) :=
  e ← heap m !! a;
  let qs := wrap32 (queueSize e + d) in
  Some (qs, upd a (set_queueSize qs) m).

(** [atomic.StoreInt32(&nl.writeLockMode, v)] *)
Definition atomic_StoreInt32 (a : addr) (v : Z) (m : mem) : option mem :=
  e ← heap m !! a; Some (upd a (set_writeLockMode v) m).

(** [nl = newNamedLock(lockName, lk); lk.locks[lockName] = nl] *)
Definition new_entry (n : string) (m : mem) : addr * mem :=
  let a := length (heap m) in
  (a, mkMem (heap m ++ [newNamedLock n]) (<[n := a]> (locks m)) (mapLock m)).

(** [delete(nl.locker.locks, nl.name)] *)
Definition delete_entry (a : addr) (m : mem) : option (string * mem) :=
  e ← heap m !! a; Some (name e, set_locks (delete (name e) (locks m)) m).

(** ** The operations, statement by statement

    A statement yields its events, where control goes, and the memory. *)

Definition Acquire (t : tid) (lockName : string) (p : acq_pc) (m : mem)
  : option (list event * pc * mem) :=
  match p with
  | AcqCheck =>
      if decide (lockName = "")
      then Some ([ERet (RErr (InvalidLockName lockName))], PIdle, m)
      else Some ([], PAcquire lockName AcqMapLock, m)
  | AcqMapLock =>
      m' ← mutex_Lock t m; Some ([EMapLock], PAcquire lockName AcqLookup, m')
  | AcqLookup =>
      match locks m !! lockName with
      | Some a => Some ([ELookup lockName (Some a)], PAcquire lockName (AcqAdd a), m)
      | None => Some ([ELookup lockName None], PAcquire lockName AcqNew, m)
      end
  | AcqNew =>
      let '(a, m') := new_entry lockName m in
      Some ([ENew lockName a], PAcquire lockName (AcqAdd a), m')
  | AcqAdd a =>
      '(qs, m') ← atomic_AddInt32 a 1 m;
      Some ([EAdd a 1 qs], PAcquire lockName (AcqMapUnlock a), m')
  | AcqMapUnlock a =>
      m' ← mutex_Unlock m; Some ([EMapUnlock], PAcquire lockName (AcqStore a), m')
  | AcqStore a =>
      m' ← atomic_StoreInt32 a 1 m;
      Some ([EStore a 1], PAcquire lockName (AcqLock a), m')
  | AcqLock a =>
      m' ← rw_Lock t a m; Some ([ELock a], PAcquire lockName (AcqCountRd a), m')
  | AcqCountRd a =>
      e ← heap m !! a;
      Some ([ECountRd a (writeLockCount e)],
            PAcquire lockName (AcqCountWr a (writeLockCount e)), m)
  | AcqCountWr a v =>
      Some ([ECountWr a (wrap64 (v + 1)); ERet (ROk a)], PHoldW a,
            upd a (set_writeLockCount (wrap64 (v + 1))) m)
  end.

Definition RAcquire (t : tid) (lockName : string) (p : racq_pc) (m : mem)
  : option (list event * pc * mem) :=
  match p with
  | RAcqCheck =>
      if decide (lockName = "")
      then Some ([ERet (RErr (InvalidLockName lockName))], PIdle, m)
      else Some ([], PRAcquire lockName RAcqMapLock, m)
  | RAcqMapLock =>
      m' ← mutex_Lock t m; Some ([EMapLock], PRAcquire lockName RAcqLookup, m')
  | RAcqLookup =>
      match locks m !! lockName with
      | Some a => Some ([ELookup lockName (Some a)], PRAcquire lockName (RAcqAdd a), m)
      | None => Some ([ELookup lockName None], PRAcquire lockName RAcqNew, m)
      end
  | RAcqNew =>
      let '(a, m') := new_entry lockName m in
      Some ([ENew lockName a], PRAcquire lockName (RAcqAdd a), m')
  | RAcqAdd a =>
      '(qs, m') ← atomic_AddInt32 a 1 m;
      Some ([EAdd a 1 qs], PRAcquire lockName (RAcqMapUnlock a), m')
  | RAcqMapUnlock a =>
      m' ← mutex_Unlock m; Some ([EMapUnlock], PRAcquire lockName (RAcqStore a), m')
  | RAcqStore a =>
      m' ← atomic_StoreInt32 a 0 m;
      Some ([EStore a 0], PRAcquire lockName (RAcqRLock a), m')
  | RAcqRLock a =>
      m' ← rw_RLock a m; Some ([ERLock a; ERet (ROk a)], PHoldR a, m')
  end.

Definition Release (t : tid) (nl : addr) (p : rel_pc) (m : mem)
  : option (list event * pc * mem) :=
  match p with
  | RelCheck =>
      e ← heap m !! nl;
      if decide (name e = "")
      then Some ([ERet (RErr (InvalidLockName (name e)))], PHoldW nl, m)
      else Some ([], PRelease nl RelStore, m)
  | RelStore =>
      m' ← atomic_StoreInt32 nl 0 m; Some ([EStore nl 0], PRelease nl RelAdd, m')
  | RelAdd =>
      '(qs, m') ← atomic_AddInt32 nl (-1) m;
      Some ([EAdd nl (-1) qs],
            PRelease nl (if decide (qs = 0) then RelMapLock else RelUnlock), m')
  | RelMapLock =>
      m' ← mutex_Lock t m; Some ([EMapLock], PRelease nl RelDelete, m')
  | RelDelete =>
      '(n, m') ← delete_entry nl m; Some ([EDelete n], PRelease nl RelMapUnlock, m')
  | RelMapUnlock =>
      m' ← mutex_Unlock m; Some ([EMapUnlock], PRelease nl RelUnlock, m')
  | RelUnlock =>
      m' ← rw_Unlock nl m; Some ([EUnlock nl; ERet RNil], PIdle, m')
  end.

(** [RRelease] is also called by [Upgrade], so its statements say where they
    go inside [RRelease], or what [RRelease] returns. *)
Definition RRelease (t : tid) (nl : addr) (p : rrel_pc) (m : mem)
  : option (list event * (rrel_pc + result) * mem) :=
  match p with
  | RRelCheck =>
      e ← heap m !! nl;
      if decide (name e = "")
      then Some ([], inr (RErr (InvalidLockName (name e))), m)
      else Some ([], inl RRelAdd, m)
  | RRelAdd =>
      '(qs, m') ← atomic_AddInt32 nl (-1) m;
      Some ([EAdd nl (-1) qs],
            inl (if decide (qs = 0) then RRelMapLock else RRelRUnlock), m')
  | RRelMapLock =>
      m' ← mutex_Lock t m; Some ([EMapLock], inl RRelDelete, m')
  | RRelDelete =>
      '(n, m') ← delete_entry nl m; Some ([EDelete n], inl RRelMapUnlock, m')
  | RRelMapUnlock =>
      m' ← mutex_Unlock m; Some ([EMapUnlock], inl RRelRUnlock, m')
  | RRelRUnlock =>
      m' ← rw_RUnlock nl m; Some ([ERUnlock nl], inr RNil, m')
  end.

(** The calling goroutine of [Upgrade], after it has started the other one.
    The error of [nl.RRelease()] is dropped, as in the source. *)
Definition Upgrade (t : tid) (nl : addr) (c : upg_pc) (h : helper_pc)
    (ch : chan) (wg : nat) (m : mem) : option (list event * pc * mem) :=
  match c with
  | UpgRecv =>
      match ch with
      | ChFull => Some ([ERecv], PUpgrade nl UpgClose h ChEmpty wg, m)
      | ChEmpty => None
      | ChClosed => Some ([ERecv], PUpgrade nl UpgClose h ChClosed wg, m)
      end
  | UpgClose =>
      match ch with
      | ChClosed => None
      | _ => Some ([EClose], PUpgrade nl (UpgRRelease RRelCheck) h ChClosed wg, m)
      end
  | UpgRRelease r =>
      '(evs, k, m') ← RRelease t nl r m;
      match k with
      | inl r' => Some (evs, PUpgrade nl (UpgRRelease r') h ch wg, m')
      | inr _ => Some (evs, PUpgrade nl UpgWait h ch wg, m')
      end
  | UpgWait =>
      match wg with
      | O => Some ([EWait; ERet (ROk nl)], PHoldW nl, m)
      | S _ => None
      end
  end.

(** The goroutine started by [Upgrade]. *)
Definition Upgrade_go (t : tid) (nl : addr) (c : upg_pc) (h : helper_pc)
    (ch : chan) (wg : nat) (m : mem) : option (list event * pc * mem) :=
  match h with
  | HAdd =>
      '(qs, m') ← atomic_AddInt32 nl 1 m;
      Some ([EAdd nl 1 qs], PUpgrade nl c HSend ch wg, m')
  | HSend =>
      match ch with
      | ChEmpty => Some ([ESend], PUpgrade nl c HStore ChFull wg, m)
      | _ => None
      end
  | HStore =>
      m' ← atomic_StoreInt32 nl 1 m;
      Some ([EStore nl 1], PUpgrade nl c HLock ch wg, m')
  | HLock =>
      m' ← rw_Lock t nl m; Some ([ELock nl], PUpgrade nl c HCountRd ch wg, m')
  | HCountRd =>
      e ← heap m !! nl;
      Some ([ECountRd nl (writeLockCount e)],
            PUpgrade nl c (HCountWr (writeLockCount e)) ch wg, m)
  | HCountWr v =>
      Some ([ECountWr nl (wrap64 (v + 1))], PUpgrade nl c HDone ch wg,
            upd nl (set_writeLockCount (wrap64 (v + 1))) m)
  | HDone =>
      match wg with
      | S k => Some ([EDone], PUpgrade nl c HExit ch k, m)
      | O => None
      end
  | HExit => None
  end.

(** The next statement of goroutine [t] at program point [p]. *)
Definition step (t : tid) (p : pc) (m : mem) : option (list event * pc * mem) :=
  match p with
  | PIdle | PHoldW _ | PHoldR _ => None
  | PAcquire n q => Acquire t n q m
  | PRAcquire n q => RAcquire t n q m
  | PRelease a q => Release t a q m
  | PRRelease a q =>
      '(evs, k, m') ← RRelease t a q m;
      match k with
      | inl q' => Some (evs, PRRelease a q', m')
      | inr (RErr e) => Some ((evs ++ [ERet (RErr e)])%list, PHoldR a, m')
      | inr r => Some ((evs ++ [ERet r])%list, PIdle, m')
      end
  | PUpgStart a => Some ([ESpawn], PUpgrade a UpgRecv HAdd ChEmpty 1, m)
  | PUpgrade a c h ch wg => Upgrade t a c h ch wg m
  end.

Definition step_go (t : tid) (p : pc) (m : mem) : option (list event * pc * mem) :=
  match p with
  | PUpgrade a c h ch wg => Upgrade_go t a c h ch wg m
  | _ => None
  end.

(** What a client may call: [Acquire]/[RAcquire] when it holds no handle,
    [Release] on a handle from [Acquire] or [Upgrade], [RRelease] and
    [Upgrade] on a handle from [RAcquire]. *)
Definition begin (p : pc) (c : call) : option pc :=
  match p, c with
  | PIdle, CAcquire n => Some (PAcquire n AcqCheck)
  | PIdle, CRAcquire n => Some (PRAcquire n RAcqCheck)
  | PHoldW a, CRelease => Some (PRelease a RelCheck)
  | PHoldR a, CRRelease => Some (PRRelease a RRelCheck)
  | PHoldR a, CUpgrade => Some (PUpgStart a)
  | _, _ => None
  end.

(** ** Schedules *)

Inductive action :=
| Call (t : tid) (c : call)
| Step (t : tid)
| Go (t : tid).

Definition set_thread (t : tid) (th : thread) (s : state) : state :=
  mkState (st_mem s) (<[t := th]> (st_threads s)).

Definition exec1 (x : action) (s : state) : option state :=
  match x with
  | Call t c =>
      p ← begin (th_pc (st_threads s t)) c;
      Some (set_thread t (mkThread p [ECall c]) s)
  | Step t =>
      '(evs, p, m) ← step t (th_pc (st_threads s t)) (st_mem s);
      Some (mkState m (<[t := mkThread p (th_log (st_threads s t) ++ evs)%list]> (st_threads s)))
  | Go t =>
      '(evs, p, m) ← step_go t (th_pc (st_threads s t)) (st_mem s);
      Some (mkState m (<[t := mkThread p (th_log (st_threads s t) ++ evs)%list]> (st_threads s)))
  end.

Fixpoint run (sched : list action) (s : state) : option state :=
  match sched with
  | [] => Some s
  | x :: sched' => s' ← exec1 x s; run sched' s'
  end.

(** [NewNamedLocker()], and no goroutine in a call. *)
Definition init : state :=
  mkState (mkMem [] ∅ None) (λ _, mkThread PIdle []).

Definition reachable (s : state) : Prop := ∃ sched, run sched init = Some s.

(** The state of a run that is known to have one. *)
Definition the (o : option state) : state := default init o.

Definition pc_of (s : state) (t : tid) : pc := th_pc (st_threads s t).
Definition log_of (s : state) (t : tid) : list event := th_log (st_threads s t).

(** [WriteLockMode()] and [WriteLockCounter()] on the entry behind [a]. *)
Definition WriteLockMode (s : state) (a : addr) : option bool :=
  e ← heap (st_mem s) !! a; Some (bool_decide (writeLockMode e = 1)).
Definition WriteLockCounter (s : state) (a : addr) : option Z :=
  e ← heap (st_mem s) !! a; Some (writeLockCount e).

(** ** Schedules: who acts *)

Definition actor (x : action) : tid :=
  match x with Call t _ | Step t | Go t => t end.

Definition calls (t : tid) (x : action) : bool :=
  match x with Call t' _ => bool_decide (t' = t) | _ => false end.

(** Goroutine [t] starts no new call in [sched]. *)
Definition no_call (t : tid) (sched : list action) : bool :=
  forallb (λ x, negb (calls t x)) sched.

(** The statements of [t] alone. *)
Definition solo (t : tid) (k : nat) : list action := replicate k (Step t).

(** A statement of goroutine [t], of the caller or of the goroutine that
    [Upgrade] started. *)
Definition tstep (t : tid) (p : pc) (m : mem) (r : list event * pc * mem) : Prop :=
  step t p m = Some r ∨ step_go t p m = Some r.

(** ** Invariants of reachable states: what they say *)

(** Program points between [mapLock.Lock()] and [mapLock.Unlock()]. *)
Definition rrel_crit (r : rrel_pc) : bool :=
  match r with RRelDelete | RRelMapUnlock => true | _ => false end.

Definition in_crit (p : pc) : bool :=
  match p with
  | PAcquire _ (AcqLookup | AcqNew | AcqAdd _ | AcqMapUnlock _) => true
  | PRAcquire _ (RAcqLookup | RAcqNew | RAcqAdd _ | RAcqMapUnlock _) => true
  | PRelease _ (RelDelete | RelMapUnlock) => true
  | PRRelease _ r => rrel_crit r
  | PUpgrade _ (UpgRRelease r) _ _ _ => rrel_crit r
  | _ => false
  end.

(** The entry whose [Lock()] was granted to the goroutine and that it has not
    yet [Unlock()]ed. *)
Definition holdsW (p : pc) : option addr :=
  match p with
  | PAcquire _ (AcqCountRd a | AcqCountWr a _) => Some a
  | PHoldW a => Some a
  | PRelease a _ => Some a
  | PUpgrade a _ (HCountRd | HCountWr _ | HDone | HExit) _ _ => Some a
  | _ => None
  end.

(** The value of [writeLockCount] read by a [writeLockCount++] under way. *)
Definition count_read (p : pc) : option (addr * Z) :=
  match p with
  | PAcquire _ (AcqCountWr a v) => Some (a, v)
  | PUpgrade a _ (HCountWr v) _ _ => Some (a, v)
  | _ => None
  end.

(** Past the name check the name is not empty; the wait group of [Upgrade]
    is down only when the started goroutine is through. *)
Definition pc_ok (p : pc) : Prop :=
  match p with
  | PAcquire n q => q ≠ AcqCheck → n ≠ ""
  | PRAcquire n q => q ≠ RAcqCheck → n ≠ ""
  | PUpgrade _ _ h _ wg => wg = O → h = HExit
  | _ => True
  end.

Record thread_inv (m : mem) (t : tid) (p : pc) : Prop := {
  ti_crit : in_crit p = true ↔ mapLock m = Some t;
  ti_holdsW : ∀ a, holdsW p = Some a →
      ∃ e, heap m !! a = Some e ∧ rw_writer (rwmutex e) = Some t;
  ti_count : ∀ a v, count_read p = Some (a, v) →
      ∃ e, heap m !! a = Some e ∧ writeLockCount e = v;
  ti_ok : pc_ok p
}.

Definition int64 (z : Z) : Prop := -9223372036854775808 ≤ z < 9223372036854775808.

Definition mem_inv (m : mem) : Prop :=
  ∀ a e, heap m !! a = Some e → name e ≠ "" ∧ int64 (writeLockCount e).

Definition inv (s : state) : Prop :=
  mem_inv (st_mem s) ∧ ∀ t, thread_inv (st_mem s) t (pc_of s t).

(** ** What a call logs *)

(** The entry behind [a] has name [n]. *)
Definition named (a : addr) (n : string) (m : mem) : Prop :=
  ∃ e, heap m !! a = Some e ∧ name e = n.

(** [nl, ok := lk.locks[lockName]; if !ok { ... }] *)
Definition lookup_events (n : string) (a : addr) (fresh : bool) : list event :=
  if fresh then [ELookup n None; ENew n a] else [ELookup n (Some a)].

Definition Acquire_events (n : string) (a : addr) (fresh : bool) (qs v : Z) : list event :=
  ([ECall (CAcquire n); EMapLock] ++ lookup_events n a fresh ++
   [EAdd a 1 qs; EMapUnlock; EStore a 1; ELock a;
    ECountRd a v; ECountWr a (wrap64 (v + 1)); ERet (ROk a)])%list.

Definition Acquire_log (n : string) (th : thread) : Prop :=
  let pre a f := ([ECall (CAcquire n); EMapLock] ++ lookup_events n a f)%list in
  match th_pc th with
  | PAcquire n' p => n' = n ∧
      match p with
      | AcqCheck | AcqMapLock => th_log th = [ECall (CAcquire n)]
      | AcqLookup => th_log th = [ECall (CAcquire n); EMapLock]
      | AcqNew => th_log th = [ECall (CAcquire n); EMapLock; ELookup n None]
      | AcqAdd a => ∃ f, th_log th = pre a f
      | AcqMapUnlock a => ∃ f qs, th_log th = (pre a f ++ [EAdd a 1 qs])%list
      | AcqStore a => ∃ f qs, th_log th = (pre a f ++ [EAdd a 1 qs; EMapUnlock])%list
      | AcqLock a => ∃ f qs,
          th_log th = (pre a f ++ [EAdd a 1 qs; EMapUnlock; EStore a 1])%list
      | AcqCountRd a => ∃ f qs,
          th_log th = (pre a f ++ [EAdd a 1 qs; EMapUnlock; EStore a 1; ELock a])%list
      | AcqCountWr a v => ∃ f qs,
          th_log th = (pre a f ++ [EAdd a 1 qs; EMapUnlock; EStore a 1; ELock a;
                                   ECountRd a v])%list
      end
  | PHoldW a => ∃ f qs v, th_log th = Acquire_events n a f qs v
  | PIdle => n = "" ∧ th_log th = [ECall (CAcquire n); ERet (RErr (InvalidLockName n))]
  | _ => False
  end.

Definition RAcquire_events (n : string) (a : addr) (fresh : bool) (qs : Z) : list event :=
  ([ECall (CRAcquire n); EMapLock] ++ lookup_events n a fresh ++
   [EAdd a 1 qs; EMapUnlock; EStore a 0; ERLock a; ERet (ROk a)])%list.

Definition RAcquire_log (n : string) (th : thread) : Prop :=
  let pre a f := ([ECall (CRAcquire n); EMapLock] ++ lookup_events n a f)%list in
  match th_pc th with
  | PRAcquire n' p => n' = n ∧
      match p with
      | RAcqCheck | RAcqMapLock => th_log th = [ECall (CRAcquire n)]
      | RAcqLookup => th_log th = [ECall (CRAcquire n); EMapLock]
      | RAcqNew => th_log th = [ECall (CRAcquire n); EMapLock; ELookup n None]
      | RAcqAdd a => ∃ f, th_log th = pre a f
      | RAcqMapUnlock a => ∃ f qs, th_log th = (pre a f ++ [EAdd a 1 qs])%list
      | RAcqStore a => ∃ f qs, th_log th = (pre a f ++ [EAdd a 1 qs; EMapUnlock])%list
      | RAcqRLock a => ∃ f qs,
          th_log th = (pre a f ++ [EAdd a 1 qs; EMapUnlock; EStore a 0])%list
      end
  | PHoldR a => ∃ f qs, th_log th = RAcquire_events n a f qs
  | PIdle => n = "" ∧ th_log th = [ECall (CRAcquire n); ERet (RErr (InvalidLockName n))]
  | _ => False
  end.

(** [if qs == 0 { mapLock.Lock(); delete(locks, name); mapLock.Unlock() }] *)
Definition removal_events (n : string) (qs : Z) : list event :=
  if decide (qs = 0) then [EMapLock; EDelete n; EMapUnlock] else [].

Definition Release_events (a : addr) (n : string) (qs : Z) : list event :=
  ([ECall CRelease; EStore a 0; EAdd a (-1) qs] ++ removal_events n qs ++
   [EUnlock a; ERet RNil])%list.

Definition Release_log (a : addr) (n : string) (th : thread) : Prop :=
  match th_pc th with
  | PRelease a' p => a' = a ∧
      match p with
      | RelCheck | RelStore => th_log th = [ECall CRelease]
      | RelAdd => th_log th = [ECall CRelease; EStore a 0]
      | RelMapLock => th_log th = [ECall CRelease; EStore a 0; EAdd a (-1) 0]
      | RelDelete => th_log th = [ECall CRelease; EStore a 0; EAdd a (-1) 0; EMapLock]
      | RelMapUnlock =>
          th_log th = [ECall CRelease; EStore a 0; EAdd a (-1) 0; EMapLock; EDelete n]
      | RelUnlock => ∃ qs,
          th_log th = ([ECall CRelease; EStore a 0; EAdd a (-1) qs] ++ removal_events n qs)%list
      end
  | PIdle => ∃ qs, th_log th = Release_events a n qs
  | PHoldW a' => a' = a ∧ n = "" ∧
      th_log th = [ECall CRelease; ERet (RErr (InvalidLockName n))]
  | _ => False
  end.

Definition RRelease_events (a : addr) (n : string) (qs : Z) : list event :=
  ([ECall CRRelease; EAdd a (-1) qs] ++ removal_events n qs ++
   [ERUnlock a; ERet RNil])%list.

Definition RRelease_log (a : addr) (n : string) (th : thread) : Prop :=
  match th_pc th with
  | PRRelease a' p => a' = a ∧
      match p with
      | RRelCheck | RRelAdd => th_log th = [ECall CRRelease]
      | RRelMapLock => th_log th = [ECall CRRelease; EAdd a (-1) 0]
      | RRelDelete => th_log th = [ECall CRRelease; EAdd a (-1) 0; EMapLock]
      | RRelMapUnlock =>
          th_log th = [ECall CRRelease; EAdd a (-1) 0; EMapLock; EDelete n]
      | RRelRUnlock => ∃ qs,
          th_log th = ([ECall CRRelease; EAdd a (-1) qs] ++ removal_events n qs)%list
      end
  | PIdle => ∃ qs, th_log th = RRelease_events a n qs
  | PHoldR a' => a' = a ∧ n = "" ∧
      th_log th = [ECall CRRelease; ERet (RErr (InvalidLockName n))]
  | _ => False
  end.

(** ** What the events mean

    Every event names one operation on the shared memory; the events of a
    statement, replayed, give the memory the statement leaves. *)
Definition effect (t : tid) (ev : event) (m : mem) : option mem :=
  match ev with
  | ECall _ | ERet _ | ESpawn | ESend | ERecv | EClose | EDone | EWait => Some m
  | EMapLock => mutex_Lock t m
  | EMapUnlock => mutex_Unlock m
  | ELookup n r => if decide (locks m !! n = r) then Some m else None
  | ENew n a => if decide (a = length (heap m)) then Some (new_entry n m).2 else None
  | EDelete n => Some (set_locks (delete n (locks m)) m)
  | EAdd a d qs =>
      '(qs', m') ← atomic_AddInt32 a d m; if decide (qs' = qs) then Some m' else None
  | EStore a v => atomic_StoreInt32 a v m
  | ELock a => rw_Lock t a m
  | EUnlock a => rw_Unlock a m
  | ERLock a => rw_RLock a m
  | ERUnlock a => rw_RUnlock a m
  | ECountRd a v =>
      e ← heap m !! a; if decide (writeLockCount e = v) then Some m else None
  | ECountWr a v => Some (upd a (set_writeLockCount v) m)
  end.

Fixpoint effects (t : tid) (evs : list event) (m : mem) : option mem :=
  match evs with
  | [] => Some m
  | ev :: evs' => m' ← effect t ev m; effects t evs' m'
  end.

(** Events that read or write the [locks] map or its mutex. *)
Definition touches_map (ev : event) : bool :=
  match ev with
  | EMapLock | EMapUnlock | ELookup _ _ | ENew _ _ | EDelete _ => true
  | _ => false
  end.

(** ** Errors, runs of one goroutine, example states and schedules *)

(** The return of an error. *)
Definition is_error (ev : event) : bool :=
  match ev with ERet (RErr _) => true | _ => false end.

(** No event of the log is the return of an error. *)
Definition no_error (l : list event) : bool := forallb (λ ev, negb (is_error ev)) l.

(** [Acquire("k")] by goroutine 0, to its return. *)
Definition k_acquire : list action :=
  Call 0%nat (CAcquire "k") :: solo 0%nat 10.

(** What a goroutine holds when it calls [Release] or [RRelease]. *)
Definition held (c : call) (a : addr) : pc :=
  match c with CRelease => PHoldW a | _ => PHoldR a end.

(** A goroutine holding the write lock of an entry built with an empty name
    (the package can build one; [Acquire] never does). *)
Definition unnamed_held : state :=
  mkState (mkMem [mkNL "" 1 1 1 (mkRW (Some 0%nat) 0)] ∅ None)
          (λ t, mkThread (match t with O => PHoldW 0 | _ => PIdle end) []).

(** A goroutine holding the write lock of the entry of ["k"]. *)
Definition k_held : state :=
  mkState (mkMem [mkNL "k" 1 1 1 (mkRW (Some 0%nat) 0)] {["k" := 0%nat]} None)
          (λ t, mkThread (match t with O => PHoldW 0 | _ => PIdle end) []).

(** [k] statements of goroutine [t], with nobody else running. *)
Fixpoint steps (t : tid) (k : nat) (p : pc) (m : mem) : option (list event * pc * mem) :=
  match k with
  | O => Some ([], p, m)
  | S k' =>
      '(evs, p', m') ← step t p m;
      '(evs', p'', m'') ← steps t k' p' m';
      Some ((evs ++ evs')%list, p'', m'')
  end.

(** [Acquire("k")], then [Release()] up to its [delete]. *)
Definition k_release_delete : list action :=
  (Call 0%nat (CAcquire "k") :: solo 0%nat 10 ++ Call 0%nat CRelease :: solo 0%nat 4)%list.

(** No event of the list is an operation on the map or its mutex. *)
Definition map_free (l : list event) : bool := forallb (λ ev, negb (touches_map ev)) l.

(** Two goroutines hold the read lock of the entry of ["k"]. *)
Definition k_shared : state :=
  mkState (mkMem [mkNL "k" 2 0 0 (mkRW None 2)] {["k" := 0%nat]} None)
          (λ t, mkThread (match t with O | S O => PHoldR 0 | _ => PIdle end) []).

(** The claim C2 as the specification states it: [Acquire] sets
    [writeLockMode] while it still holds the map's mutex. *)
Definition pendingWrite_set_under_mapLock : Prop :=
  ∀ s t n a, reachable s → pc_of s t = PAcquire n (AcqStore a) →
             mapLock (st_mem s) = Some t.

(** [Acquire("k")] up to its store to [writeLockMode]. *)
Definition k_acquire_store : list action := Call 0%nat (CAcquire "k") :: solo 0%nat 6.

(** A reader holds the lock of ["k"]; a writer asks for it and waits in
    [Lock()]; then another reader asks, up to its store to [writeLockMode]. *)
Definition k_reader_after_writer : list action :=
  (Call 0%nat (CRAcquire "k") :: solo 0%nat 8 ++
   Call 1%nat (CAcquire "k") :: solo 1%nat 6 ++
   Call 2%nat (CRAcquire "k") :: solo 2%nat 5)%list.

(** The program points of an [Upgrade] on [a]; it returns [a]. *)
Definition Upgrade_log (a : addr) (th : thread) : Prop :=
  match th_pc th with
  | PUpgStart a' | PUpgrade a' _ _ _ _ => a' = a
  | PHoldW a' => a' = a ∧ last (th_log th) = Some (ERet (ROk a))
  | _ => False
  end.

(** 1 once the goroutine started by [Upgrade] has done its
    [writeLockCount++]. *)
Definition counted (p : pc) : Z :=
  match p with
  | PUpgrade _ _ (HDone | HExit) _ _ | PHoldW _ => 1
  | _ => 0
  end.

(** The caller of [Upgrade] ([false]) and the goroutine it started ([true])
    running with nobody else. *)
Definition duo (t : tid) (w : list bool) : list action :=
  (λ b : bool, if b then Go t else Step t) <$> w.

Fixpoint steps2 (t : tid) (w : list bool) (p : pc) (m : mem)
  : option (list event * pc * mem) :=
  match w with
  | [] => Some ([], p, m)
  | b :: w' =>
      '(evs, p', m') ← (if b : bool then step_go t p m else step t p m);
      '(evs', p'', m'') ← steps2 t w' p' m';
      Some ((evs ++ evs')%list, p'', m'')
  end.

(** The statements of an [Upgrade] by the only holder of the lock. *)
Definition upgrade_alone (removal : bool) : list bool :=
  ([false; true; true; false; false; false; false] ++
   (if removal then [false; false; false] else []) ++
   [false; true; true; true; true; true; false])%list.

(** [RAcquire("k")] by goroutine 0. *)
Definition k_racquired : list action := Call 0%nat (CRAcquire "k") :: solo 0%nat 8.

(** Goroutine 0 acquires ["k"] and releases it up to the decrement, which
    gives 0; goroutine 1 asks for ["k"], finds the entry and increments it;
    goroutine 0 deletes ["k"] from the map and unlocks; goroutine 1 gets the
    lock. *)
Definition k_race : list action :=
  (Call 0%nat (CAcquire "k") :: solo 0%nat 10 ++
   Call 0%nat CRelease :: solo 0%nat 3 ++
   Call 1%nat (CAcquire "k") :: solo 1%nat 6 ++
   solo 0%nat 4 ++ solo 1%nat 3)%list.

(** Then goroutine 2 acquires ["k"]: the name is absent, it gets a new
    entry. *)
Definition k_race_second : list action :=
  (k_race ++ Call 2%nat (CAcquire "k") :: solo 2%nat 10)%list.

(** Goroutine 2 gets the read lock of a new entry for ["k"]. *)
Definition k_race_reader : list action :=
  (k_race ++ Call 2%nat (CRAcquire "k") :: solo 2%nat 8)%list.

(** It calls [Upgrade]: the started goroutine increments [queueSize] and
    signals, the caller receives. *)
Definition k_race_upgrade : list action :=
  (k_race_reader ++
   [Call 2%nat CUpgrade; Step 2%nat; Go 2%nat; Go 2%nat; Step 2%nat])%list.

(** Goroutine 1 releases the entry it holds, the one that is not in the map:
    its decrement gives 0 and it deletes ["k"]. *)
Definition k_race_evict : list action :=
  (k_race_upgrade ++ Call 1%nat CRelease :: solo 1%nat 5)%list.

(** The started goroutine of [Upgrade] has incremented and signalled. *)
Definition signalled (h : helper_pc) : Prop :=
  match h with HAdd | HSend => False | _ => True end.

(** The rendezvous of [Upgrade]: a value in the channel, or a caller past
    its receive, means the started goroutine has incremented [queueSize]. *)
Definition handshake (p : pc) : Prop :=
  match p with
  | PUpgrade _ c h ch _ =>
      (ch = ChFull → signalled h) ∧ (c ≠ UpgRecv → signalled h) ∧
      (c = UpgRecv → ch ≠ ChClosed)
  | _ => True
  end.

(** ** Pointers, names and read locks *)

(** The entry a program point works on. *)
Definition uses (p : pc) : option addr :=
  match p with
  | PIdle => None
  | PHoldW a | PHoldR a => Some a
  | PAcquire _ q =>
      match q with
      | AcqAdd a | AcqMapUnlock a | AcqStore a | AcqLock a | AcqCountRd a
      | AcqCountWr a _ => Some a
      | _ => None
      end
  | PRAcquire _ q =>
      match q with
      | RAcqAdd a | RAcqMapUnlock a | RAcqStore a | RAcqRLock a => Some a
      | _ => None
      end
  | PRelease a _ | PRRelease a _ | PUpgStart a | PUpgrade a _ _ _ _ => Some a
  end.

(** The name [Acquire] or [RAcquire] was called with. *)
Definition asks (p : pc) : option string :=
  match p with
  | PAcquire n _ | PRAcquire n _ => Some n
  | _ => None
  end.

(** The entry whose [RLock()] was granted to the goroutine and that it has
    not yet [RUnlock()]ed. *)
Definition holdsR (p : pc) : option addr :=
  match p with
  | PHoldR a | PRRelease a _ | PUpgStart a => Some a
  | PUpgrade a (UpgRecv | UpgClose | UpgRRelease _) _ _ _ => Some a
  | _ => None
  end.

(** The channel and the wait group of an [Upgrade]: the started goroutine
    sends into the empty channel while the caller waits to receive, the
    caller closes the channel it has emptied, and the wait group is at 1
    until the started goroutine is through. *)
Definition rendezvous (p : pc) : Prop :=
  match p with
  | PUpgrade _ c h ch wg =>
      match h with
      | HAdd | HSend => c = UpgRecv ∧ ch = ChEmpty
      | _ =>
          match c with
          | UpgRecv => ch = ChFull
          | UpgClose => ch = ChEmpty
          | _ => ch = ChClosed
          end
      end ∧
      match h with HExit => wg = O | _ => wg = 1%nat end
  | _ => True
  end.

Record thread_inv2 (m : mem) (p : pc) : Prop := {
  ti_uses : ∀ a, uses p = Some a →
      ∃ e, heap m !! a = Some e ∧ ∀ n, asks p = Some n → name e = n;
  ti_holdsR : ∀ a, holdsR p = Some a →
      ∃ e, heap m !! a = Some e ∧ rw_writer (rwmutex e) = None;
  ti_rendezvous : rendezvous p
}.

(** The map sends a name to an entry of that name. *)
Definition mem_inv2 (m : mem) : Prop :=
  ∀ n a, locks m !! n = Some a → named a n m.

(** Sum of a weight over goroutines. *)
Fixpoint total (w : tid → nat) (l : list tid) : nat :=
  match l with
  | [] => O
  | t :: l' => (w t + total w l')%nat
  end.

(** A counter of every entry bounds the weights of any distinct
    goroutines. *)
Definition counted_by (w : pc → addr → nat) (c : namedLock → Z) (s : state) : Prop :=
  ∀ a e l, heap (st_mem s) !! a = Some e → NoDup l →
           (Z.of_nat (total (λ t, w (pc_of s t) a) l) ≤ c e)%Z.

(** 1 for the holder of the read lock of [a]. *)
Definition reads (p : pc) (a : addr) : nat :=
  if decide (holdsR p = Some a) then 1 else 0.

Definition readers_of (e : namedLock) : Z := Z.of_nat (rw_readers (rwmutex e)).

Definition inv2 (s : state) : Prop :=
  mem_inv2 (st_mem s) ∧ (∀ t, thread_inv2 (st_mem s) (pc_of s t)) ∧
  counted_by reads readers_of s.

(** Events that read or write the [locks] map itself. *)
Definition map_access (ev : event) : bool :=
  match ev with ELookup _ _ | ENew _ _ | EDelete _ => true | _ => false end.

(** ** Waiting *)

(** The write lock of [a] cannot be granted now. *)
Definition lock_busy (a : addr) (m : mem) : Prop :=
  ∃ e, heap m !! a = Some e ∧
       (is_Some (rw_writer (rwmutex e)) ∨ rw_readers (rwmutex e) ≠ O).

(** Why the caller has no statement to run: it is in no call, or its
    statement is one that waits: [Lock()] of the map's mutex, which is held,
    [Lock()] of the entry, which is busy, [RLock()] of the entry, the receive
    from the empty channel, or [Wait()] on the wait group that is not at 0.
    For [RLock()] no reason is given: the model grants the read lock whenever
    no writer holds the mutex, while [sync.RWMutex] also keeps a new reader
    behind a writer that waits, so that in Go a reader may wait where the
    model has a step for it. *)
Definition waits (p : pc) (m : mem) : Prop :=
  match p with
  | PIdle | PHoldW _ | PHoldR _ => True
  | PAcquire _ AcqMapLock | PRAcquire _ RAcqMapLock
  | PRelease _ RelMapLock | PRRelease _ RRelMapLock
  | PUpgrade _ (UpgRRelease RRelMapLock) _ _ _ => is_Some (mapLock m)
  | PAcquire _ (AcqLock a) => lock_busy a m
  | PRAcquire _ (RAcqRLock a) => is_Some (heap m !! a)
  | PUpgrade _ UpgRecv (HAdd | HSend) ChEmpty _ => True
  | PUpgrade _ UpgWait h _ (S _) => h ≠ HExit
  | _ => False
  end.

(** Why the goroutine started by [Upgrade] has no statement to run: there
    is none, it is through, or it waits for the lock of the entry. *)
Definition waits_go (p : pc) (m : mem) : Prop :=
  match p with
  | PUpgrade a _ HLock _ _ => lock_busy a m
  | PUpgrade _ _ HExit _ _ => True
  | PUpgrade _ _ _ _ _ => False
  | _ => True
  end.

(** ** [queueSize] *)

(** 1 for a goroutine that has incremented [queueSize] of [a] and not yet
    decremented it; in [Upgrade] the caller and the goroutine it starts
    count separately. *)
Definition refs (p : pc) (a : addr) : nat :=
  match p with
  | PHoldW b | PHoldR b | PUpgStart b
  | PAcquire _ (AcqMapUnlock b | AcqStore b | AcqLock b | AcqCountRd b | AcqCountWr b _)
  | PRAcquire _ (RAcqMapUnlock b | RAcqStore b | RAcqRLock b)
  | PRelease b (RelCheck | RelStore | RelAdd)
  | PRRelease b (RRelCheck | RRelAdd) => if decide (b = a) then 1 else 0
  | PUpgrade b c h _ _ =>
      if decide (b = a)
      then (match c with
            | UpgRecv | UpgClose | UpgRRelease (RRelCheck | RRelAdd) => 1
            | _ => 0
            end +
            match h with HAdd => 0 | _ => 1 end)%nat
      else 0
  | _ => 0
  end.

(** [queueSize] of every entry is at least the number of goroutines counted
    on it, and at most [k]. *)
Definition queued (k : Z) (s : state) : Prop :=
  (∀ a e, heap (st_mem s) !! a = Some e → (queueSize e ≤ k)%Z) ∧
  counted_by refs queueSize s.

(** Not in the removal of the entry by the [RRelease] of an [Upgrade]. *)
Definition off_map (p : pc) : Prop :=
  match p with
  | PUpgrade _ (UpgRRelease (RRelMapLock | RRelDelete | RRelMapUnlock)) _ _ _ => False
  | _ => True
  end.

(** ** More schedules *)

(** [Acquire("k")] by goroutine 0 up to the lookup in the map. *)
Definition k_lookup : list action := Call 0%nat (CAcquire "k") :: solo 0%nat 2.

(** [RAcquire("k")] by goroutine 0 and then by goroutine 1. *)
Definition k_two_readers : list action :=
  (Call 0%nat (CRAcquire "k") :: solo 0%nat 8 ++
   Call 1%nat (CRAcquire "k") :: solo 1%nat 7)%list.

(** Goroutine 0 holds ["k"], goroutine 1 waits for it in [Lock()], and
    goroutine 0 is in [Release()] before the decrement. *)
Definition k_release_queued : list action :=
  (Call 0%nat (CAcquire "k") :: solo 0%nat 10 ++
   Call 1%nat (CAcquire "k") :: solo 1%nat 6 ++
   Call 0%nat CRelease :: solo 0%nat 2)%list.

(** Goroutine 0 holds the read lock of ["k"] and is in [Upgrade()], in its
    [RRelease()] before the decrement. *)
Definition k_upgrade_decrement : list action :=
  (k_racquired ++
   Call 0%nat CUpgrade :: duo 0%nat [false; true; true; false; false; false])%list.

(** The statements of an [Upgrade] up to [nl.Lock()] in the started
    goroutine and [wg.Wait()] in the caller, and from there to the return. *)
Definition upgrade_to_lock : list bool :=
  [false; true; true; false; false; false; false; false; true].

Definition upgrade_locked : list bool := [true; true; true; true; false].

(** ** Package [params]: [UpdateParams]

    [url.Values] is a [map[string][]string]; [Del], [Add] and [Set] are
    those of [net/url].  The function works on the map it is given, so the
    model returns it.  [None] is the [nil] map. *)

Definition Values_Del (k : string) (p : gmap string (list string))
  : gmap string (list string) := delete k p.
Definition Values_Add (k v : string) (p : gmap string (list string))
  : gmap string (list string) :=
  <[k := (default [] (p !! k) ++ [v])%list]> p.
Definition Values_Set (k v : string) (p : gmap string (list string))
  : gmap string (list string) := <[k := [v]]> p.

(** The body of the loop, for one entry of [updates]: [k[0:1]] is
    [String c ""] and [k[1:]] is [k'] when [k] is [String c k']. *)
Definition update1 (p : gmap string (list string)) (kv : string * string)
  : gmap string (list string) :=
  match kv.1 with
  | EmptyString => p
  | String c k' =>
      if decide (String c "" = "-") then Values_Del k' p
      else if decide (String c "" = "+") then Values_Add k' kv.2 p
      else Values_Set kv.1 kv.2 p
  end.

(** [for k, v := range updates]: Go ranges over a map in an order it does
    not specify; [order] is the order of one execution. *)
Definition UpdateParams (params : option (gmap string (list string))) (updates : gmap string string)
    (order : list (string * string)) : option (gmap string (list string)) :=
  p ← params;
  if decide (size updates = 0%nat) then Some p else Some (foldl update1 p order).

(** The parameter an entry of [updates] works on. *)
Definition target (kv : string * string) : option string :=
  match kv.1 with
  | EmptyString => None
  | String c k' =>
      if decide (String c "" = "-" ∨ String c "" = "+") then Some k' else Some kv.1
  end.

(** What an entry of [updates] does to the values of its parameter. *)
Definition update_at (kv : string * string) (old : option (list string))
  : option (list string) :=
  match kv.1 with
  | EmptyString => old
  | String c _ =>
      if decide (String c "" = "-") then None
      else if decide (String c "" = "+") then Some (default [] old ++ [kv.2])%list
      else Some [kv.2]
  end.

(** * Proofs *)

(** ** Schedules *)

Lemma run_app l1 l2 s : run (l1 ++ l2) s = run l1 s ≫= run l2.
Proof.
  revert s. induction l1 as [|x l1 IH]; intros s; simpl; [done|].
  destruct (exec1 x s); simpl; [apply IH | done].
Qed.

Lemma run_snoc l x s s' :
  run l s = Some s' → run (l ++ [x]) s = exec1 x s'.
Proof.
  intros H. rewrite run_app, H. simpl. by destruct (exec1 x s').
Qed.

Lemma exec1_cases x s s' :
  exec1 x s = Some s' →
  (∃ c p', x = Call (actor x) c ∧ begin (pc_of s (actor x)) c = Some p' ∧
           s' = set_thread (actor x) (mkThread p' [ECall c]) s) ∨
  (∃ evs p' m', calls (actor x) x = false ∧
     tstep (actor x) (pc_of s (actor x)) (st_mem s) (evs, p', m') ∧
     s' = mkState m' (<[actor x := mkThread p' (log_of s (actor x) ++ evs)]> (st_threads s))).
Proof.
  unfold pc_of, log_of, tstep. destruct x as [t c|t|t]; simpl; intros H.
  - left. destruct (begin _ c) as [p'|] eqn:E; simplify_eq/=. eauto.
  - right. destruct (step t _ _) as [[[evs p'] m']|] eqn:E; simplify_eq/=.
    eexists _, _, _. eauto.
  - right. destruct (step_go t _ _) as [[[evs p'] m']|] eqn:E; simplify_eq/=.
    eexists _, _, _. eauto.
Qed.

Lemma exec1_other x s s' t :
  exec1 x s = Some s' → actor x ≠ t → st_threads s' t = st_threads s t.
Proof.
  intros H Hne. apply exec1_cases in H as [(c & p' & _ & _ & ->)|(evs & p' & m' & _ & _ & ->)];
    simpl; by rewrite fn_lookup_insert_ne.
Qed.

(** A property of one goroutine's program point and log that each of its
    statements keeps is kept by every schedule in which it starts no call. *)
Lemma run_thread_local (P : thread → Prop) t :
  (∀ th m evs p m', tstep t (th_pc th) m (evs, p, m') → P th →
                    P (mkThread p (th_log th ++ evs))) →
  ∀ sched s s', run sched s = Some s' → no_call t sched = true →
                P (st_threads s t) → P (st_threads s' t).
Proof.
  intros Hstep. induction sched as [|x sched IH]; intros s s' Hrun Hnc HP; simplify_eq/=; [done|].
  destruct (exec1 x s) as [s1|] eqn:E; simplify_eq/=.
  apply andb_prop in Hnc as [Hx Hnc]. apply (IH s1 s' Hrun Hnc).
  destruct (decide (actor x = t)) as [<-|Hne].
  - apply exec1_cases in E as [(c & p' & Hc & _ & ->)|(evs & p' & m' & _ & Hs & ->)].
    + rewrite Hc in Hx. simpl in Hx. by rewrite bool_decide_eq_true_2 in Hx.
    + simpl. rewrite fn_lookup_insert. by eapply Hstep.
  - by rewrite (exec1_other _ _ _ _ E Hne).
Qed.

(** ** The invariants hold *)

Lemma wrap64_range z : int64 (wrap64 z).
Proof.
  unfold int64, wrap64.
  pose proof (Z.mod_pos_bound (z + 9223372036854775808) 18446744073709551616).
  lia.
Qed.

Lemma wrap64_id z : int64 z → wrap64 z = z.
Proof. unfold int64, wrap64. intros H. rewrite Z.mod_small; lia. Qed.

(** Case analysis on one statement: what is known about the invariants is
    still in the goal when this runs. *)
Ltac destruct_pcs :=
  repeat match goal with
  | q : acq_pc |- _ => destruct q
  | q : racq_pc |- _ => destruct q
  | q : rel_pc |- _ => destruct q
  | q : rrel_pc |- _ => destruct q
  end.

Ltac unfold_ops H :=
  unfold Upgrade, Upgrade_go in H;
  unfold Acquire, RAcquire, Release, RRelease in H;
  unfold mutex_Lock, mutex_Unlock, rw_Lock, rw_Unlock, rw_RLock, rw_RUnlock,
    atomic_AddInt32, atomic_StoreInt32, new_entry, delete_entry in H;
  simpl in H.

Ltac split_hyps :=
  repeat (simplify_eq; match goal with
  | H : _ ≫= _ = Some _ |- _ => apply bind_Some in H as (? & ? & H)
  | H : context [match ?x with _ => _ end] |- _ => destruct x eqn:?; simpl in H
  | H : context [decide ?P] |- _ => destruct (decide P); simpl in H
  end); simplify_eq.

Ltac inv_step H :=
  unfold tstep in H; destruct H as [H|H];
  [ unfold step in H;
    match type of H with context [match ?p with _ => _ end] => destruct p end;
    try discriminate H;
    try match goal with c : upg_pc |- _ => destruct c end;
    destruct_pcs; unfold_ops H
  | unfold step_go in H;
    match type of H with context [match ?p with _ => _ end] => destruct p end;
    try discriminate H;
    try match goal with h : helper_pc |- _ => destruct h end;
    unfold_ops H ];
  split_hyps.

Ltac mem_simpl :=
  cbn [upd set_heap set_locks set_mapLock heap locks mapLock
       set_queueSize set_writeLockMode set_writeLockCount set_rwmutex
       name queueSize writeLockMode writeLockCount rwmutex rw_writer rw_readers
       in_crit rrel_crit holdsW count_read pc_ok] in *.

Ltac heap_goal :=
  intros; simplify_eq;
  repeat match goal with
  | H : ∀ a, Some ?b = Some a → _ |- _ => specialize (H b eq_refl) as (? & ? & ?)
  | H : ∀ a v, Some (?b, ?w) = Some (a, v) → _ |- _ => specialize (H b w eq_refl) as (? & ? & ?)
  | H : ∀ a, None = Some a → _ |- _ => clear H
  | H : ∀ a v, None = Some _ → _ |- _ => clear H
  end;
  simplify_eq;
  rewrite ?list_lookup_alter_eq;
  repeat match goal with H : heap _ !! _ = Some _ |- _ => rewrite H end;
  simpl; try (eexists; split; [reflexivity|]; mem_simpl; try done).

Lemma tstep_self t p m evs p' m' :
  tstep t p m (evs, p', m') → thread_inv m t p → thread_inv m' t p'.
Proof.
  intros H. inv_step H; intros [Hc Hw Hr Hok]; mem_simpl.
  all: split; mem_simpl; repeat case_decide; mem_simpl.
  all: try (intros; discriminate).
  all: try done.
  all: try (split; intros; discriminate).
  all: try (intros _; apply Hok; discriminate).
  all: try (intros ?; subst; by specialize (Hok eq_refl)).
  all: try by heap_goal.
  all: try (specialize (Hok eq_refl); subst h; by heap_goal).
  all: destruct h; by heap_goal.
Qed.

Lemma count_read_holdsW p a v : count_read p = Some (a, v) → holdsW p = Some a.
Proof. destruct p as [| | |? []|? []|? []|? []| |? ? [] ? ?]; simpl; congruence. Qed.

Ltac other_heap Hwu :=
  let b := fresh "b" in let Hb := fresh "Hb" in
  let e := fresh "e" in let He := fresh "He" in let Hwe := fresh "Hwe" in
  intros b Hb; destruct (Hwu b Hb) as (e & He & Hwe);
  repeat match goal with
  | H : ∀ a, Some ?c = Some a → _ |- _ => specialize (H c eq_refl) as (? & ? & ?)
  | H : ∀ a v, Some (?c, ?w) = Some (a, v) → _ |- _ => specialize (H c w eq_refl) as (? & ? & ?)
  end;
  try rewrite (lookup_app_l_Some _ _ _ _ He);
  try match goal with
  | |- context [alter _ ?a _ !! b] =>
      destruct (decide (a = b));
      [ subst; rewrite list_lookup_alter_eq, He | rewrite list_lookup_alter_ne, He by done ]
  end;
  try rewrite He;
  simpl; eexists; (split; [reflexivity|]); mem_simpl; simplify_eq; try done; try congruence.

Ltac other_count Hwu Hru :=
  let b := fresh "b" in let v := fresh "v" in let Hb := fresh "Hb" in
  let e := fresh "e" in let He := fresh "He" in let Hce := fresh "Hce" in
  intros b v Hb; destruct (Hru b v Hb) as (e & He & Hce);
  destruct (Hwu b (count_read_holdsW _ _ _ Hb)) as (? & ? & ?);
  repeat match goal with
  | H : ∀ a, Some ?c = Some a → _ |- _ => specialize (H c eq_refl) as (? & ? & ?)
  | H : ∀ a v, Some (?c, ?w) = Some (a, v) → _ |- _ => specialize (H c w eq_refl) as (? & ? & ?)
  end;
  try rewrite (lookup_app_l_Some _ _ _ _ He);
  try match goal with
  | |- context [alter _ ?a _ !! b] =>
      destruct (decide (a = b));
      [ subst; rewrite list_lookup_alter_eq, He | rewrite list_lookup_alter_ne, He by done ]
  end;
  try rewrite He;
  simpl; eexists; (split; [reflexivity|]); mem_simpl; simplify_eq; try done; try congruence.

Lemma tstep_other t p m evs p' m' u q :
  u ≠ t → tstep t p m (evs, p', m') →
  thread_inv m t p → thread_inv m u q → thread_inv m' u q.
Proof.
  intros Hne H. inv_step H; intros [Hc Hw Hr Hok] [Hcu Hwu Hru Hoku]; mem_simpl.
  all: split; mem_simpl; try done.
  all: try (rewrite Hcu; destruct Hc as [Hc1 Hc2]; split; intros; simplify_eq; try done;
            try (specialize (Hc1 eq_refl); congruence); fail).
  all: try by other_heap Hwu.
  all: try by other_count Hwu Hru.
Qed.

Lemma int64_0 : int64 0.
Proof. unfold int64. lia. Qed.

Lemma tstep_mem t p m evs p' m' :
  tstep t p m (evs, p', m') → thread_inv m t p → mem_inv m → mem_inv m'.
Proof.
  intros H. inv_step H; intros [Hc Hw Hr Hok] Hm; try done.
  all: intros b e; mem_simpl.
  all: try (rewrite lookup_app_Some; intros [?|[_ Hb]]; [by eauto|];
            apply list_lookup_singleton_Some in Hb as [_ <-]; simpl;
            split; [apply Hok; discriminate | apply int64_0]).
  all: try (destruct (decide (a = b)) as [->|];
    [ rewrite list_lookup_alter_eq; destruct (heap m !! b) as [e0|] eqn:E; intros; simplify_eq/=;
      destruct (Hm _ _ E); split; auto using wrap64_range
    | rewrite list_lookup_alter_ne by done; by eauto ]).
Qed.

Lemma begin_inv m t p c p' :
  begin p c = Some p' → thread_inv m t p → thread_inv m t p'.
Proof.
  intros H [Hc Hw Hr Hok].
  destruct p, c; simplify_eq/=; split; simpl; try done; intros; simplify_eq; eauto.
Qed.

Lemma inv_exec1 x s s' : inv s → exec1 x s = Some s' → inv s'.
Proof.
  intros [Hm Ht] H.
  apply exec1_cases in H as [(c & p' & _ & Hb & ->)|(evs & p' & m' & _ & Hs & ->)].
  - split; [done|]. intros u. unfold pc_of, set_thread. simpl.
    destruct (decide (actor x = u)) as [<-|Hne].
    + rewrite fn_lookup_insert. simpl. eapply begin_inv; [done|apply Ht].
    + rewrite fn_lookup_insert_ne by done. apply Ht.
  - split; simpl.
    + eapply tstep_mem; [done|apply Ht|done].
    + intros u. unfold pc_of. simpl. destruct (decide (actor x = u)) as [<-|Hne].
      * rewrite fn_lookup_insert. simpl. eapply tstep_self; [done|apply Ht].
      * rewrite fn_lookup_insert_ne by done.
        eapply tstep_other; [|done|apply Ht|apply Ht]. done.
Qed.

Lemma inv_run sched s s' : inv s → run sched s = Some s' → inv s'.
Proof.
  revert s. induction sched as [|x sched IH]; intros s Hi H; simplify_eq/=; [done|].
  destruct (exec1 x s) as [s1|] eqn:E; simplify_eq/=. eauto using inv_exec1.
Qed.

Lemma inv_init : inv init.
Proof.
  split; [intros a e; simpl; by rewrite lookup_nil|].
  intros t. split; simpl; try done.
Qed.

Lemma inv_reachable s : reachable s → inv s.
Proof. intros [sched H]. eapply inv_run; [apply inv_init|done]. Qed.

(** The same, along a fact [Q] about the memory that no statement of any
    goroutine breaks. *)
Lemma run_thread_local_mem (Q : mem → Prop) (P : thread → Prop) t :
  (∀ u p m evs p' m', tstep u p m (evs, p', m') → Q m → Q m') →
  (∀ th m evs p m', tstep t (th_pc th) m (evs, p, m') → Q m → P th →
                    P (mkThread p (th_log th ++ evs))) →
  ∀ sched s s', run sched s = Some s' → no_call t sched = true →
                Q (st_mem s) → P (st_threads s t) →
                Q (st_mem s') ∧ P (st_threads s' t).
Proof.
  intros HQ Hstep. induction sched as [|x sched IH]; intros s s' Hrun Hnc Hq HP;
    simplify_eq/=; [done|].
  destruct (exec1 x s) as [s1|] eqn:E; simplify_eq/=.
  apply andb_prop in Hnc as [Hx Hnc]. apply (IH s1 s' Hrun Hnc).
  - apply exec1_cases in E as [(c & p' & Hc & _ & ->)|(evs & p' & m' & _ & Hs & ->)];
      [done|]. simpl. by eapply HQ.
  - destruct (decide (actor x = t)) as [<-|Hne].
    + apply exec1_cases in E as [(c & p' & Hc & _ & ->)|(evs & p' & m' & _ & Hs & ->)].
      * rewrite Hc in Hx. simpl in Hx. by rewrite bool_decide_eq_true_2 in Hx.
      * simpl. rewrite fn_lookup_insert. by eapply Hstep.
    + by rewrite (exec1_other _ _ _ _ E Hne).
Qed.

(** Entries stay where they are and keep their names. *)
Lemma tstep_named a n u p m evs p' m' :
  tstep u p m (evs, p', m') → named a n m → named a n m'.
Proof.
  intros H. inv_step H; intros (en & Hen & Hn); try (by exists en).
  all: unfold named; mem_simpl.
  all: try (exists en; split; [by apply lookup_app_l_Some|done]).
  all: match goal with |- context [alter _ ?b _] =>
         destruct (decide (b = a)) as [->|];
         [ rewrite list_lookup_alter_eq, Hen; simpl; eexists; split; [done|]; done
         | rewrite list_lookup_alter_ne by done; by exists en ]
       end.
Qed.

(** ** The logs of calls *)

Ltac log_intro :=
  unfold th_pc, th_log;
  repeat match goal with
  | H : ∃ _, _ |- _ => destruct H
  | H : _ ∧ _ |- _ => destruct H
  | H : False |- _ => destruct H
  end; simplify_eq.

Ltac log_close :=
  repeat split; try done; simpl; rewrite <- ?app_assoc; simpl; try done.

Ltac log_solve :=
  first
  [ done
  | log_close; fail
  | exists true; log_solve
  | exists false; log_solve
  | eexists; log_solve ].

Lemma Acquire_log_step n t th m evs p m' :
  tstep t (th_pc th) m (evs, p, m') → Acquire_log n th →
  Acquire_log n (mkThread p (th_log th ++ evs)).
Proof.
  destruct th as [p0 l]. unfold Acquire_log. simpl. intros H.
  inv_step H; intros Hl; log_intro.
  all: log_solve.
Qed.

Lemma RAcquire_log_step n t th m evs p m' :
  tstep t (th_pc th) m (evs, p, m') → RAcquire_log n th →
  RAcquire_log n (mkThread p (th_log th ++ evs)).
Proof.
  destruct th as [p0 l]. unfold RAcquire_log. simpl. intros H.
  inv_step H; intros Hl; log_intro.
  all: log_solve.
Qed.

Ltac named_intro :=
  match goal with
  | Hq : named ?a _ ?m, H : heap ?m !! ?a = Some _ |- _ =>
      destruct Hq as (? & ? & ?); simplify_eq
  | _ => idtac
  end.

Ltac removal_solve :=
  repeat split; try done; simplify_eq;
  try (match goal with |- context [EAdd _ (-1) ?v] => exists v end;
       unfold Release_events, RRelease_events, removal_events);
  simpl; rewrite <- ?app_assoc; simpl;
  first [ rewrite decide_True by done | rewrite decide_False by done | idtac ];
  simpl; congruence.

Lemma Release_log_step a n t th m evs p m' :
  tstep t (th_pc th) m (evs, p, m') → named a n m → Release_log a n th →
  Release_log a n (mkThread p (th_log th ++ evs)).
Proof.
  destruct th as [p0 l]. unfold Release_log, removal_events. simpl. intros H.
  inv_step H; intros Hq Hl; log_intro; named_intro; repeat case_decide.
  all: try log_solve.
  all: removal_solve.
Qed.

Lemma RRelease_log_step a n t th m evs p m' :
  tstep t (th_pc th) m (evs, p, m') → named a n m → RRelease_log a n th →
  RRelease_log a n (mkThread p (th_log th ++ evs)).
Proof.
  destruct th as [p0 l]. unfold RRelease_log, removal_events. simpl. intros H.
  inv_step H; intros Hq Hl; log_intro; named_intro; repeat case_decide.
  all: try log_solve.
  all: removal_solve.
Qed.

Lemma tstep_effects t p m evs p' m' :
  tstep t p m (evs, p', m') → effects t evs m = Some m'.
Proof.
  intros H. inv_step H; simpl; try done.
  all: unfold mutex_Lock, mutex_Unlock, rw_Lock, rw_Unlock, rw_RLock, rw_RUnlock,
         atomic_AddInt32, atomic_StoreInt32; simpl.
  all: repeat match goal with H : _ = _ |- _ => rewrite H; simpl end.
  all: rewrite ?decide_True by done; try done.
Qed.

(** ** Calls *)

(** A goroutine that starts a call has the call's first program point and a
    fresh log. *)
Lemma run_call t c sched s s' :
  run (Call t c :: sched) s = Some s' →
  ∃ p, begin (pc_of s t) c = Some p ∧
       run sched (set_thread t (mkThread p [ECall c]) s) = Some s'.
Proof.
  simpl. unfold pc_of. destruct (begin _ c) as [p|]; simpl; [eauto|done].
Qed.

Lemma Acquire_log_no_error n th : n ≠ "" → Acquire_log n th → no_error (th_log th) = true.
Proof.
  destruct th as [p l]. unfold Acquire_log. simpl. intros Hn H.
  destruct p as [|a|a|n' q| | | | |]; try done; log_intro; try done.
  - unfold Acquire_events. by destruct x.
  - destruct q; log_intro; try done;
      match goal with f : bool |- _ => by destruct f end.
Qed.

Lemma RAcquire_log_no_error n th : n ≠ "" → RAcquire_log n th → no_error (th_log th) = true.
Proof.
  destruct th as [p l]. unfold RAcquire_log. simpl. intros Hn H.
  destruct p as [|a|a| |n' q| | | |]; try done; log_intro; try done.
  - unfold RAcquire_events. by destruct x.
  - destruct q; log_intro; try done;
      match goal with f : bool |- _ => by destruct f end.
Qed.

(** C6: [Acquire("")] and [RAcquire("")] return the invalid-lock-name error
    with their first statement, which is enabled in every state and leaves
    the shared memory (the map, its mutex, every entry) as it was; with a
    name that is not empty neither of them ever returns an error. *)
Theorem C6_invalid_lock_name :
  (∀ s t c, c = CAcquire "" ∨ c = CRAcquire "" → pc_of s t = PIdle →
     ∃ s', run [Call t c; Step t] s = Some s' ∧
           st_mem s' = st_mem s ∧ pc_of s' t = PIdle ∧
           log_of s' t = [ECall c; ERet (RErr (InvalidLockName ""))]) ∧
  (∀ s t n c sched s', c = CAcquire n ∨ c = CRAcquire n → n ≠ "" →
     run (Call t c :: sched) s = Some s' → no_call t sched = true →
     no_error (log_of s' t) = true).
Proof.
  split.
  - intros s t c Hc Hp. unfold pc_of, log_of in *.
    destruct Hc as [-> | ->]; simpl; rewrite Hp; simpl;
      rewrite fn_lookup_insert; simpl; eexists; (split; [reflexivity|]); simpl;
      rewrite fn_lookup_insert; done.
  - intros s t n c sched s' Hc Hn Hrun Hnc.
    apply run_call in Hrun as (p & Hb & Hrun). unfold log_of.
    destruct Hc as [-> | ->]; destruct (pc_of s t); simplify_eq/=.
    + apply (Acquire_log_no_error n _ Hn).
      eapply (run_thread_local (Acquire_log n)); [|done|done|].
      * intros. by eapply Acquire_log_step.
      * simpl. rewrite fn_lookup_insert. done.
    + apply (RAcquire_log_no_error n _ Hn).
      eapply (run_thread_local (RAcquire_log n)); [|done|done|].
      * intros. by eapply RAcquire_log_step.
      * simpl. rewrite fn_lookup_insert. done.
Qed.

Lemma C6_invalid_lock_name_witness :
  (∃ s', run [Call 0%nat (CAcquire ""); Step 0%nat] init = Some s' ∧
         st_mem s' = st_mem init ∧ pc_of s' 0%nat = PIdle ∧
         log_of s' 0%nat = [ECall (CAcquire ""); ERet (RErr (InvalidLockName ""))]) ∧
  (∃ s', run k_acquire init = Some s' ∧ no_error (log_of s' 0%nat) = true).
Proof.
  split.
  - apply (proj1 C6_invalid_lock_name init 0%nat (CAcquire "")); [by left|reflexivity].
  - destruct (run k_acquire init) as [s'|] eqn:E; [|vm_compute in E; discriminate].
    exists s'. split; [reflexivity|].
    apply (proj2 C6_invalid_lock_name init 0%nat "k" (CAcquire "k") (solo 0%nat 10) s');
      [by left|discriminate|exact E|reflexivity].
Defined.

Lemma Release_log_no_error a n th : n ≠ "" → Release_log a n th → no_error (th_log th) = true.
Proof.
  destruct th as [p l]. unfold Release_log. simpl. intros Hn H.
  destruct p as [|a'|a'| | |a' q| | |]; try done; log_intro; try done.
  - unfold Release_events, removal_events. by case_decide.
  - destruct q; log_intro; try done. unfold removal_events. by case_decide.
Qed.

Lemma RRelease_log_no_error a n th : n ≠ "" → RRelease_log a n th → no_error (th_log th) = true.
Proof.
  destruct th as [p l]. unfold RRelease_log. simpl. intros Hn H.
  destruct p as [|a'|a'| | | |a' q| |]; try done; log_intro; try done.
  - unfold RRelease_events, removal_events. by case_decide.
  - destruct q; log_intro; try done. unfold removal_events. by case_decide.
Qed.

(** A completed or running [Release] of goroutine [t] on [a], in any
    schedule. *)
Lemma run_Release s t a e sched s' :
  pc_of s t = PHoldW a → heap (st_mem s) !! a = Some e →
  run (Call t CRelease :: sched) s = Some s' → no_call t sched = true →
  named a (name e) (st_mem s') ∧ Release_log a (name e) (st_threads s' t).
Proof.
  intros Hp He Hrun Hnc. apply run_call in Hrun as (p & Hb & Hrun).
  rewrite Hp in Hb. simplify_eq/=.
  eapply (run_thread_local_mem (named a (name e)) (Release_log a (name e)));
    [| |done|done| |].
  - intros. by eapply tstep_named.
  - intros. by eapply Release_log_step.
  - by exists e.
  - simpl. rewrite fn_lookup_insert. done.
Qed.

Lemma run_RRelease s t a e sched s' :
  pc_of s t = PHoldR a → heap (st_mem s) !! a = Some e →
  run (Call t CRRelease :: sched) s = Some s' → no_call t sched = true →
  named a (name e) (st_mem s') ∧ RRelease_log a (name e) (st_threads s' t).
Proof.
  intros Hp He Hrun Hnc. apply run_call in Hrun as (p & Hb & Hrun).
  rewrite Hp in Hb. simplify_eq/=.
  eapply (run_thread_local_mem (named a (name e)) (RRelease_log a (name e)));
    [| |done|done| |].
  - intros. by eapply tstep_named.
  - intros. by eapply RRelease_log_step.
  - by exists e.
  - simpl. rewrite fn_lookup_insert. done.
Qed.

(** C7: [Release()] and [RRelease()] on an entry whose name is empty return
    the invalid-lock-name error with their first statement and change
    nothing: the shared memory (every entry with its counters, flag and
    mutex, the map, its mutex) is as before and the handle is still held.
    On an entry whose name is not empty they never return an error. *)
Theorem C7_release_invalid_lock_name :
  (∀ s t a e c, c = CRelease ∨ c = CRRelease →
     pc_of s t = held c a → heap (st_mem s) !! a = Some e → name e = "" →
     ∃ s', run [Call t c; Step t] s = Some s' ∧
           st_mem s' = st_mem s ∧ pc_of s' t = held c a ∧
           log_of s' t = [ECall c; ERet (RErr (InvalidLockName ""))]) ∧
  (∀ s t a e c sched s', c = CRelease ∨ c = CRRelease →
     pc_of s t = held c a → heap (st_mem s) !! a = Some e → name e ≠ "" →
     run (Call t c :: sched) s = Some s' → no_call t sched = true →
     no_error (log_of s' t) = true).
Proof.
  split.
  - intros s t a e c Hc Hp He Hn. unfold pc_of, log_of in *.
    destruct Hc as [-> | ->]; simpl in *; rewrite Hp; simpl;
      rewrite fn_lookup_insert; simpl; rewrite He; simpl; rewrite Hn; simpl;
      eexists; (split; [reflexivity|]); simpl; rewrite fn_lookup_insert; done.
  - intros s t a e c sched s' Hc Hp He Hn Hrun Hnc. unfold log_of.
    destruct Hc as [-> | ->]; simpl in Hp.
    + eapply Release_log_no_error; [done|]. by eapply run_Release.
    + eapply RRelease_log_no_error; [done|]. by eapply run_RRelease.
Qed.

Lemma C7_release_invalid_lock_name_witness :
  (∃ s', run [Call 0%nat CRelease; Step 0%nat] unnamed_held = Some s' ∧
         st_mem s' = st_mem unnamed_held ∧ pc_of s' 0%nat = PHoldW 0 ∧
         log_of s' 0%nat = [ECall CRelease; ERet (RErr (InvalidLockName ""))]) ∧
  (∃ s', run (Call 0%nat CRelease :: solo 0%nat 7) k_held = Some s' ∧
         no_error (log_of s' 0%nat) = true).
Proof.
  split.
  - apply (proj1 C7_release_invalid_lock_name unnamed_held 0%nat 0%nat
             (mkNL "" 1 1 1 (mkRW (Some 0%nat) 0)) CRelease);
      [by left|reflexivity|reflexivity|reflexivity].
  - destruct (run (Call 0%nat CRelease :: solo 0%nat 7) k_held) as [s'|] eqn:E;
      [|vm_compute in E; discriminate].
    exists s'. split; [reflexivity|].
    apply (proj2 C7_release_invalid_lock_name k_held 0%nat 0%nat
             (mkNL "k" 1 1 1 (mkRW (Some 0%nat) 0)) CRelease (solo 0%nat 7) s');
      [by left|reflexivity|reflexivity|discriminate|exact E|reflexivity].
Defined.

(** ** A goroutine running alone *)

Lemma run_solo t k s evs p m :
  steps t k (pc_of s t) (st_mem s) = Some (evs, p, m) →
  ∃ s', run (solo t k) s = Some s' ∧ st_mem s' = m ∧ pc_of s' t = p ∧
        log_of s' t = (log_of s t ++ evs)%list.
Proof.
  revert s evs. induction k as [|k IH]; intros s evs H; simplify_eq/=.
  { exists s. by rewrite app_nil_r. }
  unfold pc_of, log_of in *.
  destruct (step t _ _) as [[[evs1 p1] m1]|] eqn:E1; simplify_eq/=.
  destruct (steps t k p1 m1) as [[[evs2 p2] m2]|] eqn:E2; simplify_eq/=.
  edestruct (IH (mkState m1 (<[t := mkThread p1 (th_log (st_threads s t) ++ evs1)]> (st_threads s))))
    as (s' & Hrun & Hm & Hp & Hl).
  { simpl. rewrite fn_lookup_insert. simpl. exact E2. }
  exists s'. split; [exact Hrun|]. split; [done|]. split; [done|].
  rewrite Hl. simpl. rewrite fn_lookup_insert. simpl. by rewrite app_assoc.
Qed.

(** [Release] by the holder of the write lock returns: alone, with the map's
    mutex free, after four statements, or seven when it removes the entry. *)
Lemma Release_steps t a m e :
  heap m !! a = Some e → name e ≠ "" → rw_writer (rwmutex e) = Some t →
  mapLock m = None →
  ∃ k evs m', (k = 4 ∨ k = 7)%nat ∧
    steps t k (PRelease a RelCheck) m = Some (evs, PIdle, m').
Proof.
  intros He Hn Hw Hml. destruct m as [h l ml]. simpl in *. subst ml.
  destruct (decide (wrap32 (queueSize e + -1) = 0)) as [Hq|Hq].
  - exists 7%nat. simpl.
    repeat first [ progress unfold atomic_StoreInt32, atomic_AddInt32, delete_entry,
                     rw_Unlock, mutex_Lock, mutex_Unlock
                 | rewrite He | rewrite list_lookup_alter_eq | rewrite Hw
                 | rewrite (decide_False (P := name e = "")) by done
                 | rewrite (decide_True (P := wrap32 (queueSize e + -1) = 0)) by done
                 | progress simpl ].
    eexists _, _. split; [by right|reflexivity].
  - exists 4%nat. simpl.
    repeat first [ progress unfold atomic_StoreInt32, atomic_AddInt32, delete_entry,
                     rw_Unlock, mutex_Lock, mutex_Unlock
                 | rewrite He | rewrite list_lookup_alter_eq | rewrite Hw
                 | rewrite (decide_False (P := name e = "")) by done
                 | rewrite (decide_False (P := wrap32 (queueSize e + -1) = 0)) by done
                 | progress simpl ].
    eexists _, _. split; [by left|reflexivity].
Qed.

Lemma Release_returns s t a :
  inv s → pc_of s t = PHoldW a → mapLock (st_mem s) = None →
  ∃ k s', (k = 4 ∨ k = 7)%nat ∧ run (Call t CRelease :: solo t k) s = Some s' ∧
          pc_of s' t = PIdle.
Proof.
  intros [Hm Ht] Hp Hml. destruct (Ht t) as [_ Hw _ _]. rewrite Hp in Hw.
  destruct (Hw a eq_refl) as (e & He & Hwe). destruct (Hm a e He) as [Hn _].
  destruct (Release_steps t a (st_mem s) e He Hn Hwe Hml) as (k & evs & m' & Hk & Hs).
  edestruct (run_solo t k (set_thread t (mkThread (PRelease a RelCheck) [ECall CRelease]) s))
    as (s' & Hrun & _ & Hp' & _).
  { unfold pc_of. simpl. rewrite fn_lookup_insert. simpl. exact Hs. }
  exists k, s'. split; [done|]. split; [|done].
  simpl. unfold pc_of in Hp. rewrite Hp. simpl. exact Hrun.
Qed.

(** Who is between [mapLock.Lock()] and [mapLock.Unlock()] holds the mutex,
    and nobody else is there. *)
Lemma crit_exclusive s t :
  inv s → in_crit (pc_of s t) = true →
  mapLock (st_mem s) = Some t ∧ ∀ u, u ≠ t → in_crit (pc_of s u) = false.
Proof.
  intros [_ Ht] Hc. assert (mapLock (st_mem s) = Some t) as Hml by by apply (Ht t).
  split; [done|]. intros u Hne. destruct (in_crit (pc_of s u)) eqn:E; [|done].
  apply (Ht u) in E. congruence.
Qed.

Lemma Release_events_last a n qs : last (Release_events a n qs) = Some (ERet RNil).
Proof. unfold Release_events, removal_events. by case_decide. Qed.

(** C3: a [Release()] on an entry whose name is not empty executes, in this
    order: the store of 0 to [writeLockMode], the decrement of [queueSize],
    then, exactly when the decremented value is 0, [mapLock.Lock()], the
    [delete] from the map and [mapLock.Unlock()], then [Unlock()] of the
    entry, and returns [nil] (first part: the log of every completed call;
    each event is the operation on the memory it names, second part).  The
    [delete] runs with the map's mutex held by the caller and nobody else
    between [Lock] and [Unlock] of it (third part).  The call returns: run
    alone with the map's mutex free it is through after 4 or 7 statements
    (fourth part). *)
Theorem C3_release_order :
  (∀ s t a e sched s',
     pc_of s t = PHoldW a → heap (st_mem s) !! a = Some e → name e ≠ "" →
     run (Call t CRelease :: sched) s = Some s' → no_call t sched = true →
     pc_of s' t = PIdle →
     ∃ qs, log_of s' t = Release_events a (name e) qs) ∧
  (∀ t a q m evs p' m',
     step t (PRelease a q) m = Some (evs, p', m') → effects t evs m = Some m') ∧
  (∀ s t a, reachable s →
     pc_of s t = PRelease a RelDelete ∨ pc_of s t = PRelease a RelMapUnlock →
     mapLock (st_mem s) = Some t ∧ ∀ u, u ≠ t → in_crit (pc_of s u) = false) ∧
  (∀ s t a, reachable s → pc_of s t = PHoldW a → mapLock (st_mem s) = None →
     ∃ k s', (k = 4 ∨ k = 7)%nat ∧
       run (Call t CRelease :: solo t k) s = Some s' ∧
       pc_of s' t = PIdle ∧ last (log_of s' t) = Some (ERet RNil)).
Proof.
  split; [|split; [|split]].
  - intros s t a e sched s' Hp He Hn Hrun Hnc Hp'.
    destruct (run_Release s t a e sched s' Hp He Hrun Hnc) as [_ Hl].
    unfold Release_log in Hl. unfold pc_of in Hp'. rewrite Hp' in Hl. exact Hl.
  - intros t a q m evs p' m' H. apply (tstep_effects t (PRelease a q) m evs p' m').
    by left.
  - intros s t a Hr Hp. apply crit_exclusive; [by apply inv_reachable|].
    by destruct Hp as [-> | ->].
  - intros s t a Hr Hp Hml. pose proof (inv_reachable s Hr) as Hi.
    destruct (Release_returns s t a Hi Hp Hml) as (k & s' & Hk & Hrun & Hp').
    exists k, s'. split; [done|]. split; [done|]. split; [done|].
    destruct Hi as [Hm Ht]. destruct (Ht t) as [_ Hw _ _]. rewrite Hp in Hw.
    destruct (Hw a eq_refl) as (e & He & _).
    destruct (run_Release s t a e (solo t k) s' Hp He Hrun) as [_ Hl].
    { unfold solo, no_call. clear. induction k; simpl; auto. }
    unfold Release_log in Hl. unfold pc_of in Hp'. rewrite Hp' in Hl.
    destruct Hl as [qs Hl]. unfold log_of. rewrite Hl. apply Release_events_last.
Qed.

Lemma C3_release_order_witness :
  (∃ s' qs, run (Call 0%nat CRelease :: solo 0%nat 7) k_held = Some s' ∧
            log_of s' 0%nat = Release_events 0 "k" qs) ∧
  (∃ s, run k_release_delete init = Some s ∧ mapLock (st_mem s) = Some 0%nat) ∧
  (∃ s k s', run k_acquire init = Some s ∧
             run (Call 0%nat CRelease :: solo 0%nat k) s = Some s' ∧
             last (log_of s' 0%nat) = Some (ERet RNil)).
Proof.
  split; [|split].
  - destruct (run (Call 0%nat CRelease :: solo 0%nat 7) k_held) as [s'|] eqn:E;
      [|vm_compute in E; discriminate].
    destruct (proj1 C3_release_order k_held 0%nat 0%nat
                (mkNL "k" 1 1 1 (mkRW (Some 0%nat) 0)) (solo 0%nat 7) s')
      as [qs Hqs]; [reflexivity|reflexivity|discriminate|exact E|reflexivity| |].
    + revert E. vm_compute. by intros [= <-].
    + by exists s', qs.
  - destruct (run k_release_delete init) as [s|] eqn:E; [|vm_compute in E; discriminate].
    exists s. split; [reflexivity|].
    apply (proj1 (proj2 (proj2 C3_release_order)) s 0%nat 0%nat).
    + by exists k_release_delete.
    + left. revert E. vm_compute. by intros [= <-].
  - destruct (run k_acquire init) as [s|] eqn:E; [|vm_compute in E; discriminate].
    destruct (proj2 (proj2 (proj2 C3_release_order)) s 0%nat 0%nat)
      as (k & s' & _ & Hrun & _ & Hl).
    + by exists k_acquire.
    + revert E. vm_compute. by intros [= <-].
    + revert E. vm_compute. by intros [= <-].
    + by exists s, k, s'.
Defined.

Lemma tstep_map_free t p m evs p' m' :
  tstep t p m (evs, p', m') → map_free evs = true →
  locks m' = locks m ∧ mapLock m' = mapLock m.
Proof. intros H. inv_step H; simpl; intros Hf; try discriminate Hf; done. Qed.

Lemma alter_field {A} (g : namedLock → A) f a b (h : list namedLock) :
  (∀ e, g (f e) = g e) → g <$> alter f a h !! b = g <$> h !! b.
Proof.
  intros Hg. destruct (decide (a = b)) as [->|].
  - rewrite list_lookup_alter_eq. destruct (h !! b); simpl; [by rewrite Hg|done].
  - by rewrite list_lookup_alter_ne.
Qed.

Lemma RRelease_frame t a q m evs k m' b :
  RRelease t a q m = Some (evs, k, m') →
  writeLockMode <$> heap m' !! b = writeLockMode <$> heap m !! b ∧
  writeLockCount <$> heap m' !! b = writeLockCount <$> heap m !! b ∧
  name <$> heap m' !! b = name <$> heap m !! b.
Proof.
  intros H. destruct q; unfold_ops H; split_hyps; mem_simpl; try done.
  all: by rewrite !alter_field.
Qed.

Lemma Release_frame t a q m evs p' m' b :
  Release t a q m = Some (evs, p', m') →
  name <$> heap m' !! b = name <$> heap m !! b.
Proof.
  intros H. destruct q; unfold_ops H; split_hyps; mem_simpl; try done.
  all: by rewrite !alter_field.
Qed.

(** C10: a [Release()] or [RRelease()] on an entry whose name is not empty
    logs its decrement, and when the decremented value is not 0 no event of
    the completed call is an operation on the map or its mutex (first part);
    a statement without such an event leaves the map and its mutex as they
    are (second part).  No statement of [RRelease] changes [writeLockMode],
    [writeLockCount] or the name of any entry (third part), no statement of
    [Release] changes a name (fourth part). *)
Theorem C10_release_frame :
  (∀ s t a e c sched s', c = CRelease ∨ c = CRRelease → pc_of s t = held c a →
     heap (st_mem s) !! a = Some e → name e ≠ "" →
     run (Call t c :: sched) s = Some s' → no_call t sched = true →
     pc_of s' t = PIdle →
     ∃ qs, EAdd a (-1) qs ∈ log_of s' t ∧
           (qs ≠ 0 → map_free (log_of s' t) = true)) ∧
  (∀ t p m evs p' m', tstep t p m (evs, p', m') → map_free evs = true →
     locks m' = locks m ∧ mapLock m' = mapLock m) ∧
  (∀ t a q m evs k m' b, RRelease t a q m = Some (evs, k, m') →
     writeLockMode <$> heap m' !! b = writeLockMode <$> heap m !! b ∧
     writeLockCount <$> heap m' !! b = writeLockCount <$> heap m !! b ∧
     name <$> heap m' !! b = name <$> heap m !! b) ∧
  (∀ t a q m evs p' m' b, Release t a q m = Some (evs, p', m') →
     name <$> heap m' !! b = name <$> heap m !! b).
Proof.
  split; [|split; [|split]].
  - intros s t a e c sched s' Hc Hp He Hn Hrun Hnc Hp'. unfold log_of.
    destruct Hc as [-> | ->]; simpl in Hp.
    + destruct (run_Release s t a e sched s' Hp He Hrun Hnc) as [_ Hl].
      unfold Release_log in Hl. unfold pc_of in Hp'. rewrite Hp' in Hl.
      destruct Hl as [qs ->]. exists qs. unfold Release_events, removal_events.
      split; [set_solver|]. intros Hq. by rewrite decide_False.
    + destruct (run_RRelease s t a e sched s' Hp He Hrun Hnc) as [_ Hl].
      unfold RRelease_log in Hl. unfold pc_of in Hp'. rewrite Hp' in Hl.
      destruct Hl as [qs ->]. exists qs. unfold RRelease_events, removal_events.
      split; [set_solver|]. intros Hq. by rewrite decide_False.
  - apply tstep_map_free.
  - apply RRelease_frame.
  - apply Release_frame.
Qed.

Lemma C10_release_frame_witness :
  (∃ s' qs, run (Call 0%nat CRRelease :: solo 0%nat 3) k_shared = Some s' ∧
            EAdd 0 (-1) qs ∈ log_of s' 0%nat ∧ qs ≠ 0 ∧
            map_free (log_of s' 0%nat) = true) ∧
  (locks (upd 0 (set_queueSize 1) (st_mem k_shared)) = locks (st_mem k_shared) ∧
   mapLock (upd 0 (set_queueSize 1) (st_mem k_shared)) = mapLock (st_mem k_shared)) ∧
  (writeLockMode <$> heap (upd 0 (set_queueSize 1) (st_mem k_shared)) !! 0%nat =
   writeLockMode <$> heap (st_mem k_shared) !! 0%nat) ∧
  (name <$> heap (upd 0 (set_writeLockMode 0) (st_mem k_held)) !! 0%nat =
   name <$> heap (st_mem k_held) !! 0%nat).
Proof.
  split; [|split; [|split]].
  - destruct (run (Call 0%nat CRRelease :: solo 0%nat 3) k_shared) as [s'|] eqn:E;
      [|vm_compute in E; discriminate].
    destruct (proj1 C10_release_frame k_shared 0%nat 0%nat
                (mkNL "k" 2 0 0 (mkRW None 2)) CRRelease (solo 0%nat 3) s')
      as (qs & Hin & Hfree);
      [by right|reflexivity|reflexivity|discriminate|exact E|reflexivity| |].
    + revert E. vm_compute. by intros [= <-].
    + assert (qs = 1) as ->.
      { revert Hin E. clear. vm_compute. intros Hin [= <-].
        repeat (apply elem_of_cons in Hin as [Hin|Hin]; [by simplify_eq|]).
        by apply elem_of_nil in Hin. }
      exists s', 1. split; [reflexivity|]. split; [done|]. split; [done|]. by apply Hfree.
  - apply (proj1 (proj2 C10_release_frame) 0%nat (PRRelease 0 RRelAdd) (st_mem k_shared)
             [EAdd 0 (-1) 1] (PRRelease 0 RRelRUnlock)); [by left|reflexivity].
  - apply (proj1 (proj2 (proj2 C10_release_frame)) 0%nat 0%nat RRelAdd (st_mem k_shared)
             [EAdd 0 (-1) 1] (inl RRelRUnlock) _ 0%nat). reflexivity.
  - apply (proj2 (proj2 (proj2 C10_release_frame)) 0%nat 0%nat RelStore (st_mem k_held)
             [EStore 0 0] (PRelease 0 RelAdd) _ 0%nat). reflexivity.
Defined.

(** A completed or running [Acquire] / [RAcquire] of goroutine [t]. *)
Lemma run_Acquire s t n sched s' :
  pc_of s t = PIdle →
  run (Call t (CAcquire n) :: sched) s = Some s' → no_call t sched = true →
  Acquire_log n (st_threads s' t).
Proof.
  intros Hp Hrun Hnc. apply run_call in Hrun as (p & Hb & Hrun).
  rewrite Hp in Hb. simplify_eq/=.
  eapply (run_thread_local (Acquire_log n)); [|done|done|].
  - intros. by eapply Acquire_log_step.
  - simpl. rewrite fn_lookup_insert. done.
Qed.

Lemma run_RAcquire s t n sched s' :
  pc_of s t = PIdle →
  run (Call t (CRAcquire n) :: sched) s = Some s' → no_call t sched = true →
  RAcquire_log n (st_threads s' t).
Proof.
  intros Hp Hrun Hnc. apply run_call in Hrun as (p & Hb & Hrun).
  rewrite Hp in Hb. simplify_eq/=.
  eapply (run_thread_local (RAcquire_log n)); [|done|done|].
  - intros. by eapply RAcquire_log_step.
  - simpl. rewrite fn_lookup_insert. done.
Qed.

(** C2, as stated, fails: after [Acquire("k")] has released the map's mutex
    the store of 1 to [writeLockMode] is still to come, and the flag is 0. *)
Lemma C2_store_after_mapLock_released : ¬ pendingWrite_set_under_mapLock.
Proof.
  intros H.
  destruct (run k_acquire_store init) as [s|] eqn:E; [|vm_compute in E; discriminate].
  assert (mapLock (st_mem s) = Some 0%nat) as Hml.
  { apply (H s 0%nat "k" 0%nat); [by exists k_acquire_store|].
    revert E. vm_compute. by intros [= <-]. }
  revert E Hml. vm_compute. intros [= <-]. discriminate.
Qed.

(** C2, amended: an [Acquire] with a name that is not empty that returned
    handle [a] executed, in this order, [mapLock.Lock()], the lookup, for an
    absent name the creation and insertion of the entry, the increment of
    [queueSize], [mapLock.Unlock()], the store of 1 to [writeLockMode],
    [Lock()] of the entry, [writeLockCount++], and returned [a] (first part;
    each event is the operation on the memory it names, second part).  From
    the lookup to [mapLock.Unlock()] the caller holds the map's mutex and
    nobody else is between [Lock] and [Unlock] of it (third part); from the
    store to [writeLockMode] on it does not hold it (fourth part). *)
Theorem C2_acquire_order :
  (∀ s t n sched s' a, n ≠ "" → pc_of s t = PIdle →
     run (Call t (CAcquire n) :: sched) s = Some s' → no_call t sched = true →
     pc_of s' t = PHoldW a →
     ∃ fresh qs v, log_of s' t = Acquire_events n a fresh qs v) ∧
  (∀ t n q m evs p' m',
     step t (PAcquire n q) m = Some (evs, p', m') → effects t evs m = Some m') ∧
  (∀ s t n q a, reachable s → pc_of s t = PAcquire n q →
     q ∈ [AcqLookup; AcqNew; AcqAdd a; AcqMapUnlock a] →
     mapLock (st_mem s) = Some t ∧ ∀ u, u ≠ t → in_crit (pc_of s u) = false) ∧
  (∀ s t n q a v, reachable s → pc_of s t = PAcquire n q →
     q ∈ [AcqStore a; AcqLock a; AcqCountRd a; AcqCountWr a v] →
     mapLock (st_mem s) ≠ Some t).
Proof.
  split; [|split; [|split]].
  - intros s t n sched s' a Hn Hp Hrun Hnc Hp'.
    pose proof (run_Acquire s t n sched s' Hp Hrun Hnc) as Hl.
    unfold Acquire_log in Hl. unfold pc_of in Hp'. rewrite Hp' in Hl. exact Hl.
  - intros t n q m evs p' m' H. apply (tstep_effects t (PAcquire n q) m evs p' m').
    by left.
  - intros s t n q a Hr Hp Hq. apply crit_exclusive; [by apply inv_reachable|].
    rewrite Hp. set_unfold. by destruct Hq as [->|[->|[->|[->|[]]]]].
  - intros s t n q a v Hr Hp Hq Hml.
    destruct (inv_reachable s Hr) as [_ Ht]. apply (Ht t) in Hml. rewrite Hp in Hml.
    set_unfold. by destruct Hq as [->|[->|[->|[->|[]]]]].
Qed.

Lemma C2_acquire_order_witness :
  (∃ s' fresh qs v, run (Call 0%nat (CAcquire "k") :: solo 0%nat 10) init = Some s' ∧
                    log_of s' 0%nat = Acquire_events "k" 0 fresh qs v) ∧
  (∃ s, run (Call 0%nat (CAcquire "k") :: solo 0%nat 4) init = Some s ∧
        mapLock (st_mem s) = Some 0%nat) ∧
  (∃ s, run k_acquire_store init = Some s ∧ mapLock (st_mem s) ≠ Some 0%nat).
Proof.
  split; [|split].
  - destruct (run (Call 0%nat (CAcquire "k") :: solo 0%nat 10) init) as [s'|] eqn:E;
      [|vm_compute in E; discriminate].
    destruct (proj1 C2_acquire_order init 0%nat "k" (solo 0%nat 10) s' 0%nat)
      as (fresh & qs & v & Hl); [discriminate|reflexivity|exact E|reflexivity| |].
    + revert E. vm_compute. by intros [= <-].
    + by exists s', fresh, qs, v.
  - destruct (run (Call 0%nat (CAcquire "k") :: solo 0%nat 4) init) as [s|] eqn:E;
      [|vm_compute in E; discriminate].
    exists s. split; [reflexivity|].
    apply (proj1 (proj2 (proj2 C2_acquire_order)) s 0%nat "k" (AcqAdd 0) 0%nat).
    + by eexists.
    + revert E. vm_compute. by intros [= <-].
    + set_solver.
  - destruct (run k_acquire_store init) as [s|] eqn:E; [|vm_compute in E; discriminate].
    exists s. split; [reflexivity|].
    apply (proj2 (proj2 (proj2 C2_acquire_order)) s 0%nat "k" (AcqStore 0) 0%nat 0).
    + by exists k_acquire_store.
    + revert E. vm_compute. by intros [= <-].
    + set_solver.
Defined.

(** C8: a completed [RAcquire] with a name that is not empty incremented
    [queueSize] and after that stored 0 to [writeLockMode] (first part: its
    log).  The store has no condition: in every state it is enabled and
    after it [WriteLockMode()] is false (second part).  So a reader that
    comes after a writer clears the flag while the writer still waits in
    [Lock()] (third part: a reachable state where [queueSize] counts the
    three callers, the flag is set and the writer is at its [Lock()], and
    the reader's store after which the flag is clear and the writer's
    [Lock()] has no step).  The events of the log are the operations on the
    memory they name (fourth part), and the increment is one: the statement
    is enabled on every allocated entry, and after it [queueSize] of the
    entry is one more, as an [int32], with the rest of the entry, the map
    and its mutex as they were (fifth part). *)
Theorem C8_racquire_clears_flag :
  (∀ s t n sched s' a, n ≠ "" → pc_of s t = PIdle →
     run (Call t (CRAcquire n) :: sched) s = Some s' → no_call t sched = true →
     pc_of s' t = PHoldR a →
     ∃ fresh qs, log_of s' t = RAcquire_events n a fresh qs) ∧
  (∀ s t n a e, pc_of s t = PRAcquire n (RAcqStore a) →
     heap (st_mem s) !! a = Some e →
     ∃ s', exec1 (Step t) s = Some s' ∧ WriteLockMode s' a = Some false ∧
           pc_of s' t = PRAcquire n (RAcqRLock a)) ∧
  (∃ s0 s, run k_reader_after_writer init = Some s0 ∧
        pc_of s0 1%nat = PAcquire "k" (AcqLock 0) ∧
        WriteLockMode s0 0%nat = Some true ∧
        pc_of s0 2%nat = PRAcquire "k" (RAcqStore 0) ∧
        exec1 (Step 2%nat) s0 = Some s ∧
        pc_of s 1%nat = PAcquire "k" (AcqLock 0) ∧
        exec1 (Step 1%nat) s = None ∧
        WriteLockMode s 0%nat = Some false ∧
        queueSize <$> heap (st_mem s0) !! 0%nat = Some 3 ∧
        queueSize <$> heap (st_mem s) !! 0%nat = Some 3) ∧
  (∀ t n q m evs p' m',
     step t (PRAcquire n q) m = Some (evs, p', m') → effects t evs m = Some m') ∧
  (∀ s t n a e, pc_of s t = PRAcquire n (RAcqAdd a) →
     heap (st_mem s) !! a = Some e →
     ∃ s', exec1 (Step t) s = Some s' ∧
           pc_of s' t = PRAcquire n (RAcqMapUnlock a) ∧
           log_of s' t = (log_of s t ++ [EAdd a 1 (wrap32 (queueSize e + 1))])%list ∧
           heap (st_mem s') = <[a := set_queueSize (wrap32 (queueSize e + 1)) e]>
                                (heap (st_mem s)) ∧
           locks (st_mem s') = locks (st_mem s) ∧
           mapLock (st_mem s') = mapLock (st_mem s)).
Proof.
  split; [|split; [|split; [|split]]].
  - intros s t n sched s' a Hn Hp Hrun Hnc Hp'.
    pose proof (run_RAcquire s t n sched s' Hp Hrun Hnc) as Hl.
    unfold RAcquire_log in Hl. unfold pc_of in Hp'. rewrite Hp' in Hl. exact Hl.
  - intros s t n a e Hp He. unfold pc_of, WriteLockMode in *. simpl. rewrite Hp. simpl.
    unfold atomic_StoreInt32. rewrite He. simpl. eexists. split; [reflexivity|].
    simpl. rewrite list_lookup_alter_eq, He. simpl. by rewrite fn_lookup_insert.
  - exists (the (run k_reader_after_writer init)),
           (the (exec1 (Step 2%nat) (the (run k_reader_after_writer init)))).
    repeat match goal with |- _ ∧ _ => split end; vm_compute; reflexivity.
  - intros t n q m evs p' m' H. apply (tstep_effects t (PRAcquire n q) m evs p' m').
    by left.
  - intros s t n a e Hp He. unfold pc_of, log_of in *. simpl. rewrite Hp. simpl.
    unfold atomic_AddInt32. rewrite He. simpl. eexists. split; [reflexivity|].
    simpl. rewrite fn_lookup_insert. simpl. split; [done|]. split; [done|].
    split; [|done]. apply list_eq. intros b.
    destruct (decide (a = b)) as [<-|Hne].
    + rewrite list_lookup_alter_eq, He. simpl. symmetry.
      apply list_lookup_insert_eq. by eapply lookup_lt_Some.
    + by rewrite list_lookup_alter_ne, list_lookup_insert_ne.
Qed.

Lemma C8_racquire_clears_flag_witness :
  (∃ s' fresh qs, run (Call 0%nat (CRAcquire "k") :: solo 0%nat 8) init = Some s' ∧
                  log_of s' 0%nat = RAcquire_events "k" 0 fresh qs) ∧
  (∃ s s', run (Call 0%nat (CRAcquire "k") :: solo 0%nat 6) init = Some s ∧
           exec1 (Step 0%nat) s = Some s' ∧ WriteLockMode s' 0%nat = Some false) ∧
  (∃ s s', run (Call 0%nat (CRAcquire "k") :: solo 0%nat 4) init = Some s ∧
           heap (st_mem s) = [mkNL "k" 0 0 0 (mkRW None 0)] ∧
           exec1 (Step 0%nat) s = Some s' ∧
           heap (st_mem s') = [mkNL "k" 1 0 0 (mkRW None 0)]).
Proof.
  split; [|split].
  - destruct (run (Call 0%nat (CRAcquire "k") :: solo 0%nat 8) init) as [s'|] eqn:E;
      [|vm_compute in E; discriminate].
    destruct (proj1 C8_racquire_clears_flag init 0%nat "k" (solo 0%nat 8) s' 0%nat)
      as (fresh & qs & Hl); [discriminate|reflexivity|exact E|reflexivity| |].
    + revert E. vm_compute. by intros [= <-].
    + by exists s', fresh, qs.
  - destruct (run (Call 0%nat (CRAcquire "k") :: solo 0%nat 6) init) as [s|] eqn:E;
      [|vm_compute in E; discriminate].
    destruct (proj1 (proj2 C8_racquire_clears_flag) s 0%nat "k" 0%nat (mkNL "k" 1 0 0 (mkRW None 0)))
      as (s' & Hs & Hw & _).
    + revert E. vm_compute. by intros [= <-].
    + revert E. vm_compute. by intros [= <-].
    + by exists s, s'.
  - destruct (run (Call 0%nat (CRAcquire "k") :: solo 0%nat 4) init) as [s|] eqn:E;
      [|vm_compute in E; discriminate].
    assert (heap (st_mem s) = [mkNL "k" 0 0 0 (mkRW None 0)]) as Hh.
    { revert E. vm_compute. by intros [= <-]. }
    destruct (proj2 (proj2 (proj2 (proj2 C8_racquire_clears_flag))) s 0%nat "k" 0%nat
                (mkNL "k" 0 0 0 (mkRW None 0)))
      as (s' & Hs & _ & _ & Hh' & _).
    + revert E. vm_compute. by intros [= <-].
    + by rewrite Hh.
    + exists s, s'. split; [done|]. split; [done|]. split; [done|].
      rewrite Hh', Hh. reflexivity.
Defined.

(** ** Upgrade *)

Lemma Upgrade_log_step a t th m evs p m' :
  tstep t (th_pc th) m (evs, p, m') → Upgrade_log a th →
  Upgrade_log a (mkThread p (th_log th ++ evs)).
Proof.
  destruct th as [p0 l]. unfold Upgrade_log. simpl. intros H.
  inv_step H; intros Hl; log_intro; try done.
  split; [done|]. by rewrite last_app.
Qed.

Lemma counted_range p : (0 ≤ counted p ≤ 1)%Z.
Proof. destruct p as [| | | | | | | |? ? [] ? ?]; simpl; lia. Qed.

(** A statement leaves [writeLockCount] of an entry alone or is the write of
    a [writeLockCount++] whose read saw the current value. *)
Lemma tstep_count u p m evs p' m' a e :
  tstep u p m (evs, p', m') → thread_inv m u p → heap m !! a = Some e →
  ∃ e', heap m' !! a = Some e' ∧
    (writeLockCount e' = writeLockCount e ∨
     (writeLockCount e' = wrap64 (writeLockCount e + 1) ∧
      count_read p = Some (a, writeLockCount e) ∧ count_read p' = None)).
Proof.
  intros H. inv_step H; intros [Hc Hw Hr Hok] He; mem_simpl;
    try (exists e; split; [done|by left]).
  all: try (exists e; split; [by apply lookup_app_l_Some|by left]).
  all: match goal with |- context [alter _ ?b _] =>
         destruct (decide (b = a)) as [->|];
         [ rewrite list_lookup_alter_eq, He; simpl; eexists; split; [done|]; mem_simpl
         | rewrite list_lookup_alter_ne by done; exists e; split; [done|by left] ]
       end.
  all: try by left.
  all: right; destruct (Hr a _ eq_refl) as (e0 & He0 & <-); by simplify_eq.
Qed.

(** The same for the goroutine in [Upgrade]: its [writeLockCount++] is the
    statement after which it counts as done. *)
Lemma tstep_counted a t p l m evs p' m' e :
  tstep t p m (evs, p', m') → thread_inv m t p → Upgrade_log a (mkThread p l) →
  heap m !! a = Some e →
  ∃ e', heap m' !! a = Some e' ∧
    ((counted p' = counted p ∧ writeLockCount e' = writeLockCount e) ∨
     (counted p = 0 ∧ counted p' = 1 ∧
      writeLockCount e' = wrap64 (writeLockCount e + 1))).
Proof.
  unfold Upgrade_log. simpl. intros H.
  inv_step H; intros [Hc Hw Hr Hok] Hl He; log_intro; mem_simpl; cbn [counted];
    repeat case_decide.
  all: try (specialize (Hok eq_refl); subst h).
  all: try (eexists; split; [eassumption|]; left; split; [first [done|by destruct h]|done]).
  all: try (rewrite list_lookup_alter_eq;
            match goal with H : heap _ !! _ = Some _ |- _ => rewrite H end;
            simpl; eexists; split; [reflexivity|]; mem_simpl).
  all: try (left; split; [first [done|by destruct h]|done]).
  all: right; destruct (Hr a v eq_refl) as (e0 & He0 & <-); by simplify_eq.
Qed.

(** Along a schedule that is too short for [writeLockCount] to wrap
    around, the count of the entry does not fall and has gone up once the
    goroutine of [Upgrade] is done with its [writeLockCount++]. *)
Lemma upgrade_count a t c0 sched :
  ∀ s s' e, inv s → Upgrade_log a (st_threads s t) →
    heap (st_mem s) !! a = Some e →
    int64 c0 → (c0 + counted (pc_of s t) ≤ writeLockCount e)%Z →
    (writeLockCount e + Z.of_nat (length sched) < 9223372036854775808)%Z →
    run sched s = Some s' → no_call t sched = true →
    ∃ e', heap (st_mem s') !! a = Some e' ∧
          (c0 + counted (pc_of s' t) ≤ writeLockCount e')%Z.
Proof.
  induction sched as [|x sched IH]; intros s s' e Hi Hl He Hc0 Hlo Hhi Hrun Hnc;
    simplify_eq/=; [by exists e|].
  destruct (exec1 x s) as [s1|] eqn:E; simplify_eq/=.
  apply andb_prop in Hnc as [Hx Hnc].
  pose proof (inv_exec1 x s s1 Hi E) as Hi1.
  destruct Hi as [Hm Ht].
  assert (wrap64 (writeLockCount e + 1) = writeLockCount e + 1) as Hwrap.
  { apply wrap64_id. pose proof (counted_range (pc_of s t)). unfold int64 in *. lia. }
  apply exec1_cases in E as [(c & p' & Hc & Hb & ->)|(evs & p' & m' & _ & Hs & ->)].
  - rewrite Hc in Hx. simpl in Hx. apply negb_true_iff, bool_decide_eq_false in Hx.
    eapply (IH _ s' e); try done; simpl.
    + by rewrite fn_lookup_insert_ne.
    + unfold pc_of in *. simpl. by rewrite fn_lookup_insert_ne.
    + lia.
  - destruct (decide (actor x = t)) as [<-|Hne].
    + destruct (tstep_counted a _ _ (log_of s (actor x)) _ _ _ _ e Hs (Ht _))
        as (e1 & He1 & Hcnt); [|done|].
      { unfold pc_of, log_of. by destruct (st_threads s (actor x)). }
      eapply (IH _ s' e1); try done; simpl.
      * rewrite fn_lookup_insert. unfold Upgrade_log in *. simpl.
        pose proof (Upgrade_log_step a _ (st_threads s (actor x)) _ _ _ _ Hs Hl) as Hl'.
        exact Hl'.
      * unfold pc_of in *. simpl. rewrite fn_lookup_insert. simpl. lia.
      * lia.
    + destruct (tstep_count _ _ _ _ _ _ a e Hs (Ht _) He) as (e1 & He1 & Hcnt).
      eapply (IH _ s' e1); try done; simpl.
      * by rewrite fn_lookup_insert_ne.
      * unfold pc_of in *. simpl. rewrite fn_lookup_insert_ne by done. lia.
      * lia.
Qed.

Lemma run_named a n sched s s' :
  run sched s = Some s' → named a n (st_mem s) → named a n (st_mem s').
Proof.
  revert s. induction sched as [|x sched IH]; intros s Hrun Hn; simplify_eq/=; [done|].
  destruct (exec1 x s) as [s1|] eqn:E; simplify_eq/=. apply (IH s1 Hrun).
  apply exec1_cases in E as [(c & p' & _ & _ & ->)|(evs & p' & m' & _ & Hs & ->)];
    [done|]. simpl. by eapply tstep_named.
Qed.

Lemma run_duo t w s evs p m :
  steps2 t w (pc_of s t) (st_mem s) = Some (evs, p, m) →
  ∃ s', run (duo t w) s = Some s' ∧ st_mem s' = m ∧ pc_of s' t = p ∧
        log_of s' t = (log_of s t ++ evs)%list.
Proof.
  revert s evs. induction w as [|b w IH]; intros s evs H; simplify_eq/=.
  { exists s. by rewrite app_nil_r. }
  unfold pc_of, log_of in *.
  destruct b; simpl.
  - destruct (step_go t _ _) as [[[evs1 p1] m1]|] eqn:E1; simplify_eq/=.
    destruct (steps2 t w p1 m1) as [[[evs2 p2] m2]|] eqn:E2; simplify_eq/=.
    edestruct (IH (mkState m1 (<[t := mkThread p1 (th_log (st_threads s t) ++ evs1)]> (st_threads s))))
      as (s' & Hrun & Hm & Hp & Hl).
    { simpl. rewrite fn_lookup_insert. simpl. exact E2. }
    exists s'. split; [exact Hrun|]. split; [done|]. split; [done|].
    rewrite Hl. simpl. rewrite fn_lookup_insert. simpl. by rewrite app_assoc.
  - destruct (step t _ _) as [[[evs1 p1] m1]|] eqn:E1; simplify_eq/=.
    destruct (steps2 t w p1 m1) as [[[evs2 p2] m2]|] eqn:E2; simplify_eq/=.
    edestruct (IH (mkState m1 (<[t := mkThread p1 (th_log (st_threads s t) ++ evs1)]> (st_threads s))))
      as (s' & Hrun & Hm & Hp & Hl).
    { simpl. rewrite fn_lookup_insert. simpl. exact E2. }
    exists s'. split; [exact Hrun|]. split; [done|]. split; [done|].
    rewrite Hl. simpl. rewrite fn_lookup_insert. simpl. by rewrite app_assoc.
Qed.

Lemma no_call_duo t w : no_call t (duo t w) = true.
Proof. induction w as [|[] w IH]; simpl; auto. Qed.

Lemma Upgrade_steps t a m e :
  heap m !! a = Some e → name e ≠ "" →
  rw_writer (rwmutex e) = None → rw_readers (rwmutex e) = 1%nat →
  mapLock m = None →
  ∃ r evs m', steps2 t (upgrade_alone r) (PUpgStart a) m = Some (evs, PHoldW a, m').
Proof.
  intros He Hn Hw Hr Hml. destruct m as [h l ml]. simpl in *. subst ml.
  destruct (decide (wrap32 (wrap32 (queueSize e + 1) + -1) = 0)) as [Hq|Hq].
  - exists true. simpl.
    repeat first [ progress unfold atomic_StoreInt32, atomic_AddInt32, delete_entry,
                     rw_Unlock, rw_Lock, rw_RUnlock, mutex_Lock, mutex_Unlock
                 | rewrite He | rewrite list_lookup_alter_eq | rewrite Hw | rewrite Hr
                 | rewrite (decide_False (P := name e = "")) by done
                 | rewrite (decide_True (P := wrap32 (wrap32 (queueSize e + 1) + -1) = 0)) by done
                 | progress cbn ].
    eexists _, _. reflexivity.
  - exists false. simpl.
    repeat first [ progress unfold atomic_StoreInt32, atomic_AddInt32, delete_entry,
                     rw_Unlock, rw_Lock, rw_RUnlock, mutex_Lock, mutex_Unlock
                 | rewrite He | rewrite list_lookup_alter_eq | rewrite Hw | rewrite Hr
                 | rewrite (decide_False (P := name e = "")) by done
                 | rewrite (decide_False (P := wrap32 (wrap32 (queueSize e + 1) + -1) = 0)) by done
                 | progress cbn ].
    eexists _, _. reflexivity.
Qed.

(** C9: an [Upgrade()] on a handle from [RAcquire] that returns, returns the
    handle of the same entry (the same pointer, so the same name and
    counters), and unless the 64-bit [writeLockCount] wraps around within
    the schedule the count is then larger than it was at the call (first
    part).  It does return: when the caller is the only holder and runs with
    nobody else, the statements of [upgrade_alone] complete the call
    (second part). *)
Theorem C9_upgrade_same_entry :
  (∀ s t a e sched s' a',
     reachable s → pc_of s t = PHoldR a → heap (st_mem s) !! a = Some e →
     run (Call t CUpgrade :: sched) s = Some s' → no_call t sched = true →
     pc_of s' t = PHoldW a' →
     (writeLockCount e + Z.of_nat (length sched) < 9223372036854775808)%Z →
     a' = a ∧ last (log_of s' t) = Some (ERet (ROk a)) ∧
     ∃ e', heap (st_mem s') !! a = Some e' ∧ name e' = name e ∧
           (writeLockCount e < writeLockCount e')%Z) ∧
  (∀ s t a e,
     pc_of s t = PHoldR a → heap (st_mem s) !! a = Some e → name e ≠ "" →
     rw_writer (rwmutex e) = None → rw_readers (rwmutex e) = 1%nat →
     mapLock (st_mem s) = None →
     ∃ r s', run (Call t CUpgrade :: duo t (upgrade_alone r)) s = Some s' ∧
             pc_of s' t = PHoldW a).
Proof.
  split.
  - intros s t a e sched s' a' Hr Hp He Hrun Hnc Hp' Hlen.
    pose proof (inv_reachable s Hr) as Hi.
    assert (inv (set_thread t (mkThread (PUpgStart a) [ECall CUpgrade]) s)) as Hi1.
    { apply (inv_exec1 (Call t CUpgrade) s); [done|]. simpl.
      unfold pc_of in Hp. by rewrite Hp. }
    apply run_call in Hrun as (p & Hb & Hrun). rewrite Hp in Hb. simplify_eq/=.
    assert (Upgrade_log a (st_threads s' t)) as Hl.
    { eapply (run_thread_local (Upgrade_log a)); [|done|done|].
      - intros. by eapply Upgrade_log_step.
      - simpl. rewrite fn_lookup_insert. done. }
    unfold Upgrade_log in Hl. unfold pc_of in Hp'. rewrite Hp' in Hl.
    destruct Hl as [-> Hlast]. split; [done|]. split; [done|].
    destruct (proj1 Hi a e He) as [_ Hc0].
    destruct (upgrade_count a t (writeLockCount e) sched _ s' e Hi1) as (e' & He' & Hcnt);
      try done.
    { simpl. rewrite fn_lookup_insert. done. }
    { unfold pc_of. simpl. rewrite fn_lookup_insert. simpl. lia. }
    destruct (run_named a (name e) sched _ s' Hrun) as (e2 & He2 & Hn2).
    { by exists e. }
    simplify_eq. exists e'. split; [done|]. split; [done|].
    unfold pc_of in Hcnt. rewrite Hp' in Hcnt. simpl in Hcnt. lia.
  - intros s t a e Hp He Hn Hw Hrd Hml.
    destruct (Upgrade_steps t a (st_mem s) e He Hn Hw Hrd Hml) as (r & evs & m' & Hs).
    edestruct (run_duo t (upgrade_alone r)
                 (set_thread t (mkThread (PUpgStart a) [ECall CUpgrade]) s))
      as (s' & Hrun & _ & Hp' & _).
    { unfold pc_of. simpl. rewrite fn_lookup_insert. simpl. exact Hs. }
    exists r, s'. split; [|done].
    simpl. unfold pc_of in Hp. rewrite Hp. simpl. exact Hrun.
Qed.

Lemma C9_upgrade_same_entry_witness :
  (∃ e', heap (st_mem (the (run (k_racquired ++ Call 0%nat CUpgrade ::
                                 duo 0%nat (upgrade_alone false)) init))) !! 0%nat = Some e' ∧
         name e' = "k" ∧ (0 < writeLockCount e')%Z) ∧
  (∃ r s', run (Call 0%nat CUpgrade :: duo 0%nat (upgrade_alone r))
               (the (run k_racquired init)) = Some s' ∧
           pc_of s' 0%nat = PHoldW 0).
Proof.
  split.
  - destruct (proj1 C9_upgrade_same_entry (the (run k_racquired init)) 0%nat 0%nat
                (mkNL "k" 1 0 0 (mkRW None 1)) (duo 0%nat (upgrade_alone false))
                (the (run (k_racquired ++ Call 0%nat CUpgrade ::
                           duo 0%nat (upgrade_alone false)) init)) 0%nat)
      as (_ & _ & e' & He' & Hn & Hc).
    + exists k_racquired. vm_compute. reflexivity.
    + vm_compute. reflexivity.
    + vm_compute. reflexivity.
    + vm_compute. reflexivity.
    + vm_compute. reflexivity.
    + vm_compute. reflexivity.
    + vm_compute. reflexivity.
    + exists e'. split; [exact He'|]. split; [exact Hn|exact Hc].
  - apply (proj2 C9_upgrade_same_entry (the (run k_racquired init)) 0%nat 0%nat
             (mkNL "k" 1 0 0 (mkRW None 1))).
    + vm_compute. reflexivity.
    + vm_compute. reflexivity.
    + discriminate.
    + reflexivity.
    + reflexivity.
    + vm_compute. reflexivity.
Defined.

(** ** The removal race

    [Release] and [RRelease] decrement [queueSize] before they take the
    map's mutex, and then delete the name without looking at [queueSize]
    again.  An [Acquire] that finds the entry in between is left with an
    entry that is no longer in the map. *)

(** What does hold: the write lock of one entry has one holder. *)
Lemma write_exclusive s t u a :
  reachable s → holdsW (pc_of s t) = Some a → holdsW (pc_of s u) = Some a → t = u.
Proof.
  intros Hr Ht Hu. destruct (inv_reachable s Hr) as [_ Hi].
  destruct (ti_holdsW _ _ _ (Hi t) a Ht) as (e & He & Hwt).
  destruct (ti_holdsW _ _ _ (Hi u) a Hu) as (e' & He' & Hwu).
  congruence.
Qed.

(** C1 fails on the code: after [k_race_second] goroutines 1 and 2 both hold
    the exclusive lock they got from [Acquire("k")], on two entries named
    ["k"]; after [k_race_reader] goroutine 1 holds the exclusive lock and
    goroutine 2 the shared lock of ["k"]. *)
Theorem C1_two_exclusive_holders :
  let s := the (run k_race_second init) in
  let s2 := the (run k_race_reader init) in
  run k_race_second init = Some s ∧ run k_race_reader init = Some s2 ∧
  pc_of s2 1%nat = PHoldW 0 ∧ pc_of s2 2%nat = PHoldR 1 ∧
  log_of s2 2%nat = RAcquire_events "k" 1 true 1 ∧
  name <$> heap (st_mem s2) !! 0%nat = Some "k" ∧
  name <$> heap (st_mem s2) !! 1%nat = Some "k" ∧
  pc_of s 1%nat = PHoldW 0 ∧ pc_of s 2%nat = PHoldW 1 ∧
  log_of s 1%nat = Acquire_events "k" 0 false 1 1 ∧
  log_of s 2%nat = Acquire_events "k" 1 true 1 0 ∧
  name <$> heap (st_mem s) !! 0%nat = Some "k" ∧
  name <$> heap (st_mem s) !! 1%nat = Some "k" ∧
  (rw_writer ∘ rwmutex) <$> heap (st_mem s) !! 0%nat = Some (Some 1%nat) ∧
  (rw_writer ∘ rwmutex) <$> heap (st_mem s) !! 1%nat = Some (Some 2%nat).
Proof.
  cbv zeta. repeat match goal with |- _ ∧ _ => split end; vm_compute; reflexivity.
Qed.

(** C5 fails on the code: after [k_race] no call is under way, goroutine 1
    holds the entry of ["k"], whose [queueSize] is 1, and the map has no
    entry for ["k"]. *)
Theorem C5_referenced_entry_not_in_map :
  let s := the (run k_race init) in
  run k_race init = Some s ∧
  pc_of s 0%nat = PIdle ∧ pc_of s 1%nat = PHoldW 0 ∧
  (∀ t, (2 ≤ t)%nat → pc_of s t = PIdle) ∧
  name <$> heap (st_mem s) !! 0%nat = Some "k" ∧
  queueSize <$> heap (st_mem s) !! 0%nat = Some 1 ∧
  locks (st_mem s) !! "k" = None ∧
  mapLock (st_mem s) = None.
Proof.
  cbv zeta. repeat match goal with |- _ ∧ _ => split end;
    try (vm_compute; reflexivity).
  intros [|[|t]] Ht; [lia|lia|]. vm_compute. reflexivity.
Qed.

(** C4 fails on the code: goroutine 2 calls [Upgrade] on entry 1, which is
    in the map with [queueSize] 1; the increment comes first and
    [queueSize] is 2, but while the [Upgrade] is under way the [Release] of
    goroutine 1 on the other entry named ["k"] removes entry 1 from the
    map. *)
Theorem C4_entry_removed_during_upgrade :
  let s0 := the (run k_race_reader init) in
  let s1 := the (run k_race_upgrade init) in
  let s := the (run k_race_evict init) in
  run k_race_reader init = Some s0 ∧ run k_race_upgrade init = Some s1 ∧
  run k_race_evict init = Some s ∧
  pc_of s0 2%nat = PHoldR 1 ∧
  queueSize <$> heap (st_mem s0) !! 1%nat = Some 1 ∧
  locks (st_mem s0) !! "k" = Some 1%nat ∧
  pc_of s1 2%nat = PUpgrade 1 UpgClose HStore ChEmpty 1 ∧
  log_of s1 2%nat = [ECall CUpgrade; ESpawn; EAdd 1 1 2; ESend; ERecv] ∧
  locks (st_mem s1) !! "k" = Some 1%nat ∧
  pc_of s 2%nat = PUpgrade 1 UpgClose HStore ChEmpty 1 ∧
  queueSize <$> heap (st_mem s) !! 1%nat = Some 2 ∧
  log_of s 1%nat = [ECall CRelease; EStore 0 0; EAdd 0 (-1) 0; EMapLock; EDelete "k"] ∧
  locks (st_mem s) !! "k" = None.
Proof.
  cbv zeta. repeat match goal with |- _ ∧ _ => split end; vm_compute; reflexivity.
Qed.

(** A property of program points that holds when idle and that calls and
    statements keep holds of every goroutine of a reachable state. *)
Lemma reachable_pc (P : pc → Prop) :
  P PIdle →
  (∀ p c p', begin p c = Some p' → P p → P p') →
  (∀ t p m evs p' m', tstep t p m (evs, p', m') → P p → P p') →
  ∀ s t, reachable s → P (pc_of s t).
Proof.
  intros H0 Hb Hs s t [sched Hrun].
  assert (∀ sched s0 s, (∀ t, P (pc_of s0 t)) → run sched s0 = Some s →
                        ∀ t, P (pc_of s t)) as Hgen.
  { clear -Hb Hs. induction sched as [|x sched IH]; intros s0 s HP Hrun;
      simplify_eq/=; [done|].
    destruct (exec1 x s0) as [s1|] eqn:E; simplify_eq/=. apply (IH s1 s); [|done].
    intros u. unfold pc_of.
    apply exec1_cases in E as [(c & p' & _ & Hc & ->)|(evs & p' & m' & _ & Ht & ->)];
      simpl; (destruct (decide (actor x = u)) as [<-|Hne];
              [rewrite fn_lookup_insert|rewrite fn_lookup_insert_ne by done; apply HP]);
      simpl.
    - eapply Hb; [done|apply HP].
    - eapply Hs; [done|apply HP]. }
  by apply (Hgen sched init s).
Qed.

Lemma handshake_reachable s t : reachable s → handshake (pc_of s t).
Proof.
  apply reachable_pc; [done| |].
  - intros p c p' H _. destruct p, c; by simplify_eq/=.
  - intros u p m evs p' m' H. inv_step H; simpl; try done.
    all: intros (Hs1 & Hs2 & Hs3); repeat split; intros; simplify_eq; try done.
    all: try (by apply Hs2); try (by apply Hs1).
    all: try (by destruct ch).
    by destruct (Hs3 eq_refl).
Qed.

(** In [Upgrade] the increment of [queueSize] comes before the caller's
    [RRelease]: while the caller is in it, the started goroutine is past its
    increment. *)
Lemma upgrade_increment_first s t a r h ch wg :
  reachable s → pc_of s t = PUpgrade a (UpgRRelease r) h ch wg → signalled h.
Proof.
  intros Hr Hp. pose proof (handshake_reachable s t Hr) as H. rewrite Hp in H.
  by apply H.
Qed.

(** ** The second invariant *)

(** *** Sums *)

Lemma total_ext w w' l : (∀ t, t ∈ l → w t = w' t) → total w l = total w' l.
Proof.
  induction l as [|t l IH]; intros H; simpl; [done|].
  rewrite (H t) by set_solver. rewrite IH; [done|]. intros; apply H; set_solver.
Qed.

Lemma total_change w w' l t :
  NoDup l → t ∈ l → (∀ u, u ≠ t → w u = w' u) →
  (total w' l + w t = total w l + w' t)%nat.
Proof.
  induction l as [|u l IH]; intros Hnd Hin Hw; [set_solver|].
  apply NoDup_cons in Hnd as [Hu Hnd]. simpl.
  destruct (decide (u = t)) as [->|Hne].
  - rewrite (total_ext w w' l); [lia|].
    intros v Hv. apply Hw. intros ->. done.
  - rewrite <- (Hw u Hne). assert (t ∈ l) as Ht by set_solver.
    specialize (IH Hnd Ht Hw). lia.
Qed.

(** A statement of [t] keeps a count when the weight of [t] changes by no
    more than the counter, and entries that appear are counted from 0 with
    nobody on them. *)
Lemma counted_by_step w c s t p' lg m' :
  counted_by w c s →
  (∀ a e', heap m' !! a = Some e' →
     (∃ e, heap (st_mem s) !! a = Some e ∧
           (Z.of_nat (w p' a) - Z.of_nat (w (pc_of s t) a) ≤ c e' - c e)%Z) ∨
     ((0 ≤ c e')%Z ∧ w p' a = O ∧ ∀ u, w (pc_of s u) a = O)) →
  counted_by w c (mkState m' (<[t := mkThread p' lg]> (st_threads s))).
Proof.
  intros Hc Hstep a e' l He' Hnd. simpl in He'.
  set (f := λ u, w (pc_of s u) a).
  set (f' := λ u, w (pc_of (mkState m' (<[t := mkThread p' lg]> (st_threads s))) u) a).
  assert (∀ u, u ≠ t → f u = f' u) as Hother.
  { intros u Hu. unfold f, f', pc_of. simpl. by rewrite fn_lookup_insert_ne. }
  assert (f' t = w p' a) as Hft.
  { unfold f', pc_of. simpl. by rewrite fn_lookup_insert. }
  assert (f t = w (pc_of s t) a) as Hf by done.
  change (Z.of_nat (total f' l) ≤ c e')%Z.
  destruct (Hstep a e' He') as [(e & He & Hd)|(H0 & Hp0 & Hall)].
  - destruct (decide (t ∈ l)) as [Hin|Hin].
    + pose proof (total_change f f' l t Hnd Hin Hother) as Hch.
      pose proof (Hc a e l He Hnd) as Hle. change (Z.of_nat (total f l) ≤ c e)%Z in Hle.
      clearbody f f'. lia.
    + assert (NoDup (t :: l)) as Hnd' by by apply NoDup_cons.
      pose proof (Hc a e (t :: l) He Hnd') as Hle.
      change (Z.of_nat (f t + total f l) ≤ c e)%Z in Hle.
      rewrite <- (total_ext f f' l); [clearbody f f'; lia|].
      intros u Hu. apply Hother. intros ->. done.
  - rewrite (total_ext f' (λ _, O) l).
    + assert (total (λ _, O) l = O) as -> by (clear; induction l; simpl; lia). lia.
    + intros u _. destruct (decide (u = t)) as [->|Hu]; [by rewrite Hft|].
      rewrite <- (Hother u Hu). apply Hall.
Qed.

Lemma counted_by_call w c s t p' lg :
  counted_by w c s → (∀ a, w p' a = w (pc_of s t) a) →
  counted_by w c (set_thread t (mkThread p' lg) s).
Proof.
  intros Hc Hw. apply counted_by_step; [done|]. intros a e' He'. left.
  exists e'. split; [done|]. rewrite Hw. lia.
Qed.

Local Close Scope string_scope.

(** *** The second invariant holds *)

Ltac inv2_simpl :=
  cbn [upd set_heap set_locks set_mapLock heap locks mapLock
       set_queueSize set_writeLockMode set_writeLockCount set_rwmutex
       name queueSize writeLockMode writeLockCount rwmutex rw_writer rw_readers
       uses asks holdsR rendezvous] in *.

(** What a statement does to an entry that was there. *)
Lemma tstep_entry t p m evs p' m' a e :
  tstep t p m (evs, p', m') → heap m !! a = Some e →
  ∃ e', heap m' !! a = Some e' ∧ name e' = name e.
Proof.
  intros H He. destruct (tstep_named a (name e) t p m evs p' m' H) as (e' & He' & Hn);
    [by exists e|by exists e'].
Qed.

Ltac entry_goal :=
  intros; simplify_eq;
  repeat match goal with
  | H : ∀ a, Some ?b = Some a → _ |- _ => destruct (H b eq_refl) as (? & ? & ?); clear H
  | H : ∀ a, None = Some a → _ |- _ => clear H
  | H : mem_inv2 ?m, H' : locks ?m !! _ = Some _ |- _ =>
      destruct (H _ _ H') as (? & ? & ?); clear H
  end;
  simplify_eq;
  try rewrite list_lookup_alter_eq;
  try (rewrite list_lookup_middle by done);
  repeat match goal with H : heap _ !! _ = Some _ |- _ => rewrite H end;
  simpl; try (eexists; split; [reflexivity|]; inv2_simpl;
              try done; try (intros; simplify_eq; by eauto)).

Lemma tstep_self2 t p m evs p' m' :
  tstep t p m (evs, p', m') → mem_inv2 m → thread_inv2 m p →
  (∀ a e, holdsR p = Some a → heap m !! a = Some e → (1 ≤ rw_readers (rwmutex e))%nat) →
  thread_inv2 m' p'.
Proof.
  intros H. inv_step H; intros Hm [Hu Hr Hz] Hrd; inv2_simpl.
  all: split; inv2_simpl; try done.
  all: try by entry_goal.
  all: try (destruct h; by entry_goal).
  all: try (destruct Hz as [Hz1 Hz2]; repeat case_decide; destruct h; naive_solver).
  all: try (destruct c; by entry_goal).
  all: try (destruct Hz as [Hz1 Hz2]; destruct c; naive_solver).
  intros b Hb. assert (b = a) as -> by (destruct c; by simplify_eq).
  pose proof (Hrd a x Hb H). lia.
Qed.

Lemma tstep_other2 t p m evs p' m' q :
  tstep t p m (evs, p', m') → thread_inv2 m q →
  (∀ a e, holdsR q = Some a → heap m !! a = Some e → (1 ≤ rw_readers (rwmutex e))%nat) →
  thread_inv2 m' q.
Proof.
  intros H [Hu Hr Hz] Hrd. split; [| |done].
  - intros a Ha. destruct (Hu a Ha) as (e & He & Hn).
    destruct (tstep_entry t p m evs p' m' a e H He) as (e' & He' & Hn').
    exists e'. split; [done|]. intros n Hq. rewrite Hn'. by apply Hn.
  - intros a Ha. destruct (Hr a Ha) as (e & He & Hw). specialize (Hrd a e Ha He).
    clear Hu Hr Hz Ha. revert He Hw Hrd. inv_step H; intros He Hw Hrd; inv2_simpl;
      try (by exists e).
    all: try (exists e; split; [by apply lookup_app_l_Some|done]).
    all: match goal with |- context [alter _ ?b _] =>
           destruct (decide (b = a)) as [->|];
           [ rewrite list_lookup_alter_eq, He; simpl; eexists; split; [done|]; inv2_simpl;
             simplify_eq; try done; try lia
           | rewrite list_lookup_alter_ne by done; by exists e ]
         end.
Qed.

Lemma tstep_mem2 t p m evs p' m' :
  tstep t p m (evs, p', m') → mem_inv2 m → mem_inv2 m'.
Proof.
  intros H Hm n a Hl.
  assert (locks m !! n = Some a ∨
          (heap m' !! a = Some (newNamedLock n) ∧ heap m !! a = None)) as [Hold|[Hnew _]].
  { revert Hl. clear Hm. inv_step H; inv2_simpl; intros Hl; try (by left).
    all: try (apply lookup_delete_Some in Hl as [_ Hl]; by left).
    all: destruct (decide (n0 = n)) as [->|Hne];
      [ rewrite lookup_insert_eq in Hl; simplify_eq; right;
        split; [by rewrite list_lookup_middle|by apply lookup_ge_None_2]
      | rewrite lookup_insert_ne in Hl by done; by left ]. }
  - by eapply tstep_named; [|apply Hm].
  - by exists (newNamedLock n).
Qed.

Ltac weigh :=
  unfold reads, readers_of; inv2_simpl; repeat case_decide; simplify_eq/=; try lia.

(** A statement changes the count of read-lock holders of an entry by no
    more than the readers of its mutex. *)
Lemma tstep_reads t p m evs p' m' a e' :
  tstep t p m (evs, p', m') → heap m' !! a = Some e' →
  (∃ e, heap m !! a = Some e ∧
        (Z.of_nat (reads p' a) - Z.of_nat (reads p a) ≤ readers_of e' - readers_of e)%Z) ∨
  (heap m !! a = None ∧ readers_of e' = 0 ∧ reads p' a = O).
Proof.
  intros H. inv_step H; intros He'; inv2_simpl.
  all: try (left; exists e'; split; [done|]; by weigh).
  all: try (left; exists e'; split; [done|]; destruct c; by weigh).
  all: try match goal with He' : alter _ ?b _ !! ?c = Some _ |- _ =>
         left; destruct (decide (b = c)) as [->|];
         [ rewrite list_lookup_alter_eq in He';
           match goal with H : heap _ !! c = Some _ |- _ => rewrite H in He' end;
           simplify_eq/=; eexists; split; [done|]; first [by weigh|destruct c; by weigh]
         | rewrite list_lookup_alter_ne in He' by done;
           exists e'; split; [done|]; first [by weigh|destruct c; by weigh] ]
       end.
  all: try (apply lookup_app_Some in He' as [He'|[Hlen He']];
            [ left; exists e'; split; [done|]; by weigh
            | right; apply list_lookup_singleton_Some in He' as [_ <-];
              split; [by apply lookup_ge_None_2|]; split; [done|]; by weigh ]).
  all: left; destruct (decide (a0 = a)) as [->|];
    [ rewrite list_lookup_alter_eq in He'; destruct (heap m !! a) as [e|] eqn:E;
      simplify_eq/=; exists e; split; [done|]; first [by weigh|destruct c; by weigh]
    | rewrite list_lookup_alter_ne in He' by done;
      exists e'; split; [done|]; first [by weigh|destruct c; by weigh] ].
Qed.

(** Nobody works on an entry that is not allocated. *)
Lemma reads_unallocated m p a :
  thread_inv2 m p → heap m !! a = None → reads p a = O.
Proof.
  intros [_ Hr _] Hn. unfold reads. case_decide as Hh; [|done].
  destruct (Hr a Hh) as (e & He & _). congruence.
Qed.

Lemma inv2_exec1 x s s' : inv2 s → exec1 x s = Some s' → inv2 s'.
Proof.
  intros (Hm & Ht & Hc) H.
  assert (∀ u a e, holdsR (pc_of s u) = Some a → heap (st_mem s) !! a = Some e →
                   (1 ≤ rw_readers (rwmutex e))%nat) as Hrd.
  { intros u a e Hh He. pose proof (Hc a e [u] He) as Hle. simpl in Hle.
    unfold reads, readers_of in Hle. rewrite decide_True in Hle by done.
    specialize (Hle ltac:(apply NoDup_singleton)). lia. }
  apply exec1_cases in H as [(c & p' & _ & Hb & ->)|(evs & p' & m' & _ & Hs & ->)].
  - split; [done|]. split.
    + intros u. unfold pc_of, set_thread. simpl.
      destruct (decide (actor x = u)) as [<-|Hne].
      * rewrite fn_lookup_insert. simpl. specialize (Ht (actor x)).
        destruct (pc_of s (actor x)), c; simplify_eq/=; destruct Ht as [Hu Hr Hz];
          split; simpl; try done; intros; simplify_eq; eauto.
      * rewrite fn_lookup_insert_ne by done. apply Ht.
    + apply counted_by_call; [done|]. intros a.
      destruct (pc_of s (actor x)), c; by simplify_eq/=.
  - split; [by eapply tstep_mem2|]. split.
    + intros u. unfold pc_of. simpl. destruct (decide (actor x = u)) as [<-|Hne].
      * rewrite fn_lookup_insert. simpl. eapply tstep_self2; [done|done|apply Ht|].
        intros a e. apply Hrd.
      * rewrite fn_lookup_insert_ne by done.
        eapply tstep_other2; [done|apply Ht|]. intros a e. apply Hrd.
    + apply counted_by_step; [done|]. intros a e' He'.
      destruct (tstep_reads _ _ _ _ _ _ a e' Hs He') as [(e & He & Hd)|(Hn & H0 & Hp0)].
      * left. by exists e.
      * right. split; [lia|]. split; [done|]. intros u.
        by apply (reads_unallocated (st_mem s)).
Qed.

Lemma inv2_run sched s s' : inv2 s → run sched s = Some s' → inv2 s'.
Proof.
  revert s. induction sched as [|x sched IH]; intros s Hi H; simplify_eq/=; [done|].
  destruct (exec1 x s) as [s1|] eqn:E; simplify_eq/=. eauto using inv2_exec1.
Qed.

Lemma inv2_init : inv2 init.
Proof.
  split; [|split].
  - intros n a. simpl. by rewrite lookup_empty.
  - intros t. by split.
  - intros a e l. simpl. by rewrite lookup_nil.
Qed.

Lemma inv2_reachable s : reachable s → inv2 s.
Proof. intros [sched H]. eapply inv2_run; [apply inv2_init|done]. Qed.

(** ** Exclusion *)

Ltac by_run sched := exists sched; vm_compute; reflexivity.

(** A statement with such an event is between [mapLock.Lock()] and
    [mapLock.Unlock()]. *)
Lemma map_access_in_crit t p m evs p' m' ev :
  tstep t p m (evs, p', m') → ev ∈ evs → map_access ev = true → in_crit p = true.
Proof.
  intros H. inv_step H; simpl; intros Hin Hev; try done.
  all: repeat (apply elem_of_cons in Hin as [->|Hin]; [by simplify_eq/=|]).
  all: by apply elem_of_nil in Hin.
Qed.

(** X1. The holder of the write lock of an entry excludes everybody else: the
    mutex of the entry has the holder as its writer, no other goroutine holds
    the write lock of the entry, and none holds its read lock. *)
Theorem write_lock_excludes_all s t a :
  reachable s → holdsW (pc_of s t) = Some a →
  ∃ e, heap (st_mem s) !! a = Some e ∧ rw_writer (rwmutex e) = Some t ∧
       (∀ u, holdsW (pc_of s u) = Some a → u = t) ∧
       (∀ u, holdsR (pc_of s u) ≠ Some a).
Proof.
  intros Hr Hh. destruct (inv2_reachable s Hr) as (_ & Ht2 & _).
  destruct (inv_reachable s Hr) as [_ Ht].
  destruct (ti_holdsW _ _ _ (Ht t) a Hh) as (e & He & Hw).
  exists e. split; [done|]. split; [done|]. split.
  - intros u Hu. destruct (ti_holdsW _ _ _ (Ht u) a Hu) as (e' & He' & Hw'). congruence.
  - intros u Hu. destruct (ti_holdsR _ _ (Ht2 u) a Hu) as (e' & He' & Hw'). congruence.
Qed.

Lemma write_lock_excludes_all_witness :
  holdsW (pc_of (the (run k_acquire init)) 0%nat) = Some 0%nat ∧
  ∃ e, heap (st_mem (the (run k_acquire init))) !! 0%nat = Some e ∧
       rw_writer (rwmutex e) = Some 0%nat ∧
       (∀ u, holdsW (pc_of (the (run k_acquire init)) u) = Some 0%nat → u = 0%nat) ∧
       (∀ u, holdsR (pc_of (the (run k_acquire init)) u) ≠ Some 0%nat).
Proof.
  split; [vm_compute; reflexivity|].
  apply (write_lock_excludes_all (the (run k_acquire init)) 0%nat 0%nat);
    [by_run k_acquire|vm_compute; reflexivity].
Defined.

(** X2. The holder of the read lock of an entry excludes every writer: the
    mutex has no writer and at least one reader, and no goroutine holds its
    write lock. *)
Theorem read_lock_excludes_writers s t a :
  reachable s → holdsR (pc_of s t) = Some a →
  ∃ e, heap (st_mem s) !! a = Some e ∧ rw_writer (rwmutex e) = None ∧
       (1 ≤ rw_readers (rwmutex e))%nat ∧
       ∀ u, holdsW (pc_of s u) ≠ Some a.
Proof.
  intros Hr Hh. destruct (inv2_reachable s Hr) as (_ & Ht2 & Hc).
  destruct (inv_reachable s Hr) as [_ Ht].
  destruct (ti_holdsR _ _ (Ht2 t) a Hh) as (e & He & Hw).
  exists e. split; [done|]. split; [done|]. split.
  - pose proof (Hc a e [t] He ltac:(apply NoDup_singleton)) as Hle. simpl in Hle.
    unfold reads, readers_of in Hle. rewrite decide_True in Hle by done. lia.
  - intros u Hu. destruct (ti_holdsW _ _ _ (Ht u) a Hu) as (e' & He' & Hw'). congruence.
Qed.

Lemma read_lock_excludes_writers_witness :
  holdsR (pc_of (the (run k_racquired init)) 0%nat) = Some 0%nat ∧
  ∃ e, heap (st_mem (the (run k_racquired init))) !! 0%nat = Some e ∧
       rw_writer (rwmutex e) = None ∧ (1 ≤ rw_readers (rwmutex e))%nat ∧
       ∀ u, holdsW (pc_of (the (run k_racquired init)) u) ≠ Some 0%nat.
Proof.
  split; [vm_compute; reflexivity|].
  apply (read_lock_excludes_writers (the (run k_racquired init)) 0%nat 0%nat);
    [by_run k_racquired|vm_compute; reflexivity].
Defined.

(** X3. However many goroutines hold the read lock of an entry, the mutex
    counts at least as many readers. *)
Theorem read_holders_counted s a e l :
  reachable s → heap (st_mem s) !! a = Some e → NoDup l →
  Forall (λ t, holdsR (pc_of s t) = Some a) l →
  (length l ≤ rw_readers (rwmutex e))%nat.
Proof.
  intros Hr He Hnd Hall. destruct (inv2_reachable s Hr) as (_ & _ & Hc).
  pose proof (Hc a e l He Hnd) as Hle. unfold readers_of in Hle.
  assert (total (λ t, reads (pc_of s t) a) l = length l) as Heq.
  { clear -Hall. induction Hall as [|t l Ht _ IH]; simpl; [done|].
    unfold reads at 1. rewrite decide_True by done. by rewrite IH. }
  lia.
Qed.

Lemma read_holders_counted_witness :
  heap (st_mem (the (run k_two_readers init))) !! 0%nat =
    Some (mkNL "k"%string 2 0 0 (mkRW None 2)) ∧
  Forall (λ t, holdsR (pc_of (the (run k_two_readers init)) t) = Some 0%nat)
         [0%nat; 1%nat] ∧
  (length [0%nat; 1%nat] ≤ rw_readers (rwmutex (mkNL "k"%string 2 0 0 (mkRW None 2))))%nat.
Proof.
  assert (Forall (λ t, holdsR (pc_of (the (run k_two_readers init)) t) = Some 0%nat)
            [0%nat; 1%nat]) as Hall.
  { repeat constructor; vm_compute; reflexivity. }
  split; [vm_compute; reflexivity|]. split; [exact Hall|].
  apply (read_holders_counted (the (run k_two_readers init)) 0%nat
           (mkNL "k"%string 2 0 0 (mkRW None 2)) [0%nat; 1%nat]).
  - by_run k_two_readers.
  - vm_compute. reflexivity.
  - apply NoDup_cons. split; [|apply NoDup_singleton].
    intros H. apply list_elem_of_singleton in H. discriminate.
  - exact Hall.
Defined.

(** X4. The [locks] map is read and written only by the goroutine that holds
    [mapLock], of which there is one at most: a statement that looks up,
    inserts or deletes runs with the mutex held by its goroutine and nobody
    else between [Lock] and [Unlock], and the mutex is held exactly while its
    holder is between the two. *)
Theorem map_access_exclusive s t evs p' m' ev :
  reachable s →
  tstep t (pc_of s t) (st_mem s) (evs, p', m') → ev ∈ evs → map_access ev = true →
  mapLock (st_mem s) = Some t ∧
  (∀ u, mapLock (st_mem s) = Some u ↔ in_crit (pc_of s u) = true) ∧
  (∀ u, u ≠ t → in_crit (pc_of s u) = false).
Proof.
  intros Hr Hs Hin Hev. pose proof (inv_reachable s Hr) as [_ Ht].
  pose proof (map_access_in_crit _ _ _ _ _ _ _ Hs Hin Hev) as Hc.
  assert (mapLock (st_mem s) = Some t) as Hml by by apply (Ht t).
  split; [done|]. split.
  - intros u. split; intros H; by apply (Ht u).
  - intros u Hne. destruct (in_crit (pc_of s u)) eqn:E; [|done].
    apply (Ht u) in E. congruence.
Qed.

Lemma map_access_exclusive_witness :
  step 0%nat (pc_of (the (run k_lookup init)) 0%nat) (st_mem (the (run k_lookup init))) =
    Some ([ELookup "k"%string None], PAcquire "k"%string AcqNew, mkMem [] ∅ (Some 0%nat)) ∧
  mapLock (st_mem (the (run k_lookup init))) = Some 0%nat ∧
  (∀ u, mapLock (st_mem (the (run k_lookup init))) = Some u ↔
        in_crit (pc_of (the (run k_lookup init)) u) = true) ∧
  (∀ u, u ≠ 0%nat → in_crit (pc_of (the (run k_lookup init)) u) = false).
Proof.
  split; [vm_compute; reflexivity|].
  apply (map_access_exclusive (the (run k_lookup init)) 0%nat [ELookup "k"%string None]
           (PAcquire "k"%string AcqNew) (mkMem [] ∅ (Some 0%nat)) (ELookup "k"%string None)).
  - by_run k_lookup.
  - left. vm_compute. reflexivity.
  - apply list_elem_of_here.
  - reflexivity.
Defined.

(** X5. A goroutine works only on allocated entries, the map sends a name to an
    entry of that name, and the handle that [Acquire] or [RAcquire] is about
    to return for name [n] is an entry named [n]. *)
Theorem handle_has_name s :
  reachable s →
  (∀ n a, locks (st_mem s) !! n = Some a → named a n (st_mem s)) ∧
  (∀ t a, uses (pc_of s t) = Some a → is_Some (heap (st_mem s) !! a)) ∧
  (∀ t n evs a m',
     asks (pc_of s t) = Some n →
     step t (pc_of s t) (st_mem s) = Some (evs, PHoldW a, m') ∨
     step t (pc_of s t) (st_mem s) = Some (evs, PHoldR a, m') →
     named a n m').
Proof.
  intros Hr. destruct (inv2_reachable s Hr) as (Hm & Ht & _).
  split; [done|]. split.
  - intros t a Hu. destruct (ti_uses _ _ (Ht t) a Hu) as (e & He & _). by exists e.
  - intros t n evs a m' Ha Hs.
    assert (tstep t (pc_of s t) (st_mem s) (evs, PHoldW a, m') ∨
            tstep t (pc_of s t) (st_mem s) (evs, PHoldR a, m')) as Hs'.
    { destruct Hs; [left|right]; by left. }
    assert (uses (pc_of s t) = Some a) as Hu.
    { destruct (pc_of s t) as [| | |n0 q|n0 q| | | |]; simplify_eq/=;
        destruct Hs as [Hs|Hs]; destruct q; unfold Acquire, RAcquire in Hs;
        simpl in Hs; split_hyps; done. }
    destruct (ti_uses _ _ (Ht t) a Hu) as (e & He & Hn).
    destruct Hs' as [Hs'|Hs']; eapply tstep_named; try exact Hs';
      exists e; (split; [done|by apply Hn]).
Qed.

Lemma handle_has_name_witness :
  (∀ n a, locks (st_mem (the (run k_acquire init))) !! n = Some a →
          named a n (st_mem (the (run k_acquire init)))) ∧
  (∀ t a, uses (pc_of (the (run k_acquire init)) t) = Some a →
          is_Some (heap (st_mem (the (run k_acquire init))) !! a)) ∧
  (∀ t n evs a m',
     asks (pc_of (the (run k_acquire init)) t) = Some n →
     step t (pc_of (the (run k_acquire init)) t) (st_mem (the (run k_acquire init))) =
       Some (evs, PHoldW a, m') ∨
     step t (pc_of (the (run k_acquire init)) t) (st_mem (the (run k_acquire init))) =
       Some (evs, PHoldR a, m') →
     named a n m').
Proof. apply (handle_has_name (the (run k_acquire init))). by_run k_acquire. Defined.

(** ** No fatal error *)

(** X6. Under the clients' protocol no statement fails: there is no [Unlock] of
    an unlocked mutex, no [RUnlock] without a reader, no [close] of a closed
    channel, no send on a closed or full channel, no negative wait group and
    no missing entry.  A goroutine without a step is in no call, or its
    statement is one of those that wait ([waits], [waits_go]): a [Lock()],
    an [RLock()], the receive or the [Wait()], on an entry that is there.
    Whether the goroutines that wait are served in the end is not part of
    this. *)
Theorem no_fatal_error s t :
  reachable s →
  (step t (pc_of s t) (st_mem s) = None → waits (pc_of s t) (st_mem s)) ∧
  (step_go t (pc_of s t) (st_mem s) = None → waits_go (pc_of s t) (st_mem s)).
Proof.
  intros Hr. destruct (inv2_reachable s Hr) as (_ & Ht2 & Hc).
  destruct (inv_reachable s Hr) as [_ Ht].
  assert (∀ a e, holdsR (pc_of s t) = Some a → heap (st_mem s) !! a = Some e →
                 (1 ≤ rw_readers (rwmutex e))%nat) as Hrd.
  { intros a e Hh He. pose proof (Hc a e [t] He ltac:(apply NoDup_singleton)) as Hle.
    simpl in Hle. unfold reads, readers_of in Hle. rewrite decide_True in Hle by done. lia. }
  specialize (Ht t) as [Hcr Hw _ _]. specialize (Ht2 t) as [Hu _ Hz].
  revert Hcr Hw Hu Hz Hrd. generalize (st_mem s) as m. destruct (pc_of s t) as
    [|a|a|n q|n q|a q|a q|a|a c h ch wg]; intros m Hcr Hw Hu Hz Hrd; simpl in *.
  all: split; try done.
  all: try destruct c; try destruct h; try destruct q; try destruct r; simpl in *.
  all: unfold Acquire, RAcquire, Release, RRelease, Upgrade, Upgrade_go,
         mutex_Lock, mutex_Unlock, rw_Lock, rw_Unlock, rw_RLock, rw_RUnlock,
         atomic_AddInt32, atomic_StoreInt32, new_entry, delete_entry, lock_busy;
       simpl.
  all: try match type of Hz with _ ∧ _ => destruct Hz as [Hz1 Hz2] end.
  all: repeat match goal with
       | H : ∀ a, Some ?b = Some a → _ |- _ =>
           destruct (H b eq_refl) as (? & ? & ?); clear H
       | H : ∀ a e, Some ?b = Some a → _ |- _ =>
           specialize (λ e, H b e eq_refl)
       | H : true = true ↔ _ |- _ => destruct H as [H _]; specialize (H eq_refl)
       | H : _ ∧ _ |- _ => destruct H
       end; simplify_eq.
  all: repeat match goal with
       | H : heap _ !! _ = Some _ |- _ => rewrite H; simpl
       | H : mapLock _ = Some _ |- _ => rewrite H; simpl
       | H : rw_writer _ = Some _ |- _ => rewrite H; simpl
       end.
  all: repeat first [case_decide | case_match]; simplify_eq/=; try done.
  all: try (intros _; eexists; split; [done|]; simpl; eauto; fail).
  all: try (intros _; eexists; split; [done|]; simpl;
            first [ left; by eauto | right; congruence ]).
  all: try (pose proof (Hrd _ ltac:(eassumption)); lia).
Qed.

Lemma no_fatal_error_witness :
  step 1%nat (pc_of (the (run k_reader_after_writer init)) 1%nat)
       (st_mem (the (run k_reader_after_writer init))) = None ∧
  (step 1%nat (pc_of (the (run k_reader_after_writer init)) 1%nat)
        (st_mem (the (run k_reader_after_writer init))) = None →
   waits (pc_of (the (run k_reader_after_writer init)) 1%nat)
         (st_mem (the (run k_reader_after_writer init)))) ∧
  (step_go 1%nat (pc_of (the (run k_reader_after_writer init)) 1%nat)
           (st_mem (the (run k_reader_after_writer init))) = None →
   waits_go (pc_of (the (run k_reader_after_writer init)) 1%nat)
            (st_mem (the (run k_reader_after_writer init)))).
Proof.
  split; [vm_compute; reflexivity|].
  apply (no_fatal_error (the (run k_reader_after_writer init)) 1%nat).
  by_run k_reader_after_writer.
Defined.

(** ** Calls one after the other *)

Lemma lookup_snoc_last {A} (l : list A) x : (l ++ [x]) !! length l = Some x.
Proof. by rewrite list_lookup_middle. Qed.

Lemma alter_snoc_last {A} (f : A → A) (l : list A) x :
  alter f (length l) (l ++ [x]) = l ++ [f x].
Proof.
  replace (length l) with (length l + 0)%nat by lia. by rewrite alter_app_r.
Qed.

Ltac run_statements :=
  repeat first
    [ progress unfold atomic_StoreInt32, atomic_AddInt32, delete_entry, new_entry,
        rw_Unlock, rw_Lock, rw_RLock, rw_RUnlock, mutex_Lock, mutex_Unlock, upd, set_heap,
        set_locks, set_mapLock
    | rewrite lookup_snoc_last | rewrite alter_snoc_last
    | match goal with H : _ !! _ = _ |- _ => rewrite H end
    | match goal with H : _ ≠ _ |- _ => rewrite (decide_False _ _ H) end
    | rewrite decide_True by done
    | rewrite decide_False by done
    | progress cbn ].

(** [Acquire(n)] alone, the name not in the map, the map's mutex free. *)
Lemma Acquire_new_steps t n h l :
  n ≠ ""%string → l !! n = None →
  steps t 10 (PAcquire n AcqCheck) (mkMem h l None) =
  Some ([EMapLock; ELookup n None; ENew n (length h); EAdd (length h) 1 1; EMapUnlock;
         EStore (length h) 1; ELock (length h); ECountRd (length h) 0;
         ECountWr (length h) 1; ERet (ROk (length h))],
        PHoldW (length h),
        mkMem (h ++ [mkNL n 1 1 1 (mkRW (Some t) 0)]) (<[n := length h]> l) None).
Proof. intros Hn Hl. cbn. run_statements. reflexivity. Qed.

(** [Release()] alone by the only goroutine on an entry. *)
Lemma Release_last_steps t h l e :
  name e ≠ ""%string → queueSize e = 1 → rw_writer (rwmutex e) = Some t →
  steps t 7 (PRelease (length h) RelCheck) (mkMem (h ++ [e]) l None) =
  Some ([EStore (length h) 0; EAdd (length h) (-1) 0; EMapLock; EDelete (name e);
         EMapUnlock; EUnlock (length h); ERet RNil],
        PIdle,
        mkMem (h ++ [mkNL (name e) 0 0 (writeLockCount e)
                       (mkRW None (rw_readers (rwmutex e)))])
              (delete (name e) l) None).
Proof.
  intros Hn Hq Hw. destruct e as [n q wm wc [w r]]. simpl in *. subst.
  cbn. run_statements. reflexivity.
Qed.

(** A call and [k] statements of goroutine [t] with nobody else running:
    the other goroutines are where they were. *)
Lemma run_solo_frame t k s s' u :
  run (solo t k) s = Some s' → u ≠ t → st_threads s' u = st_threads s u.
Proof.
  revert s. induction k as [|k IH]; intros s H Hne; simplify_eq/=; [done|].
  destruct (step t _ _) as [[[evs p] m]|]; simplify_eq/=.
  rewrite (IH _ H Hne). simpl. by rewrite fn_lookup_insert_ne.
Qed.

Lemma run_solo_steps t k s evs p m :
  steps t k (pc_of s t) (st_mem s) = Some (evs, p, m) →
  ∃ s', run (solo t k) s = Some s' ∧ st_mem s' = m ∧ pc_of s' t = p ∧
        log_of s' t = log_of s t ++ evs ∧
        ∀ u, u ≠ t → st_threads s' u = st_threads s u.
Proof.
  intros H. destruct (run_solo t k s evs p m H) as (s' & Hrun & Hm & Hp & Hl).
  exists s'. repeat split; try done. intros u Hu. by eapply run_solo_frame.
Qed.

Lemma run_call_steps t c k s p evs p' m :
  begin (pc_of s t) c = Some p → steps t k p (st_mem s) = Some (evs, p', m) →
  ∃ s', run (Call t c :: solo t k) s = Some s' ∧ st_mem s' = m ∧ pc_of s' t = p' ∧
        log_of s' t = ECall c :: evs ∧
        ∀ u, u ≠ t → st_threads s' u = st_threads s u.
Proof.
  intros Hb H.
  destruct (run_solo_steps t k (set_thread t (mkThread p [ECall c]) s) evs p' m)
    as (s' & Hrun & Hm & Hp & Hl & Hfr).
  { unfold pc_of. simpl. rewrite fn_lookup_insert. done. }
  exists s'. split; [|split; [done|split; [done|split]]].
  - simpl. unfold pc_of in Hb. rewrite Hb. simpl. exact Hrun.
  - rewrite Hl. unfold log_of. simpl. by rewrite fn_lookup_insert.
  - intros u Hu. rewrite (Hfr u Hu). simpl. by rewrite fn_lookup_insert_ne.
Qed.

(** [Acquire(n)] on a name that is not in the map, then [Release()]. *)
Lemma Acquire_Release_run s t n :
  n ≠ ""%string → pc_of s t = PIdle → mapLock (st_mem s) = None →
  locks (st_mem s) !! n = None →
  ∃ s1 s2,
    run (Call t (CAcquire n) :: solo t 10) s = Some s1 ∧
    pc_of s1 t = PHoldW (length (heap (st_mem s))) ∧
    st_mem s1 = mkMem (heap (st_mem s) ++ [mkNL n 1 1 1 (mkRW (Some t) 0)])
                      (<[n := length (heap (st_mem s))]> (locks (st_mem s))) None ∧
    run (Call t CRelease :: solo t 7) s1 = Some s2 ∧
    pc_of s2 t = PIdle ∧
    st_mem s2 = mkMem (heap (st_mem s) ++ [mkNL n 0 0 1 (mkRW None 0)])
                      (locks (st_mem s)) None.
Proof.
  intros Hn Hp Hml Hl. destruct s as [[h l ml] th]. simpl in *. subst ml.
  destruct (run_call_steps t (CAcquire n) 10 (mkState (mkMem h l None) th) _ _ _ _
              ltac:(by rewrite Hp) (Acquire_new_steps t n h l Hn Hl))
    as (s1 & Hrun1 & Hm1 & Hp1 & _ & _).
  edestruct (run_call_steps t CRelease 7 s1 (PRelease (length h) RelCheck))
    as (s2 & Hrun2 & Hm2 & Hp2 & _ & _).
  { by rewrite Hp1. }
  { rewrite Hm1. by apply (Release_last_steps t h _ (mkNL n 1 1 1 (mkRW (Some t) 0))). }
  exists s1, s2. split; [done|]. split; [done|]. split; [done|].
  split; [done|]. split; [done|]. rewrite Hm2. simpl.
  by rewrite delete_insert_id.
Qed.

(** X7. [Acquire(n)] on a name that is not in the map, then [Release()], with
    nobody else running: the map is as it was, and so is its mutex.  The
    entry was created with [queueSize] 1, [writeLockMode] 1 and
    [writeLockCount] 1, and is left behind with 0, 0 and 1. *)
Theorem acquire_release_round_trip s t n :
  n ≠ ""%string → pc_of s t = PIdle → mapLock (st_mem s) = None →
  locks (st_mem s) !! n = None →
  ∃ s1 s2,
    run (Call t (CAcquire n) :: solo t 10) s = Some s1 ∧
    pc_of s1 t = PHoldW (length (heap (st_mem s))) ∧
    WriteLockMode s1 (length (heap (st_mem s))) = Some true ∧
    WriteLockCounter s1 (length (heap (st_mem s))) = Some 1 ∧
    locks (st_mem s1) = <[n := length (heap (st_mem s))]> (locks (st_mem s)) ∧
    run (Call t CRelease :: solo t 7) s1 = Some s2 ∧
    pc_of s2 t = PIdle ∧
    locks (st_mem s2) = locks (st_mem s) ∧ mapLock (st_mem s2) = None ∧
    heap (st_mem s2) = heap (st_mem s) ++ [mkNL n 0 0 1 (mkRW None 0)].
Proof.
  intros Hn Hp Hml Hl.
  destruct (Acquire_Release_run s t n Hn Hp Hml Hl)
    as (s1 & s2 & Hr1 & Hp1 & Hm1 & Hr2 & Hp2 & Hm2).
  exists s1, s2. unfold WriteLockMode, WriteLockCounter. rewrite Hm1, Hm2. simpl.
  rewrite lookup_snoc_last. done.
Qed.

Lemma acquire_release_round_trip_witness :
  pc_of init 0%nat = PIdle ∧ locks (st_mem init) !! "k"%string = None ∧
  ∃ s1 s2,
    run (Call 0%nat (CAcquire "k"%string) :: solo 0%nat 10) init = Some s1 ∧
    pc_of s1 0%nat = PHoldW 0%nat ∧
    WriteLockMode s1 0%nat = Some true ∧
    WriteLockCounter s1 0%nat = Some 1 ∧
    locks (st_mem s1) = <["k"%string := 0%nat]> (locks (st_mem init)) ∧
    run (Call 0%nat CRelease :: solo 0%nat 7) s1 = Some s2 ∧
    pc_of s2 0%nat = PIdle ∧
    locks (st_mem s2) = locks (st_mem init) ∧ mapLock (st_mem s2) = None ∧
    heap (st_mem s2) = [mkNL "k"%string 0 0 1 (mkRW None 0)].
Proof.
  split; [reflexivity|]. split; [reflexivity|].
  apply (acquire_release_round_trip init 0%nat "k"%string);
    [discriminate|reflexivity..].
Defined.

(** X8. After the release the name is free again: the next [Acquire(n)] creates
    another entry, whose [WriteLockCounter()] starts at 1 again. *)
Theorem fresh_entry_after_release s t n :
  n ≠ ""%string → pc_of s t = PIdle → mapLock (st_mem s) = None →
  locks (st_mem s) !! n = None →
  ∃ s',
    run ((Call t (CAcquire n) :: solo t 10) ++ (Call t CRelease :: solo t 7) ++
         (Call t (CAcquire n) :: solo t 10)) s = Some s' ∧
    pc_of s' t = PHoldW (S (length (heap (st_mem s)))) ∧
    locks (st_mem s') !! n = Some (S (length (heap (st_mem s)))) ∧
    WriteLockCounter s' (S (length (heap (st_mem s)))) = Some 1 ∧
    WriteLockCounter s' (length (heap (st_mem s))) = Some 1.
Proof.
  intros Hn Hp Hml Hl.
  destruct (Acquire_Release_run s t n Hn Hp Hml Hl)
    as (s1 & s2 & Hr1 & Hp1 & Hm1 & Hr2 & Hp2 & Hm2).
  destruct (Acquire_Release_run s2 t n Hn Hp2) as (s3 & _ & Hr3 & Hp3 & Hm3 & _);
    [by rewrite Hm2..|].
  exists s3. split.
  { rewrite run_app, Hr1. cbn [mbind option_bind].
    rewrite run_app, Hr2. cbn [mbind option_bind]. exact Hr3. }
  rewrite Hm2 in Hp3, Hm3. simpl in Hp3, Hm3. rewrite length_app in Hp3, Hm3.
  simpl in Hp3, Hm3. replace (length (heap (st_mem s)) + 1)%nat
    with (S (length (heap (st_mem s)))) in Hp3, Hm3 by lia.
  split; [done|]. unfold WriteLockCounter. rewrite Hm3. simpl.
  split; [by rewrite lookup_insert_eq|].
  split.
  - replace (S (length (heap (st_mem s))))
      with (length (heap (st_mem s) ++ [mkNL n 0 0 1 (mkRW None 0)])) at 1
      by (rewrite length_app; simpl; lia).
    by rewrite lookup_snoc_last.
  - rewrite lookup_app_l by (rewrite length_app; simpl; lia).
    by rewrite lookup_snoc_last.
Qed.

Lemma fresh_entry_after_release_witness :
  pc_of init 0%nat = PIdle ∧ locks (st_mem init) !! "k"%string = None ∧
  ∃ s',
    run ((Call 0%nat (CAcquire "k"%string) :: solo 0%nat 10) ++
         (Call 0%nat CRelease :: solo 0%nat 7) ++
         (Call 0%nat (CAcquire "k"%string) :: solo 0%nat 10)) init = Some s' ∧
    pc_of s' 0%nat = PHoldW 1%nat ∧
    locks (st_mem s') !! "k"%string = Some 1%nat ∧
    WriteLockCounter s' 1%nat = Some 1 ∧
    WriteLockCounter s' 0%nat = Some 1.
Proof.
  split; [reflexivity|]. split; [reflexivity|].
  apply (fresh_entry_after_release init 0%nat "k"%string);
    [discriminate|reflexivity..].
Defined.

(** ** One goroutine after another on one name *)

(** [Acquire(n)] up to [nl.Lock()], the entry in the map. *)
Lemma Acquire_found_steps u n h l n' wm wc rw :
  n ≠ ""%string → l !! n = Some (length h) →
  ∃ evs,
    steps u 6 (PAcquire n AcqCheck) (mkMem (h ++ [mkNL n' 1 wm wc rw]) l None) =
    Some (evs, PAcquire n (AcqLock (length h)),
          mkMem (h ++ [mkNL n' 2 1 wc rw]) l None).
Proof. intros Hn Hl. eexists. cbn. run_statements. reflexivity. Qed.

(** [nl.Lock()] and [nl.writeLockCount++], the mutex free. *)
Lemma Acquire_lock_steps u n h l n' q wm wc ml :
  ∃ evs,
    steps u 3 (PAcquire n (AcqLock (length h)))
      (mkMem (h ++ [mkNL n' q wm wc (mkRW None 0)]) l ml) =
    Some (evs, PHoldW (length h),
          mkMem (h ++ [mkNL n' q wm (wrap64 (wc + 1)) (mkRW (Some u) 0)]) l ml).
Proof. eexists. cbn. run_statements. reflexivity. Qed.

(** [Release()] with another goroutine counted on the entry. *)
Lemma Release_queued_steps t h l n' wm wc w r :
  n' ≠ ""%string →
  ∃ evs,
    steps t 4 (PRelease (length h) RelCheck)
      (mkMem (h ++ [mkNL n' 2 wm wc (mkRW (Some w) r)]) l None) =
    Some (evs, PIdle, mkMem (h ++ [mkNL n' 1 0 wc (mkRW None r)]) l None).
Proof. intros Hn. eexists. cbn. run_statements. reflexivity. Qed.

Lemma frame_pc s s' t u :
  (∀ v, v ≠ t → st_threads s' v = st_threads s v) → u ≠ t → pc_of s' u = pc_of s u.
Proof. intros H Hne. unfold pc_of. by rewrite H. Qed.

(** X9. A second [Acquire] of a name whose write lock is held: the caller is
    counted in [queueSize], which goes from 1 to 2, and stops at
    [nl.Lock()]; the holder's [Release()] takes [queueSize] back to 1,
    leaves the entry in the map and clears [writeLockMode]; the second
    caller then gets the same entry, with [WriteLockCounter()] 2 and
    [WriteLockMode()] false although it holds the write lock.  The entry is
    given in full after each of the four runs. *)
Theorem write_lock_hand_over s t u n :
  t ≠ u → n ≠ ""%string → pc_of s t = PIdle → pc_of s u = PIdle →
  mapLock (st_mem s) = None → locks (st_mem s) !! n = None →
  ∃ s1 s2 s3 s4,
    run (Call t (CAcquire n) :: solo t 10) s = Some s1 ∧
    pc_of s1 t = PHoldW (length (heap (st_mem s))) ∧
    run (Call u (CAcquire n) :: solo u 6) s1 = Some s2 ∧
    pc_of s2 u = PAcquire n (AcqLock (length (heap (st_mem s)))) ∧
    step u (pc_of s2 u) (st_mem s2) = None ∧
    run (Call t CRelease :: solo t 4) s2 = Some s3 ∧
    pc_of s3 t = PIdle ∧
    locks (st_mem s3) !! n = Some (length (heap (st_mem s))) ∧
    run (solo u 3) s3 = Some s4 ∧
    pc_of s4 u = PHoldW (length (heap (st_mem s))) ∧
    WriteLockCounter s4 (length (heap (st_mem s))) = Some 2 ∧
    WriteLockMode s4 (length (heap (st_mem s))) = Some false ∧
    heap (st_mem s1) !! length (heap (st_mem s)) =
      Some (mkNL n 1 1 1 (mkRW (Some t) 0)) ∧
    heap (st_mem s2) !! length (heap (st_mem s)) =
      Some (mkNL n 2 1 1 (mkRW (Some t) 0)) ∧
    heap (st_mem s3) !! length (heap (st_mem s)) =
      Some (mkNL n 1 0 1 (mkRW None 0)) ∧
    heap (st_mem s4) !! length (heap (st_mem s)) =
      Some (mkNL n 1 0 2 (mkRW (Some u) 0)).
Proof.
  intros Htu Hn Hpt Hpu Hml Hl. destruct s as [[h l ml] th]. simpl in *. subst ml.
  destruct (run_call_steps t (CAcquire n) 10 (mkState (mkMem h l None) th) _ _ _ _
              ltac:(by rewrite Hpt) (Acquire_new_steps t n h l Hn Hl))
    as (s1 & Hr1 & Hm1 & Hp1 & _ & Hf1).
  destruct (Acquire_found_steps u n h (<[n := length h]> l) n 1 1 (mkRW (Some t) 0) Hn)
    as [evs2 Hs2]; [by rewrite lookup_insert_eq|].
  edestruct (run_call_steps u (CAcquire n) 6 s1 (PAcquire n AcqCheck))
    as (s2 & Hr2 & Hm2 & Hp2 & _ & Hf2).
  { rewrite (frame_pc _ _ t u Hf1) by done. by rewrite Hpu. }
  { rewrite Hm1. exact Hs2. }
  destruct (Release_queued_steps t h (<[n := length h]> l) n 1 1 t 0%nat Hn)
    as [evs3 Hs3].
  edestruct (run_call_steps t CRelease 4 s2 (PRelease (length h) RelCheck))
    as (s3 & Hr3 & Hm3 & Hp3 & _ & Hf3).
  { rewrite (frame_pc _ _ u t Hf2) by done. by rewrite Hp1. }
  { rewrite Hm2. exact Hs3. }
  destruct (Acquire_lock_steps u n h (<[n := length h]> l) n 1 0 1 None) as [evs4 Hs4].
  edestruct (run_solo_steps u 3 s3) as (s4 & Hr4 & Hm4 & Hp4 & _ & _).
  { rewrite (frame_pc _ _ t u Hf3) by done. rewrite Hp2, Hm3. exact Hs4. }
  exists s1, s2, s3, s4.
  split; [done|]. split; [done|]. split; [done|]. split; [done|].
  split. { rewrite Hp2, Hm2. cbn. run_statements. reflexivity. }
  split; [done|]. split; [done|].
  split. { rewrite Hm3. simpl. by rewrite lookup_insert_eq. }
  split; [done|]. split; [done|].
  unfold WriteLockCounter, WriteLockMode. rewrite Hm1, Hm2, Hm3, Hm4. simpl.
  rewrite !lookup_snoc_last. done.
Qed.

Lemma write_lock_hand_over_witness :
  pc_of init 0%nat = PIdle ∧ pc_of init 1%nat = PIdle ∧
  locks (st_mem init) !! "k"%string = None ∧
  ∃ s1 s2 s3 s4,
    run (Call 0%nat (CAcquire "k"%string) :: solo 0%nat 10) init = Some s1 ∧
    pc_of s1 0%nat = PHoldW 0%nat ∧
    run (Call 1%nat (CAcquire "k"%string) :: solo 1%nat 6) s1 = Some s2 ∧
    pc_of s2 1%nat = PAcquire "k"%string (AcqLock 0%nat) ∧
    step 1%nat (pc_of s2 1%nat) (st_mem s2) = None ∧
    run (Call 0%nat CRelease :: solo 0%nat 4) s2 = Some s3 ∧
    pc_of s3 0%nat = PIdle ∧
    locks (st_mem s3) !! "k"%string = Some 0%nat ∧
    run (solo 1%nat 3) s3 = Some s4 ∧
    pc_of s4 1%nat = PHoldW 0%nat ∧
    WriteLockCounter s4 0%nat = Some 2 ∧
    WriteLockMode s4 0%nat = Some false ∧
    heap (st_mem s1) !! 0%nat = Some (mkNL "k"%string 1 1 1 (mkRW (Some 0%nat) 0)) ∧
    heap (st_mem s2) !! 0%nat = Some (mkNL "k"%string 2 1 1 (mkRW (Some 0%nat) 0)) ∧
    heap (st_mem s3) !! 0%nat = Some (mkNL "k"%string 1 0 1 (mkRW None 0)) ∧
    heap (st_mem s4) !! 0%nat = Some (mkNL "k"%string 1 0 2 (mkRW (Some 1%nat) 0)).
Proof.
  split; [reflexivity|]. split; [reflexivity|]. split; [reflexivity|].
  apply (write_lock_hand_over init 0%nat 1%nat "k"%string);
    [discriminate|discriminate|reflexivity..].
Defined.

(** [RAcquire(n)] alone, the name not in the map. *)
Lemma RAcquire_new_steps t n h l :
  n ≠ ""%string → l !! n = None →
  ∃ evs,
    steps t 8 (PRAcquire n RAcqCheck) (mkMem h l None) =
    Some (evs, PHoldR (length h),
          mkMem (h ++ [mkNL n 1 0 0 (mkRW None 1)]) (<[n := length h]> l) None).
Proof. intros Hn Hl. eexists. cbn. run_statements. reflexivity. Qed.

(** [RAcquire(n)], the entry in the map and no writer on it. *)
Lemma RAcquire_found_steps u n h l n' wm wc r :
  n ≠ ""%string → l !! n = Some (length h) →
  ∃ evs,
    steps u 7 (PRAcquire n RAcqCheck)
      (mkMem (h ++ [mkNL n' 1 wm wc (mkRW None r)]) l None) =
    Some (evs, PHoldR (length h),
          mkMem (h ++ [mkNL n' 2 0 wc (mkRW None (S r))]) l None).
Proof. intros Hn Hl. eexists. cbn. run_statements. reflexivity. Qed.

(** [RRelease()] with another goroutine counted on the entry. *)
Lemma RRelease_queued_steps t h l n' wm wc w r :
  n' ≠ ""%string →
  ∃ evs,
    steps t 3 (PRRelease (length h) RRelCheck)
      (mkMem (h ++ [mkNL n' 2 wm wc (mkRW w (S r))]) l None) =
    Some (evs, PIdle, mkMem (h ++ [mkNL n' 1 wm wc (mkRW w r)]) l None).
Proof. intros Hn. eexists. cbn. run_statements. reflexivity. Qed.

(** [RRelease()] by the only goroutine counted on the entry. *)
Lemma RRelease_last_steps t h l n' wm wc w r :
  n' ≠ ""%string →
  ∃ evs,
    steps t 6 (PRRelease (length h) RRelCheck)
      (mkMem (h ++ [mkNL n' 1 wm wc (mkRW w (S r))]) l None) =
    Some (evs, PIdle, mkMem (h ++ [mkNL n' 0 wm wc (mkRW w r)]) (delete n' l) None).
Proof. intros Hn. eexists. cbn. run_statements. reflexivity. Qed.

(** X10. Two goroutines read-lock one name: both get the entry of the first, the
    second without waiting; the first [RRelease()] leaves the entry in the
    map, the last one removes it, and the map is as it was at the start. *)
Theorem read_lock_shared s t u n :
  t ≠ u → n ≠ ""%string → pc_of s t = PIdle → pc_of s u = PIdle →
  mapLock (st_mem s) = None → locks (st_mem s) !! n = None →
  ∃ s1 s2 s3 s4,
    run (Call t (CRAcquire n) :: solo t 8) s = Some s1 ∧
    run (Call u (CRAcquire n) :: solo u 7) s1 = Some s2 ∧
    pc_of s2 t = PHoldR (length (heap (st_mem s))) ∧
    pc_of s2 u = PHoldR (length (heap (st_mem s))) ∧
    WriteLockMode s2 (length (heap (st_mem s))) = Some false ∧
    run (Call t CRRelease :: solo t 3) s2 = Some s3 ∧
    pc_of s3 t = PIdle ∧
    locks (st_mem s3) !! n = Some (length (heap (st_mem s))) ∧
    run (Call u CRRelease :: solo u 6) s3 = Some s4 ∧
    pc_of s4 u = PIdle ∧
    locks (st_mem s4) = locks (st_mem s) ∧ mapLock (st_mem s4) = None ∧
    heap (st_mem s4) = (heap (st_mem s) ++ [mkNL n 0 0 0 (mkRW None 0)])%list.
Proof.
  intros Htu Hn Hpt Hpu Hml Hl. destruct s as [[h l ml] th]. simpl in *. subst ml.
  destruct (RAcquire_new_steps t n h l Hn Hl) as [evs1 Hs1].
  destruct (run_call_steps t (CRAcquire n) 8 (mkState (mkMem h l None) th) _ _ _ _
              ltac:(by rewrite Hpt) Hs1)
    as (s1 & Hr1 & Hm1 & Hp1 & _ & Hf1).
  destruct (RAcquire_found_steps u n h (<[n := length h]> l) n 0 0 1%nat Hn)
    as [evs2 Hs2]; [by rewrite lookup_insert_eq|].
  edestruct (run_call_steps u (CRAcquire n) 7 s1 (PRAcquire n RAcqCheck))
    as (s2 & Hr2 & Hm2 & Hp2 & _ & Hf2).
  { rewrite (frame_pc _ _ t u Hf1) by done. by rewrite Hpu. }
  { rewrite Hm1. exact Hs2. }
  destruct (RRelease_queued_steps t h (<[n := length h]> l) n 0 0 None 1%nat Hn)
    as [evs3 Hs3].
  edestruct (run_call_steps t CRRelease 3 s2 (PRRelease (length h) RRelCheck))
    as (s3 & Hr3 & Hm3 & Hp3 & _ & Hf3).
  { rewrite (frame_pc _ _ u t Hf2) by done. by rewrite Hp1. }
  { rewrite Hm2. exact Hs3. }
  destruct (RRelease_last_steps u h (<[n := length h]> l) n 0 0 None 0%nat Hn)
    as [evs4 Hs4].
  edestruct (run_call_steps u CRRelease 6 s3 (PRRelease (length h) RRelCheck))
    as (s4 & Hr4 & Hm4 & Hp4 & _ & _).
  { rewrite (frame_pc _ _ t u Hf3) by done. by rewrite Hp2. }
  { rewrite Hm3. exact Hs4. }
  exists s1, s2, s3, s4.
  split; [done|]. split; [done|].
  split. { rewrite (frame_pc _ _ u t Hf2) by done. done. }
  split; [done|].
  split. { unfold WriteLockMode. rewrite Hm2. simpl. by rewrite lookup_snoc_last. }
  split; [done|]. split; [done|].
  split. { rewrite Hm3. simpl. by rewrite lookup_insert_eq. }
  split; [done|]. split; [done|]. rewrite Hm4. simpl.
  by rewrite delete_insert_id.
Qed.

Lemma read_lock_shared_witness :
  pc_of init 0%nat = PIdle ∧ pc_of init 1%nat = PIdle ∧
  locks (st_mem init) !! "k"%string = None ∧
  ∃ s1 s2 s3 s4,
    run (Call 0%nat (CRAcquire "k"%string) :: solo 0%nat 8) init = Some s1 ∧
    run (Call 1%nat (CRAcquire "k"%string) :: solo 1%nat 7) s1 = Some s2 ∧
    pc_of s2 0%nat = PHoldR 0%nat ∧
    pc_of s2 1%nat = PHoldR 0%nat ∧
    WriteLockMode s2 0%nat = Some false ∧
    run (Call 0%nat CRRelease :: solo 0%nat 3) s2 = Some s3 ∧
    pc_of s3 0%nat = PIdle ∧
    locks (st_mem s3) !! "k"%string = Some 0%nat ∧
    run (Call 1%nat CRRelease :: solo 1%nat 6) s3 = Some s4 ∧
    pc_of s4 1%nat = PIdle ∧
    locks (st_mem s4) = locks (st_mem init) ∧ mapLock (st_mem s4) = None ∧
    heap (st_mem s4) = [mkNL "k"%string 0 0 0 (mkRW None 0)].
Proof.
  split; [reflexivity|]. split; [reflexivity|]. split; [reflexivity|].
  apply (read_lock_shared init 0%nat 1%nat "k"%string);
    [discriminate|discriminate|reflexivity..].
Defined.

(** ** The counter of write locks *)

Lemma wrap64_add_l x y : wrap64 (wrap64 x + y) = wrap64 (x + y).
Proof.
  unfold wrap64. f_equal.
  replace ((x + 9223372036854775808) mod 18446744073709551616 - 9223372036854775808
           + y + 9223372036854775808)
    with ((x + 9223372036854775808) mod 18446744073709551616 + y) by lia.
  replace (x + y + 9223372036854775808) with (x + 9223372036854775808 + y) by lia.
  by rewrite Zplus_mod_idemp_l.
Qed.

(** X11. Entries are never freed or renamed, and [writeLockCount] only counts
    up: a run of [k] steps leaves [writeLockCount] where it was plus some
    number up to [k], as an [int]. *)
Theorem write_counter_counts_up sched s s' a e :
  reachable s → run sched s = Some s' → heap (st_mem s) !! a = Some e →
  ∃ e' k, heap (st_mem s') !! a = Some e' ∧ name e' = name e ∧
    (k ≤ length sched)%nat ∧
    writeLockCount e' = wrap64 (writeLockCount e + Z.of_nat k).
Proof.
  intros Hr. apply inv_reachable in Hr. revert Hr.
  revert s e. induction sched as [|x sched IH]; intros s e Hi Hrun He; simplify_eq/=.
  { exists e, O. split; [done|]. split; [done|]. split; [done|].
    rewrite Z.add_0_r, wrap64_id; [done|]. destruct Hi as [Hm _].
    by apply Hm in He as [_ ?]. }
  destruct (exec1 x s) as [s1|] eqn:E; simplify_eq/=.
  pose proof (inv_exec1 _ _ _ Hi E) as Hi1.
  apply exec1_cases in E as [(c & p' & _ & _ & ->)|(evs & p' & m' & _ & Hs & ->)].
  { destruct (IH _ e Hi1 Hrun He) as (e' & k & ? & ? & ? & ?).
    exists e', k. split; [done|]. split; [done|]. split; [lia|done]. }
  destruct Hi as [Hm Ht].
  destruct (tstep_count _ _ _ _ _ _ a e Hs (Ht _) He) as (e1 & He1 & Hc).
  destruct (tstep_named a (name e) _ _ _ _ _ _ Hs) as (e1' & He1' & Hn1);
    [by exists e|]. simpl in *. simplify_eq.
  destruct (IH _ e1 Hi1 Hrun He1) as (e' & k & He' & Hn' & Hk & Hw).
  destruct Hc as [Hc|(Hc & _)].
  - exists e', k. split; [done|]. split; [congruence|]. split; [lia|]. by rewrite <-Hc.
  - exists e', (S k). split; [done|]. split; [congruence|]. split; [lia|].
    rewrite Hw, Hc, wrap64_add_l. f_equal. lia.
Qed.

Lemma write_counter_counts_up_witness :
  heap (st_mem (the (run k_acquire init))) !! 0%nat =
    Some (mkNL "k"%string 1 1 1 (mkRW (Some 0%nat) 0)) ∧
  ∃ e' k,
    heap (st_mem (the (run (Call 0%nat CRelease :: solo 0%nat 7)
                           (the (run k_acquire init))))) !! 0%nat = Some e' ∧
    name e' = "k"%string ∧ (k ≤ 8)%nat ∧ writeLockCount e' = wrap64 (1 + Z.of_nat k).
Proof.
  split; [vm_compute; reflexivity|].
  apply (write_counter_counts_up (Call 0%nat CRelease :: solo 0%nat 7)
           (the (run k_acquire init))
           (the (run (Call 0%nat CRelease :: solo 0%nat 7) (the (run k_acquire init))))
           0%nat (mkNL "k"%string 1 1 1 (mkRW (Some 0%nat) 0)));
    [by_run k_acquire|vm_compute; reflexivity..].
Defined.

(** ** [queueSize] counts goroutines *)

Lemma wrap32_id z : -2147483648 ≤ z < 2147483648 → wrap32 z = z.
Proof. intros H. unfold wrap32. rewrite Z.mod_small; lia. Qed.

Ltac weigh_refs :=
  unfold refs in *; inv2_simpl; rewrite ?wrap32_id by lia;
  repeat case_decide; simplify_eq/=; try lia.

Lemma tstep_refs t p m evs p' m' a e' :
  tstep t p m (evs, p', m') → heap m' !! a = Some e' → rendezvous p →
  (∀ e, heap m !! a = Some e → Z.of_nat (refs p a) ≤ queueSize e < 2147483647) →
  (∃ e, heap m !! a = Some e ∧
        Z.of_nat (refs p' a) - Z.of_nat (refs p a) ≤ queueSize e' - queueSize e ∧
        queueSize e' ≤ queueSize e + 1) ∨
  (heap m !! a = None ∧ queueSize e' = 0 ∧ refs p' a = O).
Proof.
  intros H. inv_step H; intros He' Hz Hb; inv2_simpl.
  all: try (left; exists e'; split; [done|]; specialize (Hb e' He'); by weigh_refs).
  all: try (left; exists e'; split; [done|]; specialize (Hb e' He');
            destruct c; by weigh_refs).
  all: try (left; exists e'; split; [done|]; specialize (Hb e' He');
            destruct h; by weigh_refs).
  all: try (left; exists e'; split; [done|]; specialize (Hb e' He');
            destruct Hz as [_ Hz]; destruct h; by weigh_refs).
  all: try match goal with He' : alter _ ?b _ !! ?c = Some _ |- _ =>
         left; destruct (decide (b = c)) as [->|];
         [ rewrite list_lookup_alter_eq in He';
           match goal with H : heap _ !! c = Some _ |- _ =>
             rewrite H in He'; specialize (Hb _ H) end;
           simplify_eq/=; eexists; split; [done|];
           first [by weigh_refs|destruct c; by weigh_refs|destruct h; by weigh_refs]
         | rewrite list_lookup_alter_ne in He' by done;
           exists e'; split; [done|]; specialize (Hb e' He');
           first [by weigh_refs|destruct c; by weigh_refs|destruct h; by weigh_refs] ]
       end.
  all: try (apply lookup_app_Some in He' as [He'|[Hlen He']];
            [ left; exists e'; split; [done|]; specialize (Hb e' He'); by weigh_refs
            | right; apply list_lookup_singleton_Some in He' as [_ <-];
              split; [by apply lookup_ge_None_2|]; split; [done|]; by weigh_refs ]).
  all: left; destruct (decide (a0 = a)) as [->|];
    [ rewrite list_lookup_alter_eq in He'; destruct (heap m !! a) as [e|] eqn:E;
      simplify_eq/=; exists e; split; [done|]; specialize (Hb e eq_refl);
      first [by weigh_refs|destruct c; by weigh_refs]
    | rewrite list_lookup_alter_ne in He' by done;
      exists e'; split; [done|]; specialize (Hb e' He');
      first [by weigh_refs|destruct c; by weigh_refs] ].
Qed.

(** Nobody is counted on an entry that is not allocated. *)
Lemma refs_unallocated m p a :
  thread_inv2 m p → heap m !! a = None → refs p a = O.
Proof.
  intros [Hu _ _] Hn. destruct (refs p a) eqn:E; [done|].
  assert (uses p = Some a) as Hh.
  { unfold refs in E. destruct p as [| | |? q|? q|? q|? q| |]; try destruct q;
      simpl in *; try case_decide; simplify_eq/=; done. }
  destruct (Hu a Hh) as (e & He & _). congruence.
Qed.

Lemma queued_exec1 k x s s' :
  inv2 s → queued k s → 0 ≤ k < 2147483647 → exec1 x s = Some s' →
  queued (k + 1) s'.
Proof.
  intros (Hm & Ht & _) [Hk Hc] Hlt H.
  apply exec1_cases in H as [(c & p' & _ & Hb & ->)|(evs & p' & m' & _ & Hs & ->)].
  - split; [intros a e He; specialize (Hk a e He); lia|].
    apply counted_by_call; [done|]. intros a.
    destruct (pc_of s (actor x)), c; by simplify_eq/=.
  - assert (∀ a e', heap m' !! a = Some e' →
      (∃ e, heap (st_mem s) !! a = Some e ∧
        Z.of_nat (refs p' a) - Z.of_nat (refs (pc_of s (actor x)) a)
          ≤ queueSize e' - queueSize e ∧
        queueSize e' ≤ queueSize e + 1) ∨
      (heap (st_mem s) !! a = None ∧ queueSize e' = 0 ∧ refs p' a = O)) as Hstep.
    { intros a e' He'. eapply tstep_refs; [done|done|apply Ht|].
      intros e He. specialize (Hk a e He).
      pose proof (Hc a e [actor x] He ltac:(apply NoDup_singleton)) as Hle.
      simpl in Hle. lia. }
    split.
    + intros a e' He'. simpl in He'.
      destruct (Hstep a e' He') as [(e & He & _ & Hd)|(_ & H0 & _)]; [|lia].
      specialize (Hk a e He). lia.
    + apply counted_by_step; [done|]. intros a e' He'.
      destruct (Hstep a e' He') as [(e & He & Hd & _)|(Hn & H0 & Hp0)].
      * left. by exists e.
      * right. split; [lia|]. split; [done|]. intros u.
        by apply (refs_unallocated (st_mem s)).
Qed.

Lemma reachable_exec1 x s s' : reachable s → exec1 x s = Some s' → reachable s'.
Proof.
  intros [sched H] E. exists (sched ++ [x])%list. rewrite run_app, H. simpl.
  by rewrite E.
Qed.

Lemma queued_run sched k s s' :
  reachable s → queued k s → 0 ≤ k → k + Z.of_nat (length sched) < 2147483648 →
  run sched s = Some s' → queued (k + Z.of_nat (length sched)) s'.
Proof.
  revert k s. induction sched as [|x sched IH]; intros k s Hr Hq H0 Hlt Hrun;
    simplify_eq/=.
  { by rewrite Z.add_0_r. }
  destruct (exec1 x s) as [s1|] eqn:E; simplify_eq/=.
  replace (k + Z.of_nat (S (length sched))) with (k + 1 + Z.of_nat (length sched)) by lia.
  apply (IH (k + 1) s1); [by eapply reachable_exec1| |lia|lia|done].
  apply (queued_exec1 k x s); [by apply inv2_reachable|done|lia|done].
Qed.

Lemma queued_init : queued 0 init.
Proof. split; intros a e; simpl; by rewrite lookup_nil. Qed.

Lemma queued_reachable sched s :
  run sched init = Some s → Z.of_nat (length sched) < 2147483648 →
  queued (Z.of_nat (length sched)) s.
Proof.
  intros Hrun Hlt.
  apply (queued_run sched 0 init s); [by exists []|apply queued_init|done|lia|done].
Qed.

Lemma total_ones (w : tid → nat) l : Forall (λ t, (1 ≤ w t)%nat) l → (length l ≤ total w l)%nat.
Proof. induction 1; simpl; lia. Qed.

(** X12. [queueSize] counts the goroutines on an entry: in a state reached by
    fewer than [2^31] steps, however many goroutines have incremented
    [queueSize] of an entry and not yet decremented it (they wait for its
    lock, hold it, or are about to release it), [queueSize] is at least
    their number. *)
Theorem queueSize_counts_goroutines sched s a e l :
  run sched init = Some s → Z.of_nat (length sched) < 2147483648 →
  heap (st_mem s) !! a = Some e → NoDup l →
  Forall (λ t, (1 ≤ refs (pc_of s t) a)%nat) l →
  Z.of_nat (length l) ≤ queueSize e ≤ Z.of_nat (length sched).
Proof.
  intros Hrun Hlt He Hnd Hall.
  destruct (queued_reachable sched s Hrun Hlt) as [Hk Hc].
  split; [|by apply (Hk a e)].
  pose proof (Hc a e l He Hnd) as Hle.
  pose proof (total_ones (λ t, refs (pc_of s t) a) l Hall). lia.
Qed.

Lemma queueSize_counts_goroutines_witness :
  heap (st_mem (the (run k_two_readers init))) !! 0%nat =
    Some (mkNL "k"%string 2 0 0 (mkRW None 2)) ∧
  Forall (λ t, (1 ≤ refs (pc_of (the (run k_two_readers init)) t) 0%nat)%nat)
         [0%nat; 1%nat] ∧
  (Z.of_nat (length [0%nat; 1%nat]) ≤ queueSize (mkNL "k"%string 2 0 0 (mkRW None 2))
     ≤ Z.of_nat (length k_two_readers))%Z.
Proof.
  assert (Forall (λ t, (1 ≤ refs (pc_of (the (run k_two_readers init)) t) 0%nat)%nat)
            [0%nat; 1%nat]) as Hall.
  { repeat constructor. }
  split; [vm_compute; reflexivity|]. split; [exact Hall|].
  apply (queueSize_counts_goroutines k_two_readers (the (run k_two_readers init)) 0%nat
           (mkNL "k"%string 2 0 0 (mkRW None 2)) [0%nat; 1%nat]).
  - vm_compute. reflexivity.
  - vm_compute. reflexivity.
  - vm_compute. reflexivity.
  - apply NoDup_cons. split; [|apply NoDup_singleton].
    intros H. apply list_elem_of_singleton in H. discriminate.
  - exact Hall.
Defined.

(** X13. The decrement of [Release] or [RRelease] does not give 0 while another
    goroutine is counted on the entry: the call goes on to unlock, without
    a statement on the map. *)
Theorem release_keeps_counted_entry sched s t u a evs p' m' :
  run sched init = Some s → Z.of_nat (length sched) < 2147483648 → t ≠ u →
  pc_of s t = PRelease a RelAdd ∨ pc_of s t = PRRelease a RRelAdd →
  (1 ≤ refs (pc_of s u) a)%nat →
  step t (pc_of s t) (st_mem s) = Some (evs, p', m') →
  (p' = PRelease a RelUnlock ∨ p' = PRRelease a RRelRUnlock) ∧
  locks m' = locks (st_mem s) ∧ mapLock m' = mapLock (st_mem s) ∧
  ∃ qs, evs = [EAdd a (-1) qs] ∧ 1 ≤ qs.
Proof.
  intros Hrun Hlt Hne Hp Hu Hs.
  destruct (queued_reachable sched s Hrun Hlt) as [Hk Hc].
  assert (∃ e, heap (st_mem s) !! a = Some e) as [e He].
  { destruct (inv2_reachable s) as (_ & Ht & _); [by exists sched|].
    destruct (ti_uses _ _ (Ht t) a) as (e & He & _); [by destruct Hp as [->| ->]|].
    by exists e. }
  assert (2 ≤ queueSize e < 2147483648) as Hq.
  { split; [|specialize (Hk a e He); lia].
    assert (NoDup [t; u]) as Hnd.
    { apply NoDup_cons. split; [|apply NoDup_singleton].
      by intros ->%list_elem_of_singleton. }
    pose proof (Hc a e [t; u] He Hnd) as Hle. simpl in Hle.
    assert (refs (pc_of s t) a = 1%nat) as Ht.
    { destruct Hp as [->| ->]; simpl; by rewrite decide_True. }
    lia. }
  destruct Hp as [Hp|Hp]; rewrite Hp in Hs; simpl in Hs;
    unfold atomic_AddInt32 in Hs; rewrite He in Hs; simpl in Hs;
    rewrite wrap32_id in Hs by lia;
    rewrite decide_False in Hs by lia; simplify_eq/=.
  - split; [by left|]. split; [done|]. split; [done|]. eexists. split; [done|]. lia.
  - split; [by right|]. split; [done|]. split; [done|]. eexists. split; [done|]. lia.
Qed.

Lemma release_keeps_counted_entry_witness :
  pc_of (the (run k_release_queued init)) 0%nat = PRelease 0%nat RelAdd ∧
  pc_of (the (run k_release_queued init)) 1%nat = PAcquire "k"%string (AcqLock 0%nat) ∧
  step 0%nat (pc_of (the (run k_release_queued init)) 0%nat)
       (st_mem (the (run k_release_queued init))) =
    Some ([EAdd 0%nat (-1) 1], PRelease 0%nat RelUnlock,
          mkMem [mkNL "k"%string 1 0 1 (mkRW (Some 0%nat) 0)] {["k"%string := 0%nat]} None) ∧
  (PRelease 0%nat RelUnlock = PRelease 0%nat RelUnlock ∨
   PRelease 0%nat RelUnlock = PRRelease 0%nat RRelRUnlock) ∧
  locks (mkMem [mkNL "k"%string 1 0 1 (mkRW (Some 0%nat) 0)] {["k"%string := 0%nat]} None) =
    locks (st_mem (the (run k_release_queued init))) ∧
  mapLock (mkMem [mkNL "k"%string 1 0 1 (mkRW (Some 0%nat) 0)] {["k"%string := 0%nat]} None) =
    mapLock (st_mem (the (run k_release_queued init))) ∧
  ∃ qs, [EAdd 0%nat (-1) 1] = [EAdd 0%nat (-1) qs] ∧ (1 ≤ qs)%Z.
Proof.
  split; [vm_compute; reflexivity|]. split; [vm_compute; reflexivity|].
  split; [vm_compute; reflexivity|].
  apply (release_keeps_counted_entry k_release_queued (the (run k_release_queued init))
           0%nat 1%nat 0%nat).
  - vm_compute. reflexivity.
  - vm_compute. reflexivity.
  - discriminate.
  - left. vm_compute. reflexivity.
  - vm_compute. apply le_n.
  - vm_compute. reflexivity.
Defined.

Lemma tstep_off_map t p m evs p' m' :
  tstep t p m (evs, p', m') → off_map p → rendezvous p →
  (∀ a e, heap m !! a = Some e → Z.of_nat (refs p a) ≤ queueSize e < 2147483648) →
  off_map p'.
Proof.
  intros H. inv_step H; simpl; intros Ho Hz Hb; try done.
  all: try (by destruct c).
  match goal with H : heap _ !! _ = Some ?e |- _ => specialize (Hb _ _ H) end.
  rewrite decide_True in Hb by done. destruct Hz as [Hz _].
  assert (2 ≤ queueSize x1) as Hq by (destruct h; naive_solver lia).
  rewrite wrap32_id by lia. by rewrite decide_False by lia.
Qed.

Lemma off_map_run sched k s s' :
  reachable s → queued k s → 0 ≤ k → k + Z.of_nat (length sched) < 2147483648 →
  (∀ t, off_map (pc_of s t)) → run sched s = Some s' → ∀ t, off_map (pc_of s' t).
Proof.
  revert k s. induction sched as [|x sched IH]; intros k s Hr Hq H0 Hlt Ho Hrun;
    simplify_eq/=; [done|].
  destruct (exec1 x s) as [s1|] eqn:E; simplify_eq/=.
  apply (IH (k + 1) s1); [by eapply reachable_exec1| |lia|lia| |done].
  { apply (queued_exec1 k x s); [by apply inv2_reachable|done|lia|done]. }
  destruct (inv2_reachable s Hr) as (_ & Ht & _). destruct Hq as [Hk Hc].
  apply exec1_cases in E as [(c & p' & _ & Hb & ->)|(evs & p' & m' & _ & Hs & ->)];
    intros u; unfold pc_of, set_thread; simpl.
  - destruct (decide (actor x = u)) as [<-|Hne].
    + rewrite fn_lookup_insert. simpl. by destruct (pc_of s (actor x)), c; simplify_eq/=.
    + rewrite fn_lookup_insert_ne by done. apply Ho.
  - destruct (decide (actor x = u)) as [<-|Hne].
    + rewrite fn_lookup_insert. simpl.
      eapply tstep_off_map; [done|apply Ho|apply Ht|].
      intros a e He. specialize (Hk a e He).
      pose proof (Hc a e [actor x] He ltac:(apply NoDup_singleton)) as Hle.
      simpl in Hle. lia.
    + rewrite fn_lookup_insert_ne by done. apply Ho.
Qed.

Lemma tstep_upgrade_free t p m evs p' m' :
  tstep t p m (evs, p', m') → off_map p →
  (∃ a c h ch wg, p = PUpgrade a c h ch wg) → map_free evs = true.
Proof.
  intros H. inv_step H; simpl; intros Ho (? & ? & ? & ? & ? & ?); by simplify_eq.
Qed.

(** X14. [Upgrade] does not remove the entry from the map: in a state reached by
    fewer than [2^31] steps, no statement of an [Upgrade], of the caller or
    of the goroutine it starts, is an operation on the map or its mutex.
    The decrement of its [RRelease] does not give 0, because the started
    goroutine has incremented [queueSize] before. *)
Theorem upgrade_keeps_entry_in_map sched s t a c h ch wg evs p' m' :
  run sched init = Some s → Z.of_nat (length sched) < 2147483648 →
  pc_of s t = PUpgrade a c h ch wg →
  tstep t (pc_of s t) (st_mem s) (evs, p', m') →
  map_free evs = true ∧ locks m' = locks (st_mem s) ∧
  mapLock m' = mapLock (st_mem s) ∧
  c ≠ UpgRRelease RRelMapLock ∧ c ≠ UpgRRelease RRelDelete ∧
  c ≠ UpgRRelease RRelMapUnlock.
Proof.
  intros Hrun Hlt Hp Hs.
  pose proof (off_map_run sched 0 init s ltac:(by exists []) queued_init
                ltac:(done) ltac:(lia) ltac:(done) Hrun t) as Ho.
  assert (map_free evs = true) as Hf.
  { eapply tstep_upgrade_free; [done|done|]. rewrite Hp. by eexists _, _, _, _, _. }
  split; [done|]. destruct (tstep_map_free _ _ _ _ _ _ Hs Hf) as [Hl Hml].
  split; [done|]. split; [done|]. rewrite Hp in Ho. simpl in Ho.
  repeat split; intros ->; done.
Qed.

Lemma upgrade_keeps_entry_in_map_witness :
  pc_of (the (run k_upgrade_decrement init)) 0%nat =
    PUpgrade 0%nat (UpgRRelease RRelAdd) HStore ChClosed 1 ∧
  map_free [EAdd 0%nat (-1) 1] = true ∧
  locks (mkMem [mkNL "k"%string 1 0 0 (mkRW None 1)] {["k"%string := 0%nat]} None) =
    locks (st_mem (the (run k_upgrade_decrement init))) ∧
  mapLock (mkMem [mkNL "k"%string 1 0 0 (mkRW None 1)] {["k"%string := 0%nat]} None) =
    mapLock (st_mem (the (run k_upgrade_decrement init))) ∧
  UpgRRelease RRelAdd ≠ UpgRRelease RRelMapLock ∧
  UpgRRelease RRelAdd ≠ UpgRRelease RRelDelete ∧
  UpgRRelease RRelAdd ≠ UpgRRelease RRelMapUnlock.
Proof.
  split; [vm_compute; reflexivity|].
  apply (upgrade_keeps_entry_in_map k_upgrade_decrement
           (the (run k_upgrade_decrement init)) 0%nat 0%nat (UpgRRelease RRelAdd)
           HStore ChClosed 1%nat [EAdd 0%nat (-1) 1]
           (PUpgrade 0%nat (UpgRRelease RRelRUnlock) HStore ChClosed 1)
           (mkMem [mkNL "k"%string 1 0 0 (mkRW None 1)] {["k"%string := 0%nat]} None)).
  - vm_compute. reflexivity.
  - vm_compute. reflexivity.
  - vm_compute. reflexivity.
  - left. vm_compute. reflexivity.
Defined.

(** ** [Upgrade] *)

Lemma run_duo_frame t w s s' u :
  run (duo t w) s = Some s' → u ≠ t → st_threads s' u = st_threads s u.
Proof.
  revert s. induction w as [|b w IH]; intros s H Hne; simplify_eq/=; [done|].
  destruct b; simpl in H.
  - destruct (step_go t _ _) as [[[evs p] m]|]; simplify_eq/=.
    rewrite (IH _ H Hne). simpl. by rewrite fn_lookup_insert_ne.
  - destruct (step t _ _) as [[[evs p] m]|]; simplify_eq/=.
    rewrite (IH _ H Hne). simpl. by rewrite fn_lookup_insert_ne.
Qed.

Lemma run_duo_steps t w s evs p m :
  steps2 t w (pc_of s t) (st_mem s) = Some (evs, p, m) →
  ∃ s', run (duo t w) s = Some s' ∧ st_mem s' = m ∧ pc_of s' t = p ∧
        ∀ u, u ≠ t → st_threads s' u = st_threads s u.
Proof.
  intros H. destruct (run_duo t w s evs p m H) as (s' & Hrun & Hm & Hp & _).
  exists s'. repeat split; try done. intros u Hu. by eapply run_duo_frame.
Qed.

Lemma run_call_duo t c w s p evs p' m :
  begin (pc_of s t) c = Some p → steps2 t w p (st_mem s) = Some (evs, p', m) →
  ∃ s', run (Call t c :: duo t w) s = Some s' ∧ st_mem s' = m ∧ pc_of s' t = p' ∧
        ∀ u, u ≠ t → st_threads s' u = st_threads s u.
Proof.
  intros Hb H.
  destruct (run_duo_steps t w (set_thread t (mkThread p [ECall c]) s) evs p' m)
    as (s' & Hrun & Hm & Hp & Hfr).
  { unfold pc_of. simpl. rewrite fn_lookup_insert. done. }
  exists s'. split; [|split; [done|split; [done|]]].
  - simpl. unfold pc_of in Hb. rewrite Hb. simpl. exact Hrun.
  - intros u Hu. rewrite (Hfr u Hu). simpl. by rewrite fn_lookup_insert_ne.
Qed.

(** [Upgrade()] by the only goroutine on the entry. *)
Lemma Upgrade_alone_steps t h l n' wm wc :
  n' ≠ ""%string →
  ∃ evs,
    steps2 t (upgrade_alone false) (PUpgStart (length h))
      (mkMem (h ++ [mkNL n' 1 wm wc (mkRW None 1)]) l None) =
    Some (evs, PHoldW (length h),
          mkMem (h ++ [mkNL n' 1 1 (wrap64 (wc + 1)) (mkRW (Some t) 0)]) l None).
Proof. intros Hn. eexists. cbn. run_statements. reflexivity. Qed.

(** X18. A reader alone upgrades and releases: [RAcquire(n)] on a name that is
    not in the map, [Upgrade()] and [Release()] with nobody else running.
    [Upgrade] returns the entry of [RAcquire], which stays in the map, with
    the write lock held, [WriteLockMode()] true and [WriteLockCounter()] 1;
    after [Release] the map and its mutex are as they were. *)
Theorem upgrade_release_round_trip s t n :
  n ≠ ""%string → pc_of s t = PIdle → mapLock (st_mem s) = None →
  locks (st_mem s) !! n = None →
  ∃ s1 s2 s3,
    run (Call t (CRAcquire n) :: solo t 8) s = Some s1 ∧
    pc_of s1 t = PHoldR (length (heap (st_mem s))) ∧
    run (Call t CUpgrade :: duo t (upgrade_alone false)) s1 = Some s2 ∧
    pc_of s2 t = PHoldW (length (heap (st_mem s))) ∧
    locks (st_mem s2) !! n = Some (length (heap (st_mem s))) ∧
    heap (st_mem s2) !! length (heap (st_mem s)) =
      Some (mkNL n 1 1 1 (mkRW (Some t) 0)) ∧
    WriteLockMode s2 (length (heap (st_mem s))) = Some true ∧
    WriteLockCounter s2 (length (heap (st_mem s))) = Some 1 ∧
    run (Call t CRelease :: solo t 7) s2 = Some s3 ∧
    pc_of s3 t = PIdle ∧
    locks (st_mem s3) = locks (st_mem s) ∧ mapLock (st_mem s3) = None.
Proof.
  intros Hn Hp Hml Hl. destruct s as [[h l ml] th]. simpl in *. subst ml.
  destruct (RAcquire_new_steps t n h l Hn Hl) as [evs1 Hs1].
  destruct (run_call_steps t (CRAcquire n) 8 (mkState (mkMem h l None) th) _ _ _ _
              ltac:(by rewrite Hp) Hs1)
    as (s1 & Hr1 & Hm1 & Hp1 & _ & _).
  destruct (Upgrade_alone_steps t h (<[n := length h]> l) n 0 0 Hn) as [evs2 Hs2].
  edestruct (run_call_duo t CUpgrade (upgrade_alone false) s1 (PUpgStart (length h)))
    as (s2 & Hr2 & Hm2 & Hp2 & _).
  { by rewrite Hp1. }
  { rewrite Hm1. exact Hs2. }
  edestruct (run_call_steps t CRelease 7 s2 (PRelease (length h) RelCheck))
    as (s3 & Hr3 & Hm3 & Hp3 & _ & _).
  { by rewrite Hp2. }
  { rewrite Hm2. by apply (Release_last_steps t h _ (mkNL n 1 1 1 (mkRW (Some t) 0))). }
  exists s1, s2, s3.
  split; [done|]. split; [done|]. split; [done|]. split; [done|].
  unfold WriteLockMode, WriteLockCounter. rewrite Hm2, Hm3. simpl.
  rewrite lookup_snoc_last, lookup_insert_eq. simpl.
  split; [done|]. split; [done|]. split; [done|]. split; [done|].
  split; [done|]. split; [done|]. split; [|done]. by rewrite delete_insert_id.
Qed.

Lemma upgrade_release_round_trip_witness :
  pc_of init 0%nat = PIdle ∧ locks (st_mem init) !! "k"%string = None ∧
  ∃ s1 s2 s3,
    run (Call 0%nat (CRAcquire "k"%string) :: solo 0%nat 8) init = Some s1 ∧
    pc_of s1 0%nat = PHoldR 0%nat ∧
    run (Call 0%nat CUpgrade :: duo 0%nat (upgrade_alone false)) s1 = Some s2 ∧
    pc_of s2 0%nat = PHoldW 0%nat ∧
    locks (st_mem s2) !! "k"%string = Some 0%nat ∧
    heap (st_mem s2) !! 0%nat = Some (mkNL "k"%string 1 1 1 (mkRW (Some 0%nat) 0)) ∧
    WriteLockMode s2 0%nat = Some true ∧
    WriteLockCounter s2 0%nat = Some 1 ∧
    run (Call 0%nat CRelease :: solo 0%nat 7) s2 = Some s3 ∧
    pc_of s3 0%nat = PIdle ∧
    locks (st_mem s3) = locks (st_mem init) ∧ mapLock (st_mem s3) = None.
Proof.
  split; [reflexivity|]. split; [reflexivity|].
  apply (upgrade_release_round_trip init 0%nat "k"%string);
    [discriminate|reflexivity..].
Defined.

(** [Upgrade()] up to [nl.Lock()], with another goroutine counted on the
    entry. *)
Lemma Upgrade_to_lock_steps t h l n' wm wc r :
  n' ≠ ""%string →
  ∃ evs,
    steps2 t upgrade_to_lock (PUpgStart (length h))
      (mkMem (h ++ [mkNL n' 2 wm wc (mkRW None (S r))]) l None) =
    Some (evs, PUpgrade (length h) UpgWait HLock ChClosed 1,
          mkMem (h ++ [mkNL n' 2 1 wc (mkRW None r)]) l None).
Proof. intros Hn. eexists. cbn. run_statements. reflexivity. Qed.

(** [nl.Lock()] to the return of [Upgrade()], the mutex free. *)
Lemma Upgrade_locked_steps t h l n' q wm wc ml :
  ∃ evs,
    steps2 t upgrade_locked (PUpgrade (length h) UpgWait HLock ChClosed 1)
      (mkMem (h ++ [mkNL n' q wm wc (mkRW None 0)]) l ml) =
    Some (evs, PHoldW (length h),
          mkMem (h ++ [mkNL n' q wm (wrap64 (wc + 1)) (mkRW (Some t) 0)]) l ml).
Proof. eexists. cbn. run_statements. reflexivity. Qed.

(** X19. Two readers of one entry upgrade at the same time.  Neither gets the
    write lock before the other has released its read lock; then one of them
    returns from [Upgrade()] with [WriteLockCounter()] 1 while the other
    waits in [nl.Lock()]; after the [Release()] of the first, which leaves
    the entry in the map, the second returns with [WriteLockCounter()] 2: the
    counter tells it that another goroutine had the write lock in between. *)
Theorem concurrent_upgrades s t u n :
  t ≠ u → n ≠ ""%string → pc_of s t = PIdle → pc_of s u = PIdle →
  mapLock (st_mem s) = None → locks (st_mem s) !! n = None →
  ∃ s1 s2 s3 s4 s5 s6,
    run (Call t (CRAcquire n) :: solo t 8) s = Some s1 ∧
    run (Call u (CRAcquire n) :: solo u 7) s1 = Some s2 ∧
    pc_of s2 t = PHoldR (length (heap (st_mem s))) ∧
    pc_of s2 u = PHoldR (length (heap (st_mem s))) ∧
    run (Call t CUpgrade :: duo t upgrade_to_lock) s2 = Some s3 ∧
    step t (pc_of s3 t) (st_mem s3) = None ∧
    step_go t (pc_of s3 t) (st_mem s3) = None ∧
    run (Call u CUpgrade :: duo u upgrade_to_lock ++ duo t upgrade_locked) s3 = Some s4 ∧
    pc_of s4 t = PHoldW (length (heap (st_mem s))) ∧
    WriteLockCounter s4 (length (heap (st_mem s))) = Some 1 ∧
    step u (pc_of s4 u) (st_mem s4) = None ∧
    step_go u (pc_of s4 u) (st_mem s4) = None ∧
    run (Call t CRelease :: solo t 4) s4 = Some s5 ∧
    pc_of s5 t = PIdle ∧
    locks (st_mem s5) !! n = Some (length (heap (st_mem s))) ∧
    run (duo u upgrade_locked) s5 = Some s6 ∧
    pc_of s6 u = PHoldW (length (heap (st_mem s))) ∧
    WriteLockCounter s6 (length (heap (st_mem s))) = Some 2.
Proof.
  intros Htu Hn Hpt Hpu Hml Hl. destruct s as [[h l ml] th]. simpl in *. subst ml.
  assert (u ≠ t) as Hut by done.
  destruct (RAcquire_new_steps t n h l Hn Hl) as [evs1 Hs1].
  destruct (run_call_steps t (CRAcquire n) 8 (mkState (mkMem h l None) th) _ _ _ _
              ltac:(by rewrite Hpt) Hs1)
    as (s1 & Hr1 & Hm1 & Hp1 & _ & Hf1).
  destruct (RAcquire_found_steps u n h (<[n := length h]> l) n 0 0 1%nat Hn)
    as [evs2 Hs2]; [by rewrite lookup_insert_eq|].
  edestruct (run_call_steps u (CRAcquire n) 7 s1 (PRAcquire n RAcqCheck))
    as (s2 & Hr2 & Hm2 & Hp2 & _ & Hf2).
  { rewrite (frame_pc _ _ t u Hf1) by done. by rewrite Hpu. }
  { rewrite Hm1. exact Hs2. }
  assert (pc_of s2 t = PHoldR (length h)) as Hp2t.
  { by rewrite (frame_pc _ _ u t Hf2). }
  destruct (Upgrade_to_lock_steps t h (<[n := length h]> l) n 0 0 1%nat Hn)
    as [evs3 Hs3].
  edestruct (run_call_duo t CUpgrade upgrade_to_lock s2 (PUpgStart (length h)))
    as (s3 & Hr3 & Hm3 & Hp3 & Hf3).
  { by rewrite Hp2t. }
  { rewrite Hm2. exact Hs3. }
  destruct (Upgrade_to_lock_steps u h (<[n := length h]> l) n 1 0 0%nat Hn)
    as [evs4 Hs4].
  edestruct (run_call_duo u CUpgrade upgrade_to_lock s3 (PUpgStart (length h)))
    as (s3' & Hr3' & Hm3' & Hp3' & Hf3').
  { rewrite (frame_pc _ _ t u Hf3) by done. by rewrite Hp2. }
  { rewrite Hm3. exact Hs4. }
  destruct (Upgrade_locked_steps t h (<[n := length h]> l) n 2 1 0 None) as [evs5 Hs5].
  edestruct (run_duo_steps t upgrade_locked s3') as (s4 & Hr4 & Hm4 & Hp4 & Hf4).
  { rewrite (frame_pc _ _ u t Hf3') by done. rewrite Hp3, Hm3'. exact Hs5. }
  assert (pc_of s4 u = PUpgrade (length h) UpgWait HLock ChClosed 1) as Hp4u.
  { by rewrite (frame_pc _ _ t u Hf4). }
  destruct (Release_queued_steps t h (<[n := length h]> l) n 1 1 t 0%nat Hn)
    as [evs6 Hs6].
  edestruct (run_call_steps t CRelease 4 s4 (PRelease (length h) RelCheck))
    as (s5 & Hr5 & Hm5 & Hp5 & _ & Hf5).
  { by rewrite Hp4. }
  { rewrite Hm4. exact Hs6. }
  destruct (Upgrade_locked_steps u h (<[n := length h]> l) n 1 0 1 None) as [evs7 Hs7].
  edestruct (run_duo_steps u upgrade_locked s5) as (s6 & Hr6 & Hm6 & Hp6 & _).
  { rewrite (frame_pc _ _ t u Hf5) by done. rewrite Hp4u, Hm5. exact Hs7. }
  assert (run (Call u CUpgrade :: duo u upgrade_to_lock ++ duo t upgrade_locked) s3
          = Some s4) as Hr34.
  { rewrite app_comm_cons, run_app, Hr3'. exact Hr4. }
  exists s1, s2, s3, s4, s5, s6.
  split; [done|]. split; [done|]. split; [done|]. split; [done|]. split; [done|].
  split. { rewrite Hp3, Hm3. reflexivity. }
  split. { rewrite Hp3, Hm3. cbn. run_statements. reflexivity. }
  split; [exact Hr34|].
  split; [done|].
  split. { unfold WriteLockCounter. rewrite Hm4. simpl. by rewrite lookup_snoc_last. }
  split. { rewrite Hp4u, Hm4. reflexivity. }
  split. { rewrite Hp4u, Hm4. cbn. run_statements. reflexivity. }
  split; [done|]. split; [done|].
  split. { rewrite Hm5. simpl. by rewrite lookup_insert_eq. }
  split; [done|]. split; [done|].
  unfold WriteLockCounter. rewrite Hm6. simpl. by rewrite lookup_snoc_last.
Qed.

Lemma concurrent_upgrades_witness :
  pc_of init 0%nat = PIdle ∧ pc_of init 1%nat = PIdle ∧
  locks (st_mem init) !! "k"%string = None ∧
  ∃ s1 s2 s3 s4 s5 s6,
    run (Call 0%nat (CRAcquire "k"%string) :: solo 0%nat 8) init = Some s1 ∧
    run (Call 1%nat (CRAcquire "k"%string) :: solo 1%nat 7) s1 = Some s2 ∧
    pc_of s2 0%nat = PHoldR 0%nat ∧
    pc_of s2 1%nat = PHoldR 0%nat ∧
    run (Call 0%nat CUpgrade :: duo 0%nat upgrade_to_lock) s2 = Some s3 ∧
    step 0%nat (pc_of s3 0%nat) (st_mem s3) = None ∧
    step_go 0%nat (pc_of s3 0%nat) (st_mem s3) = None ∧
    run (Call 1%nat CUpgrade :: duo 1%nat upgrade_to_lock ++ duo 0%nat upgrade_locked) s3
      = Some s4 ∧
    pc_of s4 0%nat = PHoldW 0%nat ∧
    WriteLockCounter s4 0%nat = Some 1 ∧
    step 1%nat (pc_of s4 1%nat) (st_mem s4) = None ∧
    step_go 1%nat (pc_of s4 1%nat) (st_mem s4) = None ∧
    run (Call 0%nat CRelease :: solo 0%nat 4) s4 = Some s5 ∧
    pc_of s5 0%nat = PIdle ∧
    locks (st_mem s5) !! "k"%string = Some 0%nat ∧
    run (duo 1%nat upgrade_locked) s5 = Some s6 ∧
    pc_of s6 1%nat = PHoldW 0%nat ∧
    WriteLockCounter s6 0%nat = Some 2.
Proof.
  split; [reflexivity|]. split; [reflexivity|]. split; [reflexivity|].
  apply (concurrent_upgrades init 0%nat 1%nat "k"%string);
    [discriminate|discriminate|reflexivity..].
Defined.

Local Open Scope string_scope.

(** ** [UpdateParams] *)

Lemma update1_target p kv k :
  target kv = Some k → update1 p kv !! k = update_at kv (p !! k).
Proof.
  unfold target, update1, update_at, Values_Del, Values_Add, Values_Set.
  destruct kv as [[|c k'] v]; simpl; [done|].
  repeat case_decide; intros [= <-]; try naive_solver.
  all: by rewrite ?lookup_delete_eq, ?lookup_insert_eq.
Qed.

Lemma update1_other p kv k :
  target kv ≠ Some k → update1 p kv !! k = p !! k.
Proof.
  unfold target, update1, Values_Del, Values_Add, Values_Set.
  destruct kv as [[|c k'] v]; simpl; [done|].
  repeat case_decide; intros Hne; try naive_solver;
    rewrite ?lookup_delete_ne, ?lookup_insert_ne; congruence.
Qed.

Lemma update1_comm p x y :
  (∀ k, target x = Some k → target y ≠ Some k) →
  update1 (update1 p x) y = update1 (update1 p y) x.
Proof.
  intros H. apply map_eq. intros k.
  destruct (decide (target x = Some k)) as [Hx|Hx];
    destruct (decide (target y = Some k)) as [Hy|Hy].
  - by destruct (H k Hx).
  - by rewrite (update1_other _ y k Hy), !(update1_target _ x k Hx),
      (update1_other _ y k Hy).
  - by rewrite (update1_target _ y k Hy), !(update1_other _ x k Hx),
      (update1_target _ y k Hy).
  - by rewrite !update1_other.
Qed.

Lemma foldl_update1_other l p k :
  (∀ kv, kv ∈ l → target kv ≠ Some k) → foldl update1 p l !! k = p !! k.
Proof.
  revert p. induction l as [|x l IH]; intros p H; simpl; [done|].
  rewrite IH by (intros; apply H; set_solver).
  apply update1_other, H. set_solver.
Qed.

Lemma NoDup_omap_cons {A B} (f : A → option B) x l k :
  NoDup (omap f (x :: l)) → f x = Some k → ∀ y, y ∈ l → f y ≠ Some k.
Proof.
  simpl. intros Hnd Hx y Hy Hfy. rewrite Hx in Hnd.
  apply NoDup_cons in Hnd as [Hn _]. apply Hn.
  apply list_elem_of_omap. by exists y.
Qed.

Lemma NoDup_omap_tail {A B} (f : A → option B) x l :
  NoDup (omap f (x :: l)) → NoDup (omap f l).
Proof. simpl. destruct (f x); [by intros [_ ?]%NoDup_cons|done]. Qed.

Lemma foldl_update1_perm l1 l2 p :
  l1 ≡ₚ l2 → NoDup (omap target l1) → foldl update1 p l1 = foldl update1 p l2.
Proof.
  intros Hp. revert p. induction Hp as [|x l1 l2 Hp IH|x y l|l1 l2 l3 Hp1 IH1 Hp2 IH2];
    intros p Hnd.
  - done.
  - simpl. apply IH. by eapply NoDup_omap_tail.
  - simpl. f_equal. apply update1_comm. intros k Hy Hx.
    eapply (NoDup_omap_cons target y (x :: l) k); [done|done| |done]. set_solver.
  - rewrite IH1 by done. apply IH2. by rewrite <-Hp1.
Qed.

(** X15. The result does not depend on the order in which Go ranges over
    [updates], when no two of its entries work on the same parameter. *)
Theorem UpdateParams_order_independent params updates o1 o2 :
  o1 ≡ₚ map_to_list updates → o2 ≡ₚ map_to_list updates →
  NoDup (omap target (map_to_list updates)) →
  UpdateParams params updates o1 = UpdateParams params updates o2.
Proof.
  intros H1 H2 Hnd. unfold UpdateParams. destruct params as [p|]; simpl; [|done].
  case_decide; [done|]. f_equal. apply foldl_update1_perm.
  - by rewrite H1, H2.
  - by rewrite H1.
Qed.

Lemma UpdateParams_order_independent_witness :
  [("a", "1"); ("+b", "2")] ≡ₚ
    map_to_list ({["a" := "1"; "+b" := "2"]} : gmap string string) ∧
  [("+b", "2"); ("a", "1")] ≡ₚ
    map_to_list ({["a" := "1"; "+b" := "2"]} : gmap string string) ∧
  NoDup (omap target (map_to_list ({["a" := "1"; "+b" := "2"]} : gmap string string))) ∧
  UpdateParams (Some {["b" := ["0"]]}) {["a" := "1"; "+b" := "2"]}
    [("a", "1"); ("+b", "2")] =
  UpdateParams (Some {["b" := ["0"]]}) {["a" := "1"; "+b" := "2"]}
    [("+b", "2"); ("a", "1")] ∧
  UpdateParams (Some {["b" := ["0"]]}) {["a" := "1"; "+b" := "2"]}
    [("+b", "2"); ("a", "1")] = Some {["a" := ["1"]; "b" := ["0"; "2"]]}.
Proof.
  assert ([("a", "1"); ("+b", "2")] ≡ₚ
            map_to_list ({["a" := "1"; "+b" := "2"]} : gmap string string)) as H1.
  { rewrite map_to_list_insert by done. by rewrite map_to_list_singleton. }
  assert ([("+b", "2"); ("a", "1")] ≡ₚ
            map_to_list ({["a" := "1"; "+b" := "2"]} : gmap string string)) as H2.
  { rewrite <-H1. apply Permutation_swap. }
  assert (NoDup (omap target
            (map_to_list ({["a" := "1"; "+b" := "2"]} : gmap string string)))) as Hnd.
  { rewrite <-H1. simpl. apply NoDup_cons. split; [|apply NoDup_singleton].
    intros H. apply list_elem_of_singleton in H. discriminate. }
  split; [exact H1|]. split; [exact H2|]. split; [exact Hnd|]. split.
  - apply (UpdateParams_order_independent (Some {["b" := ["0"]]})
             {["a" := "1"; "+b" := "2"]} _ _ H1 H2 Hnd).
  - vm_compute. reflexivity.
Defined.

(** X16. What the call does, when no two entries of [updates] work on the same
    parameter: the parameter of an entry gets what the entry says ([-k]
    removes [k], [+k] appends the value to those of [k], [k] replaces them),
    an entry with the empty key does nothing, and the other parameters are as
    they were. *)
Theorem UpdateParams_effect p updates order p' :
  order ≡ₚ map_to_list updates → NoDup (omap target (map_to_list updates)) →
  UpdateParams (Some p) updates order = Some p' →
  (∀ kv k, kv ∈ order → target kv = Some k → p' !! k = update_at kv (p !! k)) ∧
  (∀ k, (∀ kv, kv ∈ order → target kv ≠ Some k) → p' !! k = p !! k).
Proof.
  intros Hperm Hnd H. unfold UpdateParams in H. simpl in H.
  assert (p' = foldl update1 p order) as ->.
  { case_decide as Hs; simplify_eq; [|done].
    apply map_size_empty_iff in Hs. subst. rewrite map_to_list_empty in Hperm.
    by apply Permutation_nil_r in Hperm as ->. }
  clear H. split; [|intros k Hk; by apply foldl_update1_other].
  assert (NoDup (omap target order)) as Hnd'.
  { by rewrite Hperm. }
  clear Hperm Hnd. revert p. induction order as [|x l IH]; intros p kv k Hin Hk.
  { by apply elem_of_nil in Hin. }
  simpl. apply elem_of_cons in Hin as [->|Hin].
  - rewrite foldl_update1_other; [by apply update1_target|].
    by eapply NoDup_omap_cons.
  - rewrite (IH (NoDup_omap_tail _ _ _ Hnd') _ kv k Hin Hk). f_equal.
    apply update1_other. intros Hx.
    by eapply (NoDup_omap_cons target x l k Hnd' Hx kv Hin).
Qed.

Lemma UpdateParams_effect_witness :
  UpdateParams (Some {["b" := ["0"]]}) {["+b" := "1"]} [("+b", "1")] =
    Some {["b" := ["0"; "1"]]} ∧
  (∀ kv k, kv ∈ [("+b", "1")] → target kv = Some k →
     ({["b" := ["0"; "1"]]} : gmap string (list string)) !! k =
     update_at kv (({["b" := ["0"]]} : gmap string (list string)) !! k)) ∧
  (∀ k, (∀ kv, kv ∈ [("+b", "1")] → target kv ≠ Some k) →
     ({["b" := ["0"; "1"]]} : gmap string (list string)) !! k =
     ({["b" := ["0"]]} : gmap string (list string)) !! k).
Proof.
  assert (UpdateParams (Some {["b" := ["0"]]}) {["+b" := "1"]} [("+b", "1")] =
            Some {["b" := ["0"; "1"]]}) as Hrun.
  { vm_compute. reflexivity. }
  assert (NoDup (omap target (map_to_list ({["+b" := "1"]} : gmap string string)))) as Hnd.
  { rewrite map_to_list_singleton. simpl. apply NoDup_singleton. }
  split; [exact Hrun|].
  apply (UpdateParams_effect {["b" := ["0"]]} {["+b" := "1"]} [("+b", "1")]
           {["b" := ["0"; "1"]]}).
  - by rewrite map_to_list_singleton.
  - exact Hnd.
  - exact Hrun.
Defined.

Lemma String_ne_tail c k : k ≠ String c k.
Proof. intros H. apply (f_equal String.length) in H. simpl in H. lia. Qed.

Lemma update1_plain p k v :
  target (k, v) = Some k → update1 p (k, v) = Values_Set k v p.
Proof.
  unfold target, update1. destruct k as [|c k']; simpl; [done|].
  repeat case_decide; try done; intros Heq; apply (inj Some) in Heq.
  all: first [by destruct (String_ne_tail c k' Heq)|naive_solver].
Qed.

(** X17. The result depends on the order in which Go ranges over [updates] when
    two entries work on the same parameter: with [k] and [+k] in [updates],
    the parameter [k] ends with both values when [k] comes first, and with
    the value of [k] alone when [+k] comes first. *)
Theorem UpdateParams_order_dependent p k v w :
  target (k, v) = Some k →
  [(k, v); ("+" +:+ k, w)] ≡ₚ map_to_list ({[k := v; "+" +:+ k := w]} : gmap string string) ∧
  [("+" +:+ k, w); (k, v)] ≡ₚ map_to_list ({[k := v; "+" +:+ k := w]} : gmap string string) ∧
  UpdateParams (Some p) {[k := v; "+" +:+ k := w]} [(k, v); ("+" +:+ k, w)] =
    Some (<[k := [v; w]]> p) ∧
  UpdateParams (Some p) {[k := v; "+" +:+ k := w]} [("+" +:+ k, w); (k, v)] =
    Some (<[k := [v]]> p).
Proof.
  intros Hk.
  assert (k ≠ "+" +:+ k) as Hne by apply String_ne_tail.
  assert ([(k, v); ("+" +:+ k, w)]
            ≡ₚ map_to_list ({[k := v; "+" +:+ k := w]} : gmap string string)) as Hperm.
  { rewrite map_to_list_insert by by rewrite lookup_singleton_ne.
    by rewrite map_to_list_singleton. }
  assert (size ({[k := v; "+" +:+ k := w]} : gmap string string) ≠ 0%nat) as Hs.
  { rewrite map_size_insert_None by by rewrite lookup_singleton_ne. lia. }
  split; [done|]. split; [by rewrite <-Hperm; apply Permutation_swap|].
  unfold UpdateParams. simpl. rewrite !decide_False by done.
  rewrite !(update1_plain _ k v Hk). unfold update1, Values_Set, Values_Add. simpl.
  split; f_equal.
  - rewrite lookup_insert_eq. simpl. by rewrite insert_insert_eq.
  - by rewrite insert_insert_eq.
Qed.

Lemma UpdateParams_order_dependent_witness :
  target ("a", "1") = Some "a" ∧
  UpdateParams (Some ∅) {["a" := "1"; "+a" := "2"]} [("a", "1"); ("+a", "2")] =
    Some {["a" := ["1"; "2"]]} ∧
  UpdateParams (Some ∅) {["a" := "1"; "+a" := "2"]} [("+a", "2"); ("a", "1")] =
    Some {["a" := ["1"]]}.
Proof.
  split; [reflexivity|].
  apply (proj2 (proj2 (UpdateParams_order_dependent ∅ "a" "1" "2" eq_refl))).
Defined.
